(** * AI-Description: the reply parser and result assembler of [server.py]

    A shallow embedding of the text pipeline of [server.py]:
    [parse_gemini_response] (section slicing and per-label regular-expression
    extraction), the padding / truncation code at the end of
    [generate_via_gemini], and the status mapping of [generate_content].

    Modelling conventions.
    - A Python [str] is a list of characters ([str := list ascii]): the
      texts of the model are those of code points 0 to 255 (Latin-1), and on
      them [is_space], [upper], the character tests of [re] and the string
      methods are those of Python.
    - A Python [int] is a [Z].
    - [try / except] is an explicit exception-and-state monad: the state holds
      the three accumulator lists that the handlers of the source return.
    - The browser steps are not code of the text pipeline; their outcome is an
      input of the model ([external]). *)

From Stdlib Require Import Ascii String.
From Stdlib Require Import ZArith List Bool Lia ZifyBool.
From Stdlib Require Import Numbers.DecimalString Numbers.DecimalZ Numbers.DecimalPos.
Import ListNotations.

Local Open Scope Z_scope.

(** ** Python strings *)

Definition str := list ascii.

(** String literals of the source are written [(§ "...")]. *)
Notation "'§' s" := (list_ascii_of_string s) (at level 1, s at level 0, format "'§' s").

Definition len {A : Type} (l : list A) : Z := Z.of_nat (length l).

Definition code (c : ascii) : Z := Z.of_nat (nat_of_ascii c).

(** [str.isspace] on one character; the class [\s] of [re], [str.strip] and
    [str.split] use the same set: TAB, LF, VT, FF, CR, FS, GS, RS, US, the
    space, NEL (133) and the no-break space (160). *)
Definition is_space (c : ascii) : bool :=
  ((9 <=? code c) && (code c <=? 13)) || ((28 <=? code c) && (code c <=? 32))
  || (code c =? 133) || (code c =? 160).

(** The capital of one character, for every character that has a capital of
    one character: the letters [a] to [z] and the accented small letters 224
    to 254 (247, the division sign, is no letter) move down by 32.  The
    capitals of the micro sign (181) and of the y with diaeresis (255) are
    U+039C and U+0178, which are no Latin-1 characters: they are written 181
    and 255 here, two characters that an upper-cased text holds in no other
    way. *)
Definition upper1 (c : ascii) : ascii :=
  if ((97 <=? code c) && (code c <=? 122))
     || ((224 <=? code c) && (code c <=? 254) && negb (code c =? 247))
  then ascii_of_nat (nat_of_ascii c - 32) else c.

(** The sharp s, whose capital is written with two characters. *)
Definition sharp_s : ascii := ascii_of_nat 223.

Definition upper_char (c : ascii) : str :=
  if Ascii.eqb c sharp_s then §"SS" else [upper1 c].

Definition lower_char (c : ascii) : ascii :=
  if (65 <=? code c) && (code c <=? 90)
  then ascii_of_nat (nat_of_ascii c + 32) else c.

(** [s.upper()]: the result is longer than [s] by the number of its sharp
    s. *)
Definition upper (s : str) : str := flat_map upper_char s.

Fixpoint starts_with (sub s : str) : bool :=
  match sub, s with
  | [], _ => true
  | _ :: _, [] => false
  | a :: sub', b :: s' => Ascii.eqb a b && starts_with sub' s'
  end.

Fixpoint find_nat (s sub : str) : option nat :=
  if starts_with sub s then Some O
  else match s with
       | [] => None
       | _ :: s' => option_map S (find_nat s' sub)
       end.

(** [s.find(sub)]: the lowest index at which [sub] occurs, or [-1]. *)
Definition find (s sub : str) : Z :=
  match find_nat s sub with
  | Some n => Z.of_nat n
  | None => -1
  end.

(** Index normalisation of a slice bound: a negative bound counts from the
    end, and every bound is clamped to [0 .. len]. *)
Definition clamp_index (n i : Z) : Z :=
  if i <? 0 then Z.max 0 (i + n) else Z.min i n.

(** [l[lo:hi]] with optional bounds, on strings and on lists. *)
Definition slice {A : Type} (l : list A) (lo hi : option Z) : list A :=
  let n := len l in
  let a := match lo with None => 0 | Some i => clamp_index n i end in
  let b := match hi with None => n | Some j => clamp_index n j end in
  firstn (Z.to_nat (b - a)) (skipn (Z.to_nat a) l).

Fixpoint lstrip (s : str) : str :=
  match s with
  | [] => []
  | c :: s' => if is_space c then lstrip s' else s
  end.

Definition rstrip (s : str) : str := rev (lstrip (rev s)).

(** [s.strip()] *)
Definition strip (s : str) : str := rstrip (lstrip s).

(** [s.split()]: the maximal runs of non-blank characters, in order.  [cur]
    is the run being read. *)
Fixpoint split_ws (cur s : str) : list str :=
  match s with
  | [] => match cur with [] => [] | _ => [cur] end
  | c :: s' =>
      if is_space c
      then match cur with [] => split_ws [] s' | _ => cur :: split_ws [] s' end
      else split_ws (cur ++ [c]) s'
  end.

Definition split (s : str) : list str := split_ws [] s.

(** [sep.join(parts)] *)
Fixpoint join (sep : str) (parts : list str) : str :=
  match parts with
  | [] => []
  | [p] => p
  | p :: rest => p ++ sep ++ join sep rest
  end.

(** [str(i)] and the [{i}] of an f-string. *)
Definition str_of_int (i : Z) : str :=
  list_ascii_of_string (NilZero.string_of_int (Z.to_int i)).

(** [range(lo, hi)] *)
Definition range (lo hi : Z) : list Z :=
  map (fun k => lo + Z.of_nat k) (seq 0 (Z.to_nat (hi - lo))).

(** ** The fragment of [re] used by the parser

    Backtracking matcher in continuation-passing style: [exec r s g k] matches
    [r] at the head of [s] and hands the rest of the text and the value of
    group 1 to [k]; a [None] from [k] makes the matcher try its next
    alternative, in the priority order of [re].  Flags [IGNORECASE] and
    [DOTALL] are built into the character tests. *)

Inductive regex : Type :=
| Chr (p : ascii -> bool)      (* one character satisfying [p] *)
| Eps
| Cat (r1 r2 : regex)
| Alt (r1 r2 : regex)          (* r1|r2 *)
| Star (r : regex)             (* r*   greedy *)
| PlusLazy (r : regex)         (* r+?  lazy *)
| Group (r : regex)            (* (r)  capture group 1 *)
| Ahead (r : regex)            (* (?=r) *)
| Eos.                         (* $ without MULTILINE *)

Definition newline : ascii := ascii_of_nat 10.

Definition at_eos (s : str) : bool :=
  match s with
  | [] => true
  | [c] => Ascii.eqb c newline
  | _ => false
  end.

Definition or_else {A : Type} (a b : option A) : option A :=
  match a with Some _ => a | None => b end.

(** The iteration of [r*] (greedy: one more [r] first, the continuation
    second) and of the tail of [r+?] (lazy: the continuation first).  [body]
    matches one [r]; an iteration that consumes nothing is not repeated. *)
Fixpoint star_loop (R : Type)
         (body : str -> option str -> (str -> option str -> option R) -> option R)
         (k : str -> option str -> option R)
         (fuel : nat) (s : str) (g : option str) {struct fuel} : option R :=
  match fuel with
  | O => k s g
  | S fuel' =>
      or_else
        (body s g
           (fun s1 g1 =>
              if (length s1 <? length s)%nat
              then star_loop R body k fuel' s1 g1 else None))
        (k s g)
  end.

Fixpoint lazy_loop (R : Type)
         (body : str -> option str -> (str -> option str -> option R) -> option R)
         (k : str -> option str -> option R)
         (fuel : nat) (s : str) (g : option str) {struct fuel} : option R :=
  or_else (k s g)
    match fuel with
    | O => None
    | S fuel' =>
        body s g
          (fun s1 g1 =>
             if (length s1 <? length s)%nat
             then lazy_loop R body k fuel' s1 g1 else None)
    end.

Fixpoint exec (R : Type) (r : regex) (s : str) (g : option str)
         (k : str -> option str -> option R) {struct r} : option R :=
  match r with
  | Chr p =>
      match s with
      | c :: s' => if p c then k s' g else None
      | [] => None
      end
  | Eps => k s g
  | Cat r1 r2 => exec R r1 s g (fun s1 g1 => exec R r2 s1 g1 k)
  | Alt r1 r2 => or_else (exec R r1 s g k) (exec R r2 s g k)
  | Star r1 => star_loop R (exec R r1) k (length s) s g
  | PlusLazy r1 =>
      exec R r1 s g (fun s0 g0 => lazy_loop R (exec R r1) k (length s0) s0 g0)
  | Group r1 =>
      exec R r1 s g
        (fun s1 _ => k s1 (Some (firstn (length s - length s1) s)))
  | Ahead r1 =>
      match exec unit r1 s g (fun _ _ => Some tt) with
      | Some _ => k s g
      | None => None
      end
  | Eos => if at_eos s then k s g else None
  end.

Arguments star_loop {R} body k fuel s g.
Arguments lazy_loop {R} body k fuel s g.
Arguments exec {R} r s g k.

(** A match object: what [m.group(1)] holds ([None] when the group took no
    part in the match). *)
Record Match : Type := mkMatch { group1 : option str }.

(** [re.match]: the pattern anchored at the head of [s]. *)
Definition match_here (r : regex) (s : str) : option Match :=
  exec r s None (fun _ g => Some (mkMatch g)).

(** [re.search(pattern, s, re.IGNORECASE | re.DOTALL)]: the first start
    position, from the left, at which the pattern matches. *)
Fixpoint re_search (r : regex) (s : str) : option Match :=
  match match_here r s with
  | Some m => Some m
  | None =>
      match s with
      | [] => None
      | _ :: s' => re_search r s'
      end
  end.

(** A literal character of a pattern under [IGNORECASE]; the patterns of the
    source are ASCII, and an ASCII letter matches its two cases only. *)
Definition ci_eq (a b : ascii) : bool := Ascii.eqb (lower_char a) (lower_char b).

Definition any_char (c : ascii) : bool := true.

(** Literal text of a pattern. *)
Definition lit (s : str) : regex := fold_right (fun c r => Cat (Chr (ci_eq c)) r) Eps s.

(** [\s*] *)
Definition ws_star : regex := Star (Chr is_space).

(** [<name>\s*{i}\s*:] *)
Definition label_re (name : str) (i : Z) : regex :=
  Cat (lit name) (Cat ws_star (Cat (lit (str_of_int i)) (Cat ws_star (lit §":")))).

(** [<label>\s*(.+?)(?=<stop>)] *)
Definition item_re (label stop : regex) : regex :=
  Cat label (Cat ws_star (Cat (Group (PlusLazy (Chr any_char))) (Ahead stop))).

(** [rf'Title\s*{i}\s*:\s*(.+?)(?=Title\s*{i+1}\s*:|DESCRIPTIONS:|$)'] *)
Definition title_pattern (i : Z) : regex :=
  item_re (label_re §"Title" i)
          (Alt (label_re §"Title" (i + 1)) (Alt (lit §"DESCRIPTIONS:") Eos)).

(** [rf'Description\s*{i}\s*:\s*(.+?)(?=Description\s*{i+1}\s*:|BULLETS:|$)'] *)
Definition desc_pattern (i : Z) : regex :=
  item_re (label_re §"Description" i)
          (Alt (label_re §"Description" (i + 1)) (Alt (lit §"BULLETS:") Eos)).

(** [rf'Bullet\s*{i}\s*:\s*(.+?)(?=Bullet\s*{i+1}\s*:|$)'] *)
Definition bullet_pattern (i : Z) : regex :=
  item_re (label_re §"Bullet" i)
          (Alt (label_re §"Bullet" (i + 1)) Eos).

(** ** Exceptions and the accumulator lists

    The body of a [try] block is a computation over the three lists
    [titles], [descriptions], [bullets]; it ends normally with a value or
    raises, and in both cases leaves the lists as they were at that point. *)

Inductive exc (A : Type) : Type :=
| Ok (a : A)
| Raise (e : str).

Arguments Ok {A} a.
Arguments Raise {A} e.

Definition lists : Type := (list str * list str * list str)%type.

Definition no_lists : lists := ([], [], []).

Definition M (A : Type) : Type := lists -> exc A * lists.

Definition ret {A : Type} (a : A) : M A := fun st => (Ok a, st).

Definition bind {A B : Type} (m : M A) (f : A -> M B) : M B :=
  fun st =>
    match m st with
    | (Ok a, st') => f a st'
    | (Raise e, st') => (Raise e, st')
    end.

Definition raise {A : Type} (e : str) : M A := fun st => (Raise e, st).

Definition get_lists : M lists := fun st => (Ok st, st).

Definition set_lists (l : lists) : M unit := fun _ => (Ok tt, l).

Notation "x <- m ;; f" := (bind m (fun x => f))
  (at level 61, m at next level, right associativity).
Notation "m ;; f" := (bind m (fun _ => f))
  (at level 61, right associativity).

(** [for x in xs: body x] *)
Fixpoint for_each {A : Type} (xs : list A) (body : A -> M unit) : M unit :=
  match xs with
  | [] => ret tt
  | x :: xs' => body x ;; for_each xs' body
  end.

(** The three list variables, and [<list>.append(c)] on one of them. *)
Inductive kind : Type := Titles | Descriptions | Bullets.

Definition get_list (k : kind) (st : lists) : list str :=
  match k, st with
  | Titles, (t, _, _) => t
  | Descriptions, (_, d, _) => d
  | Bullets, (_, _, b) => b
  end.

Definition set_list (k : kind) (l : list str) (st : lists) : lists :=
  match k, st with
  | Titles, (_, d, b) => (l, d, b)
  | Descriptions, (t, _, b) => (t, l, b)
  | Bullets, (t, d, _) => (t, d, l)
  end.

Definition append (k : kind) (c : str) : M unit :=
  fun st => (Ok tt, set_list k (get_list k st ++ [c]) st).

(** [m.group(1).strip()]: the attribute access fails on a group that took no
    part in the match. *)
Definition group_strip (m : Match) : M str :=
  match group1 m with
  | Some g => ret (strip g)
  | None => raise §"AttributeError"
  end.

(** ** [parse_gemini_response] *)

(** The body of one iteration of the three [for] loops:
    [[
      match = re.search(pattern, section, re.IGNORECASE | re.DOTALL)
      if match:
          content = ' '.join(match.group(1).strip().split())
          if len(content) > minimum:
              items.append(content)
    ]] *)
Definition parse_item (pattern : regex) (section : str) (minimum : Z)
           (k : kind) : M unit :=
  match re_search pattern section with
  | Some m =>
      stripped <- group_strip m ;;
      let content := join §" " (split stripped) in
      if minimum <? len content then append k content else ret tt
  | None => ret tt
  end.

(** The statements of the [try] block, from the marker search to the final
    [return]. *)
Definition parse_body (response_text : str) (title_count desc_count bullet_count : Z)
  : M lists :=
  let response_upper := upper response_text in
  let titles_start := find response_upper §"TITLES:" in
  let desc_start := find response_upper §"DESCRIPTIONS:" in
  let bullets_start := find response_upper §"BULLETS:" in
  if titles_start =? -1 then get_lists
  else
    let titles_section :=
      if negb (desc_start =? -1)
      then slice response_text (Some (titles_start + 7)) (Some desc_start)
      else slice response_text (Some (titles_start + 7)) None in
    let desc_section :=
      if negb (desc_start =? -1) && negb (bullets_start =? -1)
      then slice response_text (Some (desc_start + 13)) (Some bullets_start)
      else if negb (desc_start =? -1)
      then slice response_text (Some (desc_start + 13)) None
      else [] in
    let bullets_section :=
      if negb (bullets_start =? -1)
      then slice response_text (Some (bullets_start + 8)) None
      else [] in
    for_each (range 1 (title_count + 1))
      (fun i => parse_item (title_pattern i) titles_section 10 Titles) ;;
    for_each (range 1 (desc_count + 1))
      (fun i => parse_item (desc_pattern i) desc_section 20 Descriptions) ;;
    for_each (range 1 (bullet_count + 1))
      (fun i => parse_item (bullet_pattern i) bullets_section 10 Bullets) ;;
    get_lists.

(** The two exits of [parse_gemini_response]: the [return] that ends the
    [try] block hands back its value; the handler
    [[
      except Exception as e:
          print(...)
          return titles, descriptions, bullets
    ]]
    hands back the three lists as the failing statement left them. *)
Definition parse_outcome (outcome : exc lists * lists) : lists :=
  match outcome with
  | (Ok result, _) => result
  | (Raise _, st) => st
  end.

(** [parse_gemini_response]: the lists start empty. *)
Definition parse_gemini_response (response_text : str)
           (title_count desc_count bullet_count : Z) : lists :=
  parse_outcome (parse_body response_text title_count desc_count bullet_count no_lists).

(** ** [generate_via_gemini] and [generate_content] *)

Record GenerateRequest : Type := {
  title_prompt : str;
  desc_prompt : str;
  bullet_prompt : str;
  title_data : str;
  desc_data : str;
  bullet_data : str;
  title_count : Z;
  desc_count : Z;
  bullet_count : Z;
  title_length : Z;
  desc_length : Z;
  bullet_length : Z
}.

(** What the browser did during one request. *)
Inductive external : Type :=
| Escapes (e : str)
    (* a statement outside the inner [try] raised: both launch attempts,
       [new_page] or [close] *)
| StepFails (e : str)
    (* a statement of the inner [try], up to [extract_gemini_response], raised *)
| Replies (response_text : str).
    (* [extract_gemini_response] returned [response_text] *)

(** The dictionary returned by [generate_via_gemini]. *)
Record GenerationResult : Type := {
  success : bool;
  titles : list str;
  descriptions : list str;
  bullets : list str
}.

(** [while cond: body], with a bound on the number of iterations. *)
Fixpoint while (fuel : nat) (cond : lists -> bool) (body : M unit) : M unit :=
  match fuel with
  | O => ret tt
  | S fuel' =>
      st <- get_lists ;;
      if cond st then body ;; while fuel' cond body else ret tt
  end.

(** [while len(items) < count: items.append(f"<prefix>{len(items) + 1}")] *)
Definition pad (k : kind) (prefix : str) (count : Z) : M unit :=
  while (Z.to_nat count)
    (fun st => len (get_list k st) <? count)
    (st <- get_lists ;; append k (prefix ++ str_of_int (len (get_list k st) + 1))).

(** The statements of the inner [try] block of [generate_via_gemini]. *)
Definition generation_steps (ext : external) (request : GenerateRequest) : M unit :=
  response_text <-
    match ext with
    | Replies text => ret text
    | StepFails e => raise e
    | Escapes e => raise e   (* not reached: [generate_via_gemini] has raised *)
    end ;;
  (match response_text with
   | [] => raise §"Empty response from Gemini"
   | _ => ret tt
   end) ;;
  set_lists (parse_gemini_response response_text
               (title_count request) (desc_count request) (bullet_count request)) ;;
  pad Titles §"Generated Title " (title_count request) ;;
  pad Descriptions §"Generated Description " (desc_count request) ;;
  pad Bullets §"Generated Bullet Point " (bullet_count request).

(** [generate_via_gemini]: the [except Exception] handler only prints, so
    the dictionary is built from the lists as the [try] block left them. *)
Definition generate_via_gemini (ext : external) (request : GenerateRequest)
  : exc GenerationResult :=
  match ext with
  | Escapes e => Raise e
  | _ =>
      let '(t, d, b) := snd (generation_steps ext request no_lists) in
      Ok {| success := (0 <? len t) || (0 <? len d) || (0 <? len b);
            titles := slice t None (Some (title_count request));
            descriptions := slice d None (Some (desc_count request));
            bullets := slice b None (Some (bullet_count request)) |}
  end.

(** The JSON body and status code of a [JSONResponse]. *)
Record Response : Type := {
  status_code : Z;
  body_success : bool;
  body_error : option str;
  body_titles : list str;
  body_descriptions : list str;
  body_bullets : list str
}.

Definition JSONResponse (result : GenerationResult) (status : Z) : Response :=
  {| status_code := status;
     body_success := success result;
     body_error := None;
     body_titles := titles result;
     body_descriptions := descriptions result;
     body_bullets := bullets result |}.

(** [POST /generate] *)
Definition generate_content (ext : external) (request : GenerateRequest) : Response :=
  match generate_via_gemini ext request with
  | Ok result =>
      if success result then JSONResponse result 200
      else JSONResponse result 500
  | Raise e =>
      {| status_code := 500;
         body_success := false;
         body_error := Some e;
         body_titles := [];
         body_descriptions := [];
         body_bullets := [] |}
  end.


(** ** Derived, loop-free descriptions used by the statements below *)

Definition nl : str := [newline].

(** [' '.join(g.strip().split())] *)
Definition normalize (g : str) : str := join §" " (split (strip g)).

(** What one loop iteration appends, if anything. *)
Definition item_found (pattern : regex) (section : str) (minimum : Z) : option str :=
  match re_search pattern section with
  | Some m =>
      match group1 m with
      | Some g => if minimum <? len (normalize g) then Some (normalize g) else None
      | None => None
      end
  | None => None
  end.

Definition found_list (o : option str) : list str :=
  match o with Some c => [c] | None => [] end.

(** What a whole [for i in range(1, count + 1)] loop appends. *)
Definition section_items (pattern : Z -> regex) (section : str) (minimum count : Z)
  : list str :=
  flat_map (fun i => found_list (item_found (pattern i) section minimum))
           (range 1 (count + 1)).

(** The three slices of [parse_gemini_response], as functions of the text. *)
Definition titles_section (text : str) : str :=
  let titles_start := find (upper text) §"TITLES:" in
  let desc_start := find (upper text) §"DESCRIPTIONS:" in
  if negb (desc_start =? -1)
  then slice text (Some (titles_start + 7)) (Some desc_start)
  else slice text (Some (titles_start + 7)) None.

Definition desc_section (text : str) : str :=
  let desc_start := find (upper text) §"DESCRIPTIONS:" in
  let bullets_start := find (upper text) §"BULLETS:" in
  if negb (desc_start =? -1) && negb (bullets_start =? -1)
  then slice text (Some (desc_start + 13)) (Some bullets_start)
  else if negb (desc_start =? -1)
  then slice text (Some (desc_start + 13)) None
  else [].

Definition bullets_section (text : str) : str :=
  let bullets_start := find (upper text) §"BULLETS:" in
  if negb (bullets_start =? -1)
  then slice text (Some (bullets_start + 8)) None
  else [].

(** The placeholders [f"<prefix>{n}"] for [n = from + 1 .. count]. *)
Definition placeholders (prefix : str) (from count : Z) : list str :=
  map (fun n => prefix ++ str_of_int n) (range (from + 1) (count + 1)).

(** The patterns of the three loops all have the shape of [item_re]. *)
Definition is_item_pattern (pattern : Z -> regex) : Prop :=
  forall i, exists label stop, pattern i = item_re label stop.

(** The lists returned by the parser, without the loops (see
    [parse_gemini_response_eq]). *)
Definition parsed (text : str) (tc dc bc : Z) : lists :=
  if find (upper text) §"TITLES:" =? -1 then no_lists
  else (section_items title_pattern (titles_section text) 10 tc,
        section_items desc_pattern (desc_section text) 20 dc,
        section_items bullet_pattern (bullets_section text) 10 bc).

(** A request with the given counts and the default lengths. *)
Definition mk_request (tc dc bc : Z) : GenerateRequest :=
  {| title_prompt := []; desc_prompt := []; bullet_prompt := [];
     title_data := []; desc_data := []; bullet_data := [];
     title_count := tc; desc_count := dc; bullet_count := bc;
     title_length := 100; desc_length := 300; bullet_length := 80 |}.

(** The lists after the [try] block, when the reply is not empty. *)
Definition padded (text : str) (request : GenerateRequest) : lists :=
  let '(t, d, b) := parse_gemini_response text (title_count request)
                      (desc_count request) (bullet_count request) in
  (t ++ placeholders §"Generated Title " (len t) (title_count request),
   d ++ placeholders §"Generated Description " (len d) (desc_count request),
   b ++ placeholders §"Generated Bullet Point " (len b) (bullet_count request)).

(** The dictionary returned when the [try] block raised. *)
Definition failure_result : GenerationResult :=
  {| success := false; titles := []; descriptions := []; bullets := [] |}.

(** Sample replies. *)

Definition scenario_A : str :=
  §"TITLES:" ++ nl ++ §"Title 1: Great Wireless Mouse for Everyday Use" ++ nl
  ++ §"DESCRIPTIONS:" ++ nl
  ++ §"Description 1: This ergonomic mouse offers long battery life and precision tracking."
  ++ nl ++ §"BULLETS:" ++ nl ++ §"Bullet 1: Long battery life".

Definition reply_without_markers : str := §"Sorry, I cannot help with that.".

Definition reply_without_titles : str :=
  §"DESCRIPTIONS:" ++ nl
  ++ §"Description 1: This ergonomic mouse offers long battery life." ++ nl
  ++ §"BULLETS:" ++ nl ++ §"Bullet 1: Long battery life".

Definition reply_without_descriptions : str :=
  §"TITLES:" ++ nl ++ §"Title 1: Great Wireless Mouse" ++ nl
  ++ §"BULLETS:" ++ nl ++ §"Bullet 1: Long battery life".

Definition reply_without_bullets : str :=
  §"TITLES:" ++ nl ++ §"Title 1: Great Wireless Mouse" ++ nl
  ++ §"DESCRIPTIONS:" ++ nl
  ++ §"Description 1: This ergonomic mouse offers long battery life.".


(** ** Replies that follow the output grammar of the prompt

    [build_generation_prompt] asks for
    [[
      TITLES:
      Title 1: <text>
      ...
      DESCRIPTIONS:
      Description 1: <text>
      ...
      BULLETS:
      Bullet 1: <text>
      ...
    ]]
    A reply is described by what follows each marker on its line ([gap]) and,
    for each item, by its field: everything between the colon of its label
    and the next label or marker, that is the blank after the colon, the text
    and the line break(s). *)

Definition is_alpha (c : ascii) : bool :=
  ((65 <=? code c) && (code c <=? 90)) || ((97 <=? code c) && (code c <=? 122)).

Definition is_digit (c : ascii) : bool := (48 <=? code c) && (code c <=? 57).

Definition is_colon (c : ascii) : bool := Ascii.eqb c ":".

Definition colon_free (s : str) : Prop := Forall (fun c => is_colon c = false) s.

(** The items [<name> i:<field>], numbered from [i]. *)
Fixpoint render_items (name : str) (i : Z) (fields : list str) : str :=
  match fields with
  | [] => []
  | y :: rest =>
      name ++ §" " ++ str_of_int i ++ §":" ++ y ++ render_items name (i + 1) rest
  end.

Definition grammar_reply (gap_t : str) (ts : list str) (gap_d : str) (ds : list str)
           (gap_b : str) (bs : list str) : str :=
  §"TITLES:" ++ gap_t ++ render_items §"Title" 1 ts
  ++ §"DESCRIPTIONS:" ++ gap_d ++ render_items §"Description" 1 ds
  ++ §"BULLETS:" ++ gap_b ++ render_items §"Bullet" 1 bs.

(** The part of a text before its first colon. *)
Fixpoint before_colon (s : str) : option str :=
  match s with
  | [] => None
  | c :: s' => if is_colon c then Some [] else option_map (cons c) (before_colon s')
  end.

(** [w] without a head that reads as [name], letter case apart. *)
Fixpoint strip_ci (name w : str) : option str :=
  match name, w with
  | [], _ => Some w
  | _ :: _, [] => None
  | a :: name', c :: w' => if ci_eq a c then strip_ci name' w' else None
  end.

Fixpoint drop_while (p : ascii -> bool) (s : str) : str :=
  match s with
  | [] => []
  | c :: s' => if p c then drop_while p s' else s
  end.

(** [w] reads as the head of a label of the section: [name], blanks, one
    digit or more, blanks. *)
Definition label_like (name w : str) : bool :=
  match strip_ci name w with
  | Some r =>
      let r1 := drop_while is_space r in
      let r2 := drop_while is_digit r1 in
      negb (length r2 =? length r1)%nat && forallb is_space r2
  | None => false
  end.

(** [w] reads as the word [m], letter case apart. *)
Definition ci_eqb (m w : str) : bool :=
  match strip_ci m w with
  | Some [] => true
  | _ => false
  end.

(** The text before a colon makes it the colon of a label of the section
    or of one of the markers. *)
Definition stops (name : str) (markers : list str) (w : str) : bool :=
  label_like name w || existsb (fun m => ci_eqb m w) markers.

(** No colon of [y] is the colon of a label or of a marker: at no position
    of [y] does the text up to the next colon read as one.  Any other colon
    is allowed. *)
Fixpoint harmless (name : str) (markers : list str) (y : str) : bool :=
  match y with
  | [] => true
  | _ :: y' =>
      match before_colon y with
      | Some w => negb (stops name markers w)
      | None => true
      end && harmless name markers y'
  end.

(** A field is usable when no colon in it ends a label of its section or a
    marker that the parser still looks for, and its normalised text is
    longer than the minimum of its section. *)
Definition field_ok (name : str) (markers : list str) (minimum : Z) (y : str) : Prop :=
  harmless name markers y = true /\ minimum < len (normalize y).

(** The markers that must not occur in the fields of each section:
    [TITLES:] is searched first and found at the start; [DESCRIPTIONS:] is
    searched in the whole text and is the stop of the titles; [BULLETS:] is
    searched in the whole text and is the stop of the descriptions. *)
Definition title_markers : list str := [§"DESCRIPTIONS"; §"BULLETS"].
Definition desc_markers : list str := [§"BULLETS"].
Definition bullet_markers : list str := [].

(** The field of an item written on its own line: [" <text>\n"]. *)
Definition line_field (text : str) : str := §" " ++ text ++ nl.

(** Every non-empty tail of [pre], followed by [rest], satisfies [P]. *)
Definition all_positions (P : str -> Prop) (pre rest : str) : Prop :=
  forall a b, pre = a ++ b -> b <> [] -> P (b ++ rest).

(** Letters of a pattern matched against letters of the text, ignoring case. *)
Definition ci_match (l l' : str) : Prop := Forall2 (fun a c => ci_eq a c = true) l l'.

Definition blank (w : str) : Prop := Forall (fun c => is_space c = true) w.

(** The lookahead of the item pattern of a section: the next label, the
    marker of the next section when there is one, or the end. *)
Definition stop_re (name : str) (marker : option str) (i : Z) : regex :=
  Alt (label_re name (i + 1))
      match marker with
      | Some m => Alt (lit m) Eos
      | None => Eos
      end.

Definition section_pattern (name : str) (marker : option str) (i : Z) : regex :=
  item_re (label_re name i) (stop_re name marker i).

(** The text does not start with a blank. *)
Definition starts_solid (r : str) : Prop :=
  match r with
  | [] => True
  | c :: _ => is_space c = false
  end.

(** The lookahead [(?=stop)] holds, or fails, at a position. *)
Definition looks (stop : regex) (s : str) : Prop :=
  forall g, exec stop s g (fun _ _ => Some tt) = Some tt.

Definition looks_not (stop : regex) (s : str) : Prop :=
  forall g, exec stop s g (fun _ _ => Some tt) = None.

(** The head of a label, [<name> i], and what a text must look like, up to
    its first colon, for the label pattern [<name>\s*{i}\s*:] to match it. *)
Definition label_head (name : str) (i : Z) : str := name ++ §" " ++ str_of_int i.

Definition label_shaped (name : str) (i : Z) (w : str) : Prop :=
  exists n' w1 w2,
    w = n' ++ w1 ++ str_of_int i ++ w2 /\ ci_match name n' /\ blank w1 /\ blank w2.

(** A property of the text before the first colon, when there is a colon. *)
Definition pos_ok (Bad : str -> Prop) (s : str) : Prop :=
  match before_colon s with
  | None => True
  | Some w => Bad w
  end.

(** A marker of the lookahead is some letters followed by a colon. *)
Definition marker_ok (marker : option str) : Prop :=
  match marker with
  | None => True
  | Some m =>
      exists body, m = body ++ §":" /\ Forall (fun c => is_alpha c = true) body
  end.

(** The text before a colon reads as the marker of the lookahead. *)
Definition marker_shaped (marker : option str) (w : str) : Prop :=
  match marker with
  | None => False
  | Some m => exists body, m = body ++ §":" /\ ci_match body w
  end.

(** The text before the first colon is neither the head of label [i + 1]
    nor the marker. *)
Definition not_a_stop (name : str) (marker : option str) (i : Z) (w : str) : Prop :=
  ~ label_shaped name (i + 1) w /\ ~ marker_shaped marker w.

(** Every text that stands in [y] between a position and the next colon
    satisfies [Good]. *)
Definition inner_ok (Good : str -> Prop) (y : str) : Prop :=
  forall a b w, y = a ++ b -> before_colon b = Some w -> Good w.

(** A reply in the layout of the prompt, one item per line, with colons, a
    tab, a no-break space and an empty line in the texts. *)
Definition tab : ascii := ascii_of_nat 9.
Definition nbsp : ascii := ascii_of_nat 160.

Definition colon_titles : list str :=
  [line_field §"Great Wireless Mouse: the everyday choice";
   §"  Quiet" ++ [tab] ++ §"Ergonomic " ++ [nbsp] ++ §"Mouse, 16:9 ready" ++ nl ++ nl].

Definition colon_descriptions : list str :=
  [line_field §"Note: this ergonomic mouse offers long battery life."].

Definition colon_bullets : list str :=
  [line_field §"Battery: up to 12 months"; line_field §"Works on any desk surface"].

(** The same layout, with a title that mentions descriptions. *)
Definition reply_marker_in_text : str :=
  grammar_reply
    nl [line_field §"Compact descriptions: a style guide"]
    nl [line_field §"This ergonomic mouse offers long battery life."]
    nl [line_field §"Long battery life"].

(** The same layout, with a title that mentions the next label. *)
Definition reply_label_in_text : str :=
  grammar_reply
    nl [line_field §"See Title 2: for details"; line_field §"Another great mouse"]
    nl [line_field §"This ergonomic mouse offers long battery life."]
    nl [line_field §"Long battery life"].

(** The same layout, with a sharp s in the title. *)
Definition reply_sharp_s : str :=
  grammar_reply
    nl [line_field (§"Gro" ++ [sharp_s] ++ §"e Maus kabellos")]
    nl [line_field §"This ergonomic mouse offers long battery life."]
    nl [line_field §"Long battery life"].

(** Scenario B of the specification: one title only. *)
Definition scenario_B : str :=
  §"TITLES:" ++ nl ++ §"Title 1: A short title text here" ++ nl.

(** [a\s*(.+?)(?=$)], to compare the matcher with [re] on small texts. *)
Definition trailing_pattern : regex := item_re (lit §"a") Eos.

(** ** Shape of a parsed item *)

(** A word: one or more characters, none of them blank. *)
Definition word (w : str) : Prop :=
  w <> [] /\ Forall (fun ch => is_space ch = false) w.

(** One or more words separated by single spaces. *)
Definition spaced_words (c : str) : Prop :=
  exists ws, ws <> [] /\ Forall word ws /\ c = join §" " ws.

(** The text is empty or starts with a blank. *)
Definition starts_blank (s : str) : Prop :=
  match s with
  | [] => True
  | c :: _ => is_space c = true
  end.

(** [ws] are the words of [g], in order: the maximal runs of characters
    that are not blank. *)
Inductive words_of : str -> list str -> Prop :=
| words_none (b : str) : blank b -> words_of b []
| words_next (b w s : str) (ws : list str) :
    blank b -> word w -> starts_blank s -> words_of s ws ->
    words_of (b ++ w ++ s) (w :: ws).


(** ** [clean_response_text] *)

(** [s.replace(old, new)] for a non-empty [old]: occurrences are taken from
    the left and do not overlap.  [skip] counts the characters of the
    occurrence just replaced that are still to be dropped. *)
Fixpoint replace_from (old new : str) (skip : nat) (s : str) : str :=
  match s with
  | [] => []
  | c :: t =>
      match skip with
      | S k => replace_from old new k t
      | O =>
          if starts_with old s
          then new ++ replace_from old new (length old - 1)%nat t
          else c :: replace_from old new 0 t
      end
  end.

Definition replace (s old new : str) : str := replace_from old new 0 s.

(** The number of characters a pattern matches at the head of [s]. *)
Definition match_end (r : regex) (s : str) : option nat :=
  exec r s None (fun s' _ => Some (length s - length s')%nat).

(** [re.sub(pattern, repl, s)] with a plain replacement text: matches are
    taken from the left and do not overlap; an empty match inserts [repl]
    and the scan moves one character on. *)
Fixpoint sub_from (r : regex) (repl : str) (skip : nat) (s : str) : str :=
  match s with
  | [] =>
      match skip, match_end r [] with
      | O, Some _ => repl
      | _, _ => []
      end
  | c :: t =>
      match skip with
      | S k => sub_from r repl k t
      | O =>
          match match_end r s with
          | Some (S n) => repl ++ sub_from r repl n t
          | Some O => repl ++ c :: sub_from r repl 0 t
          | None => c :: sub_from r repl 0 t
          end
      end
  end.

Definition re_sub (r : regex) (repl s : str) : str := sub_from r repl 0 s.

(** [c{n,}]: [n] times the character [c], then as many as there are. *)
Fixpoint at_least (n : nat) (c : ascii) : regex :=
  match n with
  | O => Star (Chr (Ascii.eqb c))
  | S n' => Cat (Chr (Ascii.eqb c)) (at_least n' c)
  end.

Definition space : ascii := " "%char.

(** [r'\n{3,}'] and [r' {2,}'] *)
Definition newline_run : regex := at_least 3 newline.
Definition space_run : regex := at_least 2 space.

Definition cleanup_phrases : list str :=
  [§"Gemini can make mistakes";
   §"double-check";
   §"Show drafts";
   §"Copy code";
   §"Use code with caution";
   §"You stopped this response"].

(** [sub in s] *)
Definition contains (s sub : str) : bool := negb (find s sub =? -1).

(** The text of [clean_response_text] before [TITLES:] is looked for. *)
Definition scrubbed (text : str) : str :=
  let text := strip text in
  let text := fold_left (fun text phrase => replace text phrase []) cleanup_phrases text in
  let text := re_sub newline_run (nl ++ nl) text in
  re_sub space_run [space] text.

Definition clean_response_text (text : str) : str :=
  let text := strip text in
  let text := fold_left (fun text phrase => replace text phrase []) cleanup_phrases text in
  let text := re_sub newline_run (nl ++ nl) text in
  let text := re_sub space_run [space] text in
  let text :=
    if contains text §"TITLES:"
    then let titles_idx := find text §"TITLES:" in slice text (Some titles_idx) None
    else text in
  strip text.

(** ** The end of [extract_gemini_response]

    What the page offers once the waiting loops are over: the text of the
    reply element found by the first loop (if one was found), the text of the
    last reply element (if there is any), and the text of the whole page; or
    an exception raised by one of the browser calls. *)
Inductive page : Type :=
| PageError
| Page (response_elem : option str) (last_response : option str) (body : str).

(** [text and len(text) > 50] *)
Definition long_enough (text : str) : bool :=
  match text with
  | [] => false
  | _ => 50 <? len text
  end.

(** The JavaScript of the last resort: the page text from its first
    [TITLES:], or the whole page text. *)
Definition page_text (body : str) : str :=
  let titlesIndex := find body §"TITLES:" in
  if negb (titlesIndex =? -1) then slice body (Some titlesIndex) None else body.

(** [if text and len(text) > 50: return clean_response_text(text)] *)
Definition accepted (candidate : option str) : option str :=
  match candidate with
  | Some text => if long_enough text then Some (clean_response_text text) else None
  | None => None
  end.

(** The last resort and the final [return ""]. *)
Definition from_page (body : str) : str :=
  let pt := page_text body in
  match pt with
  | [] => []
  | _ =>
      if contains pt §"TITLES:" || contains pt §"Title 1:"
      then clean_response_text pt else []
  end.

(** Lines 349-382 of [extract_gemini_response]: the first candidate that is
    accepted is returned; [except Exception] returns the empty text. *)
Definition extract_gemini_response (p : page) : str :=
  match p with
  | PageError => []
  | Page response_elem last_response body =>
      match accepted response_elem with
      | Some cleaned => cleaned
      | None =>
          match accepted last_response with
          | Some cleaned => cleaned
          | None => from_page body
          end
      end
  end.

Definition noisy_reply : str :=
  nl ++ §"  TITLES:" ++ nl ++ nl ++ nl ++ nl
  ++ §"Title 1:  Great   Wireless Mouse for Everyday Use" ++ nl
  ++ §"Gemini can make mistakes, so double-check it" ++ nl ++ §"  ".

(** ** Runs of one character, and subsequences *)

(** The number of characters equal to [c] at the head of [s]. *)
Fixpoint run_len (c : ascii) (s : str) : nat :=
  match s with
  | [] => O
  | x :: t => if Ascii.eqb c x then S (run_len c t) else O
  end.

(** The text does not go on with the character [c]. *)
Definition run_rest_ok (c : ascii) (r : str) : Prop :=
  match r with
  | [] => True
  | y :: _ => Ascii.eqb c y = false
  end.

(** No [n] consecutive characters equal to [c]; [cur] counts the ones just
    read. *)
Fixpoint runs_ok (c : ascii) (n cur : nat) (s : str) : bool :=
  match s with
  | [] => true
  | x :: t =>
      if Ascii.eqb c x
      then (S cur <? n)%nat && runs_ok c n (S cur) t
      else runs_ok c n 0 t
  end.

(** [a] is [b] with some characters left out. *)
Inductive subseq : str -> str -> Prop :=
| subseq_nil : subseq [] []
| subseq_keep (c : ascii) (a b : str) : subseq a b -> subseq (c :: a) (c :: b)
| subseq_drop (c : ascii) (a b : str) : subseq a b -> subseq a (c :: b).

(** ** The matcher: basic facts *)

Lemma exec_Star (R : Type) r s g (k : str -> option str -> option R) :
  exec (Star r) s g k = star_loop (exec r) k (length s) s g.
Proof. reflexivity. Qed.

Lemma exec_PlusLazy (R : Type) r s g (k : str -> option str -> option R) :
  exec (PlusLazy r) s g k =
  exec r s g (fun s0 g0 => lazy_loop (exec r) k (length s0) s0 g0).
Proof. reflexivity. Qed.

Lemma exec_Chr (R : Type) p s g (k : str -> option str -> option R) :
  exec (Chr p) s g k =
  match s with
  | c :: s' => if p c then k s' g else None
  | [] => None
  end.
Proof. reflexivity. Qed.

Lemma exec_Cat (R : Type) r1 r2 s g (k : str -> option str -> option R) :
  exec (Cat r1 r2) s g k = exec r1 s g (fun s1 g1 => exec r2 s1 g1 k).
Proof. reflexivity. Qed.

Lemma exec_Alt (R : Type) r1 r2 s g (k : str -> option str -> option R) :
  exec (Alt r1 r2) s g k = or_else (exec r1 s g k) (exec r2 s g k).
Proof. reflexivity. Qed.

Lemma exec_Group (R : Type) r s g (k : str -> option str -> option R) :
  exec (Group r) s g k =
  exec r s g (fun s1 _ => k s1 (Some (firstn (length s - length s1) s))).
Proof. reflexivity. Qed.

Lemma exec_Ahead (R : Type) r s g (k : str -> option str -> option R) :
  exec (Ahead r) s g k =
  match exec r s g (fun _ _ => Some tt) with
  | Some _ => k s g
  | None => None
  end.
Proof. reflexivity. Qed.

Lemma or_else_Some (A : Type) (a b : option A) x :
  or_else a b = Some x -> a = Some x \/ (a = None /\ b = Some x).
Proof. destruct a; simpl; intros H; [left | right]; auto. Qed.

(** A successful match went through its continuation, on a suffix of the
    text no longer than the text. *)
Lemma exec_sound r :
  forall (R : Type) s g (k : str -> option str -> option R) x,
    exec r s g k = Some x ->
    exists s' g', k s' g' = Some x /\ (length s' <= length s)%nat.
Proof.
  induction r as [p| |r1 IH1 r2 IH2|r1 IH1 r2 IH2|r1 IH1|r1 IH1|r1 IH1|r1 IH1|];
    intros R s g k x H.
  - simpl in H. destruct s as [|c s']; [discriminate|].
    destruct (p c); [|discriminate].
    exists s', g. split; [exact H | simpl; lia].
  - simpl in H. exists s, g. split; [exact H | lia].
  - rewrite exec_Cat in H. apply IH1 in H. destruct H as (s1 & g1 & H & L1).
    apply IH2 in H. destruct H as (s2 & g2 & H & L2).
    exists s2, g2. split; [exact H | lia].
  - rewrite exec_Alt in H. apply or_else_Some in H.
    destruct H as [H | [_ H]]; [apply IH1 in H | apply IH2 in H]; exact H.
  - simpl in H. remember (length s) as fuel eqn:Ef in H. clear Ef.
    revert s g H. induction fuel as [|fuel IHf]; intros s g H; simpl in H.
    + exists s, g. split; [exact H | lia].
    + apply or_else_Some in H.
      destruct H as [H | [_ H]]; [|exists s, g; split; [exact H | lia]].
      apply IH1 in H. destruct H as (s1 & g1 & H & L1).
      destruct (length s1 <? length s)%nat; [|discriminate].
      apply IHf in H. destruct H as (s2 & g2 & H & L2).
      exists s2, g2. split; [exact H | lia].
  - simpl in H. apply IH1 in H. destruct H as (s0 & g0 & H & L0).
    assert (G : exists s' g', k s' g' = Some x /\ (length s' <= length s0)%nat).
    { clear L0. remember (length s0) as fuel eqn:Ef in H. clear Ef.
      revert s0 g0 H. induction fuel as [|fuel IHf]; intros s0 g0 H; simpl in H.
      - apply or_else_Some in H. destruct H as [H | [_ H]]; [|discriminate].
        exists s0, g0. split; [exact H | lia].
      - apply or_else_Some in H.
        destruct H as [H | [_ H]]; [exists s0, g0; split; [exact H | lia]|].
        apply IH1 in H. destruct H as (s1 & g1 & H & L1).
        destruct (length s1 <? length s0)%nat; [|discriminate].
        apply IHf in H. destruct H as (s2 & g2 & H & L2).
        exists s2, g2. split; [exact H | lia]. }
    destruct G as (s2 & g2 & H2 & L2). exists s2, g2. split; [exact H2 | lia].
  - rewrite exec_Group in H. apply IH1 in H. destruct H as (s1 & g1 & H & L1).
    exists s1, (Some (firstn (length s - length s1) s)). split; [exact H | lia].
  - rewrite exec_Ahead in H.
    destruct (exec r1 s g (fun _ _ => Some tt)); [|discriminate].
    exists s, g. split; [exact H | lia].
  - simpl in H. destruct (at_eos s); [|discriminate].
    exists s, g. split; [exact H | lia].
Qed.

(** In a match of [<label>\s*(.+?)(?=<stop>)] group 1 always took part. *)
Lemma item_re_group label stop s m :
  match_here (item_re label stop) s = Some m -> exists g, group1 m = Some g.
Proof.
  unfold match_here, item_re. intros H.
  rewrite exec_Cat in H. apply exec_sound in H. destruct H as (s1 & g1 & H & _).
  rewrite exec_Cat in H. apply exec_sound in H. destruct H as (s2 & g2 & H & _).
  rewrite exec_Cat, exec_Group in H. apply exec_sound in H.
  destruct H as (s3 & g3 & H & _). rewrite exec_Ahead in H.
  destruct (exec stop s3 _ _); [|discriminate].
  inversion H. simpl. eauto.
Qed.

Lemma re_search_group label stop s m :
  re_search (item_re label stop) s = Some m -> exists g, group1 m = Some g.
Proof.
  induction s as [|c s IH]; simpl; intros H.
  - destruct (match_here (item_re label stop) []) eqn:E; [|discriminate].
    inversion H; subst. eapply item_re_group; eauto.
  - destruct (match_here (item_re label stop) (c :: s)) eqn:E.
    + inversion H; subst. eapply item_re_group; eauto.
    + auto.
Qed.

(** Nothing matches in an empty section: [.+?] needs a character. *)
Lemma re_search_nil label stop : re_search (item_re label stop) [] = None.
Proof.
  simpl. destruct (match_here (item_re label stop) []) as [m|] eqn:E; [|reflexivity].
  exfalso. unfold match_here, item_re in E.
  rewrite exec_Cat in E. apply exec_sound in E. destruct E as (s1 & g1 & E & L1).
  rewrite exec_Cat in E. apply exec_sound in E. destruct E as (s2 & g2 & E & L2).
  destruct s2 as [|c s2]; [|simpl in *; lia].
  rewrite exec_Cat, exec_Group in E. simpl in E. discriminate.
Qed.

(** ** [parse_gemini_response] as a function *)

Lemma set_get_list k st : set_list k (get_list k st) st = st.
Proof. destruct st as [[t d] b], k; reflexivity. Qed.

Lemma get_set_list k l st : get_list k (set_list k l st) = l.
Proof. destruct st as [[t d] b], k; reflexivity. Qed.

Lemma set_set_list k l l' st : set_list k l (set_list k l' st) = set_list k l st.
Proof. destruct st as [[t d] b], k; reflexivity. Qed.

Lemma get_set_other k k' l st : k <> k' -> get_list k (set_list k' l st) = get_list k st.
Proof. destruct st as [[t d] b], k, k'; intros H; try reflexivity; congruence. Qed.

(** One iteration never raises, and appends [item_found]. *)
Lemma parse_item_run label stop section minimum k st :
  parse_item (item_re label stop) section minimum k st =
  (Ok tt,
   set_list k (get_list k st ++
               found_list (item_found (item_re label stop) section minimum)) st).
Proof.
  unfold parse_item, item_found.
  destruct (re_search (item_re label stop) section) as [m|] eqn:E.
  - destruct (re_search_group _ _ _ _ E) as [g Hg].
    unfold group_strip, bind. rewrite Hg. unfold ret, normalize.
    destruct (minimum <? len (join §" " (split (strip g)))).
    + reflexivity.
    + simpl. rewrite app_nil_r, set_get_list. reflexivity.
  - simpl. rewrite app_nil_r, set_get_list. reflexivity.
Qed.

Lemma title_pattern_item : is_item_pattern title_pattern.
Proof. intros i. unfold title_pattern. eauto. Qed.

Lemma desc_pattern_item : is_item_pattern desc_pattern.
Proof. intros i. unfold desc_pattern. eauto. Qed.

Lemma bullet_pattern_item : is_item_pattern bullet_pattern.
Proof. intros i. unfold bullet_pattern. eauto. Qed.

Lemma for_each_parse_item pattern section minimum k :
  is_item_pattern pattern ->
  forall xs st,
    for_each xs (fun i => parse_item (pattern i) section minimum k) st =
    (Ok tt,
     set_list k (get_list k st ++
                 flat_map (fun i => found_list (item_found (pattern i) section minimum)) xs)
              st).
Proof.
  intros Hp xs. induction xs as [|i xs IH]; intros st.
  - simpl. rewrite app_nil_r, set_get_list. reflexivity.
  - cbn [for_each]. unfold bind at 1.
    destruct (Hp i) as (label & stop & Hi). rewrite Hi, parse_item_run, <- Hi.
    rewrite IH, get_set_list, set_set_list, <- app_assoc. reflexivity.
Qed.

Lemma parse_body_run text tc dc bc :
  parse_body text tc dc bc no_lists = (Ok (parsed text tc dc bc), parsed text tc dc bc).
Proof.
  unfold parse_body, parsed.
  destruct (find (upper text) §"TITLES:" =? -1) eqn:Ets; [reflexivity|].
  fold (titles_section text). fold (desc_section text). fold (bullets_section text).
  unfold bind.
  rewrite (for_each_parse_item _ _ _ _ title_pattern_item).
  rewrite (for_each_parse_item _ _ _ _ desc_pattern_item).
  rewrite (for_each_parse_item _ _ _ _ bullet_pattern_item).
  reflexivity.
Qed.

Lemma parse_gemini_response_eq text tc dc bc :
  parse_gemini_response text tc dc bc = parsed text tc dc bc.
Proof. unfold parse_gemini_response. rewrite parse_body_run. reflexivity. Qed.

(** Without the titles marker the parser returns at once. *)
Lemma parse_without_titles text tc dc bc :
  find (upper text) §"TITLES:" = -1 ->
  parse_gemini_response text tc dc bc = no_lists.
Proof.
  intros H. rewrite parse_gemini_response_eq. unfold parsed. rewrite H. reflexivity.
Qed.

(** ** Ranges, slices and the padding loops *)

Lemma len_nonneg (A : Type) (l : list A) : 0 <= len l.
Proof. unfold len. lia. Qed.

Lemma len_app (A : Type) (l1 l2 : list A) : len (l1 ++ l2) = len l1 + len l2.
Proof. unfold len. rewrite length_app. lia. Qed.

Lemma len_nil_iff (A : Type) (l : list A) : len l = 0 <-> l = [].
Proof.
  unfold len. split; intros H; [|subst; reflexivity].
  destruct l; [reflexivity | simpl in H; lia].
Qed.

Lemma range_empty lo hi : hi <= lo -> range lo hi = [].
Proof.
  intros H. unfold range. replace (Z.to_nat (hi - lo)) with O by lia. reflexivity.
Qed.

Lemma range_cons lo hi : lo < hi -> range lo hi = lo :: range (lo + 1) hi.
Proof.
  intros H. unfold range.
  replace (Z.to_nat (hi - lo)) with (S (Z.to_nat (hi - (lo + 1)))) by lia.
  cbn [seq map]. f_equal; [lia|].
  rewrite <- seq_shift, map_map. apply map_ext. intros k. lia.
Qed.

Lemma range_length lo hi : len (range lo hi) = Z.max 0 (hi - lo).
Proof. unfold range, len. rewrite length_map, length_seq. lia. Qed.

Lemma placeholders_length prefix from count :
  len (placeholders prefix from count) = Z.max 0 (count - from).
Proof.
  unfold placeholders, len. rewrite length_map.
  fold (len (range (from + 1) (count + 1))). rewrite range_length. lia.
Qed.

(** [l[:count]] keeps everything when [l] has at most [count] items, and the
    first [count] items otherwise. *)
Lemma slice_prefix_all (A : Type) (l : list A) count :
  len l <= count -> slice l None (Some count) = l.
Proof.
  intros H. pose proof (len_nonneg A l) as Hl.
  unfold slice, clamp_index, len in *.
  destruct (count <? 0) eqn:E; [lia|].
  rewrite Z.min_r by lia. simpl. rewrite Z.sub_0_r, Nat2Z.id. apply firstn_all.
Qed.

Lemma slice_prefix_firstn (A : Type) (l : list A) count :
  0 <= count -> slice l None (Some count) = firstn (Z.to_nat count) l.
Proof.
  intros H. unfold slice, clamp_index, len.
  destruct (count <? 0) eqn:E; [lia|]. simpl. rewrite Z.sub_0_r.
  destruct (Z.le_gt_cases count (Z.of_nat (length l))) as [Hc|Hc].
  - rewrite Z.min_l by lia. reflexivity.
  - rewrite Z.min_r by lia. rewrite Nat2Z.id, firstn_all.
    symmetry. apply firstn_all2. lia.
Qed.

Lemma slice_nil (A : Type) lo hi : slice (@nil A) lo hi = [].
Proof. unfold slice. rewrite skipn_nil, firstn_nil. reflexivity. Qed.

Lemma slice_prefix_length (A : Type) (l : list A) count :
  0 <= count -> count <= len l -> len (slice l None (Some count)) = count.
Proof.
  intros H0 H1. rewrite slice_prefix_firstn by exact H0.
  unfold len in *. rewrite length_firstn. lia.
Qed.

(** Each padding loop runs until its condition is false: it appends exactly
    the missing placeholders. *)
Lemma while_pad k prefix count :
  forall fuel st,
    count - len (get_list k st) <= Z.of_nat fuel ->
    while fuel
      (fun st => len (get_list k st) <? count)
      (st <- get_lists ;; append k (prefix ++ str_of_int (len (get_list k st) + 1)))
      st =
    (Ok tt,
     set_list k (get_list k st ++ placeholders prefix (len (get_list k st)) count) st).
Proof.
  induction fuel as [|fuel IH]; intros st Hf.
  - simpl. unfold ret, placeholders. rewrite range_empty by lia.
    simpl. rewrite app_nil_r, set_get_list. reflexivity.
  - cbn [while]. unfold bind at 1. unfold get_lists at 1.
    destruct (len (get_list k st) <? count) eqn:E.
    + apply Z.ltb_lt in E. unfold bind at 1. unfold bind at 1.
      unfold get_lists at 1. unfold append at 1.
      rewrite IH.
      * rewrite get_set_list, set_set_list, len_app.
        unfold placeholders.
        rewrite (range_cons (len (get_list k st) + 1)) by lia.
        cbn [map]. rewrite <- app_assoc. reflexivity.
      * rewrite get_set_list, len_app. change (len [_]) with 1. lia.
    + apply Z.ltb_ge in E. unfold ret, placeholders.
      rewrite range_empty by lia. simpl. rewrite app_nil_r, set_get_list. reflexivity.
Qed.

Lemma pad_run k prefix count st :
  pad k prefix count st =
  (Ok tt,
   set_list k (get_list k st ++ placeholders prefix (len (get_list k st)) count) st).
Proof.
  unfold pad. apply while_pad.
  pose proof (len_nonneg _ (get_list k st)). lia.
Qed.

(** The bound on the iterations is never the reason a padding loop stops:
    when it ends, its condition is false. *)
Lemma pad_exits k prefix count st :
  (len (get_list k (snd (pad k prefix count st))) <? count) = false.
Proof.
  rewrite pad_run. cbn [snd]. rewrite get_set_list.
  apply Z.ltb_ge. rewrite len_app, placeholders_length. lia.
Qed.

(** After a padding loop the list has [max (len l) count] items. *)
Lemma padded_length prefix (l : list str) count :
  len (l ++ placeholders prefix (len l) count) = Z.max (len l) count.
Proof. rewrite len_app, placeholders_length. lia. Qed.

(** ** What the parser can return *)

Lemma found_list_length o : (length (found_list o) <= 1)%nat.
Proof. destruct o; simpl; lia. Qed.

Lemma flat_map_length_le (A B : Type) (f : A -> list B) xs :
  (forall x, (length (f x) <= 1)%nat) -> (length (flat_map f xs) <= length xs)%nat.
Proof.
  intros Hf. induction xs as [|x xs IH]; simpl; [lia|].
  rewrite length_app. specialize (Hf x). lia.
Qed.

Lemma section_items_length pattern section minimum count :
  len (section_items pattern section minimum count) <= Z.max 0 count.
Proof.
  unfold section_items.
  pose proof (flat_map_length_le _ _
                (fun i => found_list (item_found (pattern i) section minimum))
                (range 1 (count + 1))
                (fun i => found_list_length _)) as H.
  pose proof (range_length 1 (count + 1)) as Hr.
  unfold len in *. lia.
Qed.

Lemma section_items_nil pattern minimum count :
  is_item_pattern pattern -> section_items pattern [] minimum count = [].
Proof.
  intros Hp. unfold section_items.
  induction (range 1 (count + 1)) as [|i xs IH]; [reflexivity|].
  simpl. rewrite IH. destruct (Hp i) as (label & stop & Hi).
  unfold item_found. rewrite Hi, re_search_nil. reflexivity.
Qed.

Lemma parsed_lengths text tc dc bc :
  let '(t, d, b) := parsed text tc dc bc in
  len t <= Z.max 0 tc /\ len d <= Z.max 0 dc /\ len b <= Z.max 0 bc.
Proof.
  unfold parsed. destruct (find (upper text) §"TITLES:" =? -1).
  - simpl. unfold len. simpl. lia.
  - repeat split; apply section_items_length.
Qed.

(** ** The inner [try] block of [generate_via_gemini] *)

Lemma generation_steps_reply c text request :
  generation_steps (Replies (c :: text)) request no_lists =
  (Ok tt, padded (c :: text) request).
Proof.
  unfold generation_steps, padded.
  destruct (parse_gemini_response (c :: text) (title_count request)
              (desc_count request) (bullet_count request)) as [[t d] b] eqn:E.
  unfold bind, ret, set_lists. rewrite E.
  rewrite !pad_run. reflexivity.
Qed.

Lemma generation_steps_empty request :
  snd (generation_steps (Replies []) request no_lists) = no_lists.
Proof. reflexivity. Qed.

Lemma generation_steps_fails e request :
  snd (generation_steps (StepFails e) request no_lists) = no_lists.
Proof. reflexivity. Qed.

(** ** Character classes *)

Lemma code_inj a b : code a = code b -> a = b.
Proof.
  unfold code. intros H. apply Nat2Z.inj in H.
  rewrite <- (ascii_nat_embedding a), <- (ascii_nat_embedding b), H. reflexivity.
Qed.

Lemma code_lower c :
  (65 <= code c <= 90 /\ code (lower_char c) = code c + 32) \/
  (~ 65 <= code c <= 90 /\ code (lower_char c) = code c).
Proof. destruct c as [[] [] [] [] [] [] [] []]; vm_compute; intuition congruence. Qed.

Lemma code_upper c :
  ((97 <= code c <= 122 \/ (224 <= code c <= 254 /\ code c <> 247)) /\
   code (upper1 c) = code c - 32) \/
  (~ (97 <= code c <= 122 \/ (224 <= code c <= 254 /\ code c <> 247)) /\
   code (upper1 c) = code c).
Proof. destruct c as [[] [] [] [] [] [] [] []]; vm_compute; intuition congruence. Qed.

Lemma is_colon_code c : is_colon c = true <-> code c = 58.
Proof.
  unfold is_colon. rewrite Ascii.eqb_eq. split; intros H.
  - subst c. reflexivity.
  - apply code_inj. exact H.
Qed.

Lemma is_colon_false_code c : is_colon c = false <-> code c <> 58.
Proof.
  rewrite <- is_colon_code. destruct (is_colon c); split; congruence.
Qed.

Lemma ci_eq_code a c : ci_eq a c = true <-> code (lower_char a) = code (lower_char c).
Proof.
  unfold ci_eq. rewrite Ascii.eqb_eq. split; intros H; [rewrite H; reflexivity|].
  apply code_inj. exact H.
Qed.

Lemma ci_eq_refl a : ci_eq a a = true.
Proof. apply ci_eq_code. reflexivity. Qed.

Ltac classes :=
  unfold is_alpha, is_digit, is_space in *;
  repeat match goal with
    | H : is_colon _ = true |- _ => apply is_colon_code in H
    | H : is_colon _ = false |- _ => apply is_colon_false_code in H
    | H : ci_eq _ _ = true |- _ => apply ci_eq_code in H
    | |- is_colon _ = true => apply is_colon_code
    | |- is_colon _ = false => apply is_colon_false_code
    end;
  repeat match goal with
    | c : ascii |- _ =>
        lazymatch goal with
        | _ : (65 <= code c <= 90 /\ _) \/ _ |- _ => fail
        | _ => pose proof (code_lower c); pose proof (code_upper c)
        end
    end;
  try lia.

Lemma space_not_alpha c : is_space c = true -> is_alpha c = false.
Proof. intros H. classes. Qed.

Lemma space_not_digit c : is_space c = true -> is_digit c = false.
Proof. intros H. classes. Qed.

Lemma space_not_colon c : is_space c = true -> is_colon c = false.
Proof. intros H. classes. Qed.

Lemma digit_not_alpha c : is_digit c = true -> is_alpha c = false.
Proof. intros H. classes. Qed.

Lemma digit_not_space c : is_digit c = true -> is_space c = false.
Proof. intros H. classes. Qed.

Lemma digit_not_colon c : is_digit c = true -> is_colon c = false.
Proof. intros H. classes. Qed.

Lemma alpha_not_digit c : is_alpha c = true -> is_digit c = false.
Proof. intros H. classes. Qed.

Lemma alpha_not_colon c : is_alpha c = true -> is_colon c = false.
Proof. intros H. classes. Qed.

Lemma alpha_not_space c : is_alpha c = true -> is_space c = false.
Proof. intros H. classes. Qed.

Lemma ci_eq_alpha a c : ci_eq a c = true -> is_alpha c = is_alpha a.
Proof.
  intros H. destruct (is_alpha a) eqn:E1, (is_alpha c) eqn:E2; try reflexivity; classes.
Qed.

Lemma ci_eq_digit a c : ci_eq a c = true -> is_digit a = true -> c = a.
Proof.
  intros H D. apply code_inj. classes.
Qed.

Lemma ci_eq_colon a c : ci_eq a c = true -> is_colon a = true -> is_colon c = true.
Proof. intros H D. classes. Qed.

Lemma ci_eq_space a c : ci_eq a c = true -> is_space c = is_space a.
Proof.
  intros H. destruct (is_space a) eqn:E1, (is_space c) eqn:E2; try reflexivity; classes.
Qed.

Lemma upper_colon c : is_colon (upper1 c) = is_colon c.
Proof.
  destruct (is_colon c) eqn:E.
  - classes.
  - classes.
Qed.

Lemma upper_digit c : is_digit (upper1 c) = is_digit c.
Proof.
  destruct (is_digit c) eqn:E1, (is_digit (upper1 c)) eqn:E2; try reflexivity; classes.
Qed.

(** ** Decimal numerals *)

Lemma string_of_uint_digits d :
  Forall (fun c => is_digit c = true)
         (list_ascii_of_string (NilEmpty.string_of_uint d)).
Proof.
  induction d; simpl; constructor; auto.
Qed.

Lemma str_of_int_pos p :
  str_of_int (Zpos p) =
  list_ascii_of_string (NilEmpty.string_of_uint (Pos.to_uint p)).
Proof.
  unfold str_of_int. simpl.
  pose proof (DecimalPos.Unsigned.to_uint_nonnil p) as H.
  destruct (Pos.to_uint p); [contradiction | reflexivity ..].
Qed.

Lemma str_of_int_digits i :
  0 < i -> Forall (fun c => is_digit c = true) (str_of_int i).
Proof.
  intros H. destruct i as [|p|p]; try lia.
  rewrite str_of_int_pos. apply string_of_uint_digits.
Qed.

Lemma str_of_int_nonempty i : 0 < i -> str_of_int i <> [].
Proof.
  intros H. destruct i as [|p|p]; try lia.
  rewrite str_of_int_pos.
  pose proof (DecimalPos.Unsigned.to_uint_nonnil p) as Hn.
  destruct (Pos.to_uint p); [contradiction | discriminate ..].
Qed.

Lemma str_of_int_inj i j :
  0 < i -> 0 < j -> str_of_int i = str_of_int j -> i = j.
Proof.
  intros Hi Hj H. destruct i as [|p|p]; try lia. destruct j as [|q|q]; try lia.
  rewrite !str_of_int_pos in H.
  apply (f_equal string_of_list_ascii) in H.
  rewrite !string_of_list_ascii_of_string in H.
  apply (f_equal NilEmpty.uint_of_string) in H.
  rewrite !NilEmpty.usu in H. inversion H as [H'].
  apply DecimalPos.Unsigned.to_uint_inj in H'. congruence.
Qed.

(** ** Text before the first colon *)

Lemma colon_free_app a b : colon_free (a ++ b) <-> colon_free a /\ colon_free b.
Proof. unfold colon_free. apply Forall_app. Qed.

Lemma before_colon_app a r :
  colon_free a -> before_colon (a ++ r) = option_map (app a) (before_colon r).
Proof.
  intros H. induction H as [|c a Hc Ha IH]; simpl.
  - destruct (before_colon r); reflexivity.
  - rewrite Hc, IH. destruct (before_colon r); reflexivity.
Qed.

Lemma before_colon_none s : colon_free s -> before_colon s = None.
Proof.
  intros H. induction H as [|c s Hc Hs IH]; simpl; [reflexivity|].
  rewrite Hc, IH. reflexivity.
Qed.

Lemma before_colon_here a c r :
  colon_free a -> is_colon c = true -> before_colon (a ++ c :: r) = Some a.
Proof.
  intros Ha Hc. rewrite before_colon_app by exact Ha. simpl. rewrite Hc.
  simpl. rewrite app_nil_r. reflexivity.
Qed.

Lemma forall_weaken (P Q : ascii -> Prop) (s : str) :
  (forall c, P c -> Q c) -> Forall P s -> Forall Q s.
Proof. intros H F. eapply Forall_impl; eauto. Qed.

Lemma alpha_colon_free s : Forall (fun c => is_alpha c = true) s -> colon_free s.
Proof. apply forall_weaken. apply alpha_not_colon. Qed.

Lemma digits_colon_free s : Forall (fun c => is_digit c = true) s -> colon_free s.
Proof. apply forall_weaken. apply digit_not_colon. Qed.

Lemma blank_colon_free s : blank s -> colon_free s.
Proof. apply forall_weaken. apply space_not_colon. Qed.

(** ** The matcher on literals, blanks and the captured field *)

Lemma exec_lit_cons (R : Type) c l s g (k : str -> option str -> option R) :
  exec (lit (c :: l)) s g k =
  match s with
  | c' :: s' => if ci_eq c c' then exec (lit l) s' g k else None
  | [] => None
  end.
Proof. reflexivity. Qed.

(** A literal that matched consumed a copy of itself, letter case apart. *)
Lemma exec_lit_inv (R : Type) l :
  forall s g (k : str -> option str -> option R) x,
    exec (lit l) s g k = Some x ->
    exists l' r, s = l' ++ r /\ ci_match l l' /\ k r g = Some x.
Proof.
  induction l as [|c l IH]; intros s g k x H.
  - exists [], s. repeat split; [constructor | exact H].
  - rewrite exec_lit_cons in H. destruct s as [|c' s']; [discriminate|].
    destruct (ci_eq c c') eqn:E; [|discriminate].
    apply IH in H. destruct H as (l' & r & -> & Hm & Hk).
    exists (c' :: l'), r. repeat split; [constructor; assumption | exact Hk].
Qed.

Lemma exec_lit_fwd (R : Type) l l' r g (k : str -> option str -> option R) :
  ci_match l l' -> exec (lit l) (l' ++ r) g k = k r g.
Proof.
  intros H. induction H as [|c c' l l' Hc Hl IH]; [reflexivity|].
  rewrite exec_lit_cons. simpl. rewrite Hc. exact IH.
Qed.

Lemma ci_match_refl l : ci_match l l.
Proof. induction l; constructor; [apply ci_eq_refl | assumption]. Qed.

Lemma ci_match_length l l' : ci_match l l' -> length l' = length l.
Proof. intros H. symmetry. eapply Forall2_length; eauto. Qed.

(** [\s*] that matched consumed blanks only. *)
Lemma star_loop_ws_inv (R : Type) (k : str -> option str -> option R) x :
  forall fuel s g,
    star_loop (exec (Chr is_space)) k fuel s g = Some x ->
    exists w r, s = w ++ r /\ blank w /\ k r g = Some x.
Proof.
  induction fuel as [|fuel IH]; intros s g H; simpl in H.
  - exists [], s. repeat split; [constructor | exact H].
  - apply or_else_Some in H. destruct H as [H | [_ H]].
    + destruct s as [|c s']; [discriminate|].
      destruct (is_space c) eqn:E; [|discriminate].
      destruct (length s' <? length (c :: s'))%nat; [|discriminate].
      apply IH in H. destruct H as (w & r & -> & Hw & Hk).
      exists (c :: w), r. repeat split; [constructor; assumption | exact Hk].
    + exists [], s. repeat split; [constructor | exact H].
Qed.

Lemma exec_ws_star_inv (R : Type) s g (k : str -> option str -> option R) x :
  exec ws_star s g k = Some x ->
  exists w r, s = w ++ r /\ blank w /\ k r g = Some x.
Proof. unfold ws_star. rewrite exec_Star. apply star_loop_ws_inv. Qed.

(** [\s*] is greedy: it first tries with all the blanks consumed. *)
Lemma star_loop_ws_fwd (R : Type) (k : str -> option str -> option R) r g x :
  starts_solid r -> k r g = Some x ->
  forall w fuel,
    blank w -> (length w <= fuel)%nat ->
    star_loop (exec (Chr is_space)) k fuel (w ++ r) g = Some x.
Proof.
  intros Hr Hk w. induction w as [|c w IH]; intros fuel Hw Hf.
  - simpl. destruct fuel as [|fuel]; simpl; [exact Hk|].
    destruct r as [|c r]; simpl; [exact Hk|].
    simpl in Hr. rewrite Hr. simpl. exact Hk.
  - destruct fuel as [|fuel]; [simpl in Hf; lia|].
    inversion Hw as [|? ? Hc Hw']; subst. simpl. rewrite Hc.
    replace (length (w ++ r) <? S (length (w ++ r)))%nat with true
      by (symmetry; apply Nat.ltb_lt; lia).
    rewrite IH; [reflexivity | assumption | simpl in Hf; lia].
Qed.

Lemma exec_ws_star_fwd (R : Type) w r g (k : str -> option str -> option R) x :
  blank w -> starts_solid r -> k r g = Some x ->
  exec ws_star (w ++ r) g k = Some x.
Proof.
  intros Hw Hr Hk. unfold ws_star. rewrite exec_Star.
  apply star_loop_ws_fwd; try assumption. rewrite length_app. lia.
Qed.

Lemma all_positions_tail (P : str -> Prop) c a b :
  all_positions P (c :: a) b -> all_positions P a b.
Proof.
  intros H a1 a2 E Hn. apply (H (c :: a1) a2); [rewrite E; reflexivity | exact Hn].
Qed.

Lemma all_positions_head (P : str -> Prop) c a b :
  all_positions P (c :: a) b -> P (c :: a ++ b).
Proof. intros H. apply (H [] (c :: a)); [reflexivity | discriminate]. Qed.

Lemma firstn_capture (p a b : str) :
  firstn (length (p ++ a ++ b) - length b) (p ++ a ++ b) = p ++ a.
Proof.
  rewrite app_assoc, length_app, Nat.add_sub, firstn_app, firstn_all, Nat.sub_diag.
  simpl. apply app_nil_r.
Qed.

Lemma or_else_None_l (A : Type) (b : option A) : or_else None b = b.
Proof. reflexivity. Qed.

Lemma lazy_loop_unfold (R : Type) body (k : str -> option str -> option R) fuel s g :
  lazy_loop body k fuel s g =
  or_else (k s g)
    match fuel with
    | O => None
    | S fuel' =>
        body s g
          (fun s1 g1 =>
             if (length s1 <? length s)%nat
             then lazy_loop body k fuel' s1 g1 else None)
    end.
Proof. destruct fuel; reflexivity. Qed.

(** [(.+?)(?=stop)] is lazy: it captures up to the first position, at least
    one character ahead, where the lookahead holds. *)
Lemma lazy_loop_capture (R : Type) stop (k : str -> option str -> option R) b :
  looks stop b ->
  forall a p fuel g x,
    all_positions (looks_not stop) a b ->
    (length a <= fuel)%nat ->
    k b (Some (p ++ a)) = Some x ->
    lazy_loop (exec (Chr any_char))
      (fun s1 _ =>
         exec (Ahead stop) s1
           (Some (firstn (length (p ++ a ++ b) - length s1) (p ++ a ++ b))) k)
      fuel (a ++ b) g =
    Some x.
Proof.
  intros Hb a. induction a as [|c a IH]; intros p fuel g x Ha Hf Hk.
  - rewrite lazy_loop_unfold. cbv beta.
    pose proof (firstn_capture p [] b) as F. simpl app in *.
    rewrite exec_Ahead, Hb, F, Hk. reflexivity.
  - destruct fuel as [|fuel]; [simpl in Hf; lia|].
    rewrite lazy_loop_unfold. cbv beta. rewrite exec_Ahead.
    change ((c :: a) ++ b) with (c :: a ++ b).
    rewrite (all_positions_head _ _ _ _ Ha), or_else_None_l, exec_Chr.
    change (any_char c) with true. cbv iota beta.
    replace (length (a ++ b) <? length (c :: a ++ b))%nat with true
      by (symmetry; apply Nat.ltb_lt; simpl; lia).
    specialize (IH (p ++ [c]) fuel g x (all_positions_tail _ _ _ _ Ha)).
    replace ((p ++ [c]) ++ a ++ b) with (p ++ c :: a ++ b) in IH
      by (rewrite <- app_assoc; reflexivity).
    apply IH; [simpl in Hf; lia|].
    rewrite <- app_assoc. exact Hk.
Qed.

Lemma exec_capture (R : Type) stop (k : str -> option str -> option R) c a b g x :
  looks stop b ->
  all_positions (looks_not stop) a b ->
  k b (Some (c :: a)) = Some x ->
  exec (Cat (Group (PlusLazy (Chr any_char))) (Ahead stop)) (c :: a ++ b) g k = Some x.
Proof.
  intros Hb Ha Hk.
  rewrite exec_Cat, exec_Group, exec_PlusLazy, exec_Chr. simpl (any_char c).
  cbv iota.
  apply (lazy_loop_capture R stop k b Hb a [c] (length (a ++ b)) g x Ha);
    [rewrite length_app; lia | exact Hk].
Qed.

(** ** The label pattern [<name>\s*{i}\s*:] *)

Section Label.

Variable name : str.
Hypothesis name_alpha : Forall (fun c => is_alpha c = true) name.
Hypothesis name_nonempty : name <> [].

Lemma ci_match_alpha n' : ci_match name n' -> Forall (fun c => is_alpha c = true) n'.
Proof.
  intros H. revert name_alpha. clear name_nonempty.
  induction H as [|a c l l' Hc Hl IH]; intros Ha; [constructor|].
  inversion Ha; subst. constructor; [|auto].
  rewrite (ci_eq_alpha _ _ Hc). assumption.
Qed.

Lemma ci_match_digits d d' :
  Forall (fun c => is_digit c = true) d -> ci_match d d' -> d' = d.
Proof.
  intros Hd H. induction H as [|a c l l' Hc Hl IH]; [reflexivity|].
  inversion Hd; subst. f_equal; [eapply ci_eq_digit; eauto | auto].
Qed.

Lemma ci_match_colon c' r' : ci_match §":" (c' :: r') -> is_colon c' = true /\ r' = [].
Proof.
  intros H. inversion H as [|a c l l' Hc Hl]; subst. inversion Hl; subst.
  split; [|reflexivity]. eapply ci_eq_colon; [exact Hc | reflexivity].
Qed.

(** A label that matched: the text up to its first colon has the shape of
    the label. *)
Lemma label_re_inv (R : Type) i s g (k : str -> option str -> option R) x :
  0 < i ->
  exec (label_re name i) s g k = Some x ->
  exists w r,
    before_colon s = Some w /\ label_shaped name i w /\ k r g = Some x.
Proof.
  intros Hi H. unfold label_re in H.
  rewrite exec_Cat in H. apply exec_lit_inv in H.
  destruct H as (n' & r1 & -> & Hn & H).
  rewrite exec_Cat in H. apply exec_ws_star_inv in H.
  destruct H as (w1 & r2 & -> & Hw1 & H).
  rewrite exec_Cat in H. apply exec_lit_inv in H.
  destruct H as (d' & r3 & -> & Hd & H).
  rewrite exec_Cat in H. apply exec_ws_star_inv in H.
  destruct H as (w2 & r4 & -> & Hw2 & H).
  apply exec_lit_inv in H. destruct H as (c' & r & -> & Hc & H).
  destruct c' as [|c' rc]; [inversion Hc|].
  apply ci_match_colon in Hc. destruct Hc as [Hc ->].
  apply (ci_match_digits _ _ (str_of_int_digits i Hi)) in Hd. subst d'.
  exists (n' ++ w1 ++ str_of_int i ++ w2), r. split; [|split].
  - replace (n' ++ w1 ++ str_of_int i ++ w2 ++ [c'] ++ r)
      with ((n' ++ w1 ++ str_of_int i ++ w2) ++ c' :: r)
      by (rewrite <- !app_assoc; reflexivity).
    apply before_colon_here; [|exact Hc].
    rewrite !colon_free_app. repeat split.
    + apply alpha_colon_free, ci_match_alpha, Hn.
    + apply blank_colon_free, Hw1.
    + apply digits_colon_free, str_of_int_digits, Hi.
    + apply blank_colon_free, Hw2.
  - exists n', w1, w2. auto.
  - exact H.
Qed.

(** The label as the grammar writes it is matched, and the match continues
    right after the colon. *)
Lemma label_re_fwd (R : Type) i r g (k : str -> option str -> option R) x :
  0 < i ->
  k r g = Some x ->
  exec (label_re name i) (label_head name i ++ §":" ++ r) g k = Some x.
Proof.
  intros Hi Hk. unfold label_re, label_head.
  rewrite <- !app_assoc, exec_Cat, (exec_lit_fwd _ name name) by apply ci_match_refl.
  rewrite exec_Cat.
  pose proof (str_of_int_digits i Hi) as Hd.
  pose proof (str_of_int_nonempty i Hi) as Hne.
  apply (exec_ws_star_fwd _ §" "); [repeat constructor | |].
  - destruct (str_of_int i) as [|c d]; [contradiction|]. simpl.
    inversion Hd; subst. apply digit_not_space. assumption.
  - rewrite exec_Cat, (exec_lit_fwd _ _ (str_of_int i)) by apply ci_match_refl.
    rewrite exec_Cat.
    apply (exec_ws_star_fwd _ []); [constructor | reflexivity |].
    change (":"%char :: r) with (§":" ++ r).
    rewrite (exec_lit_fwd _ _ §":") by apply ci_match_refl. exact Hk.
Qed.

(** Counting the letters and reading the digits of a label-shaped text. *)
Lemma filter_all (P : ascii -> bool) (s : str) :
  Forall (fun c => P c = true) s -> filter P s = s.
Proof.
  intros H. induction H as [|c s Hc Hs IH]; simpl; [reflexivity|].
  rewrite Hc, IH. reflexivity.
Qed.

Lemma filter_none (P : ascii -> bool) (s : str) :
  Forall (fun c => P c = false) s -> filter P s = [].
Proof.
  intros H. induction H as [|c s Hc Hs IH]; simpl; [reflexivity|].
  rewrite Hc, IH. reflexivity.
Qed.

Lemma label_shaped_letters i w :
  0 < i -> label_shaped name i w -> filter is_alpha w = firstn (length name) w.
Proof.
  intros Hi (n' & w1 & w2 & -> & Hn & Hw1 & Hw2).
  rewrite <- (ci_match_length _ _ Hn), firstn_app, firstn_all, Nat.sub_diag.
  simpl. rewrite app_nil_r, !filter_app.
  rewrite (filter_all _ n') by (apply ci_match_alpha, Hn).
  rewrite (filter_none _ w1) by (eapply forall_weaken; [apply space_not_alpha | exact Hw1]).
  rewrite (filter_none _ w2) by (eapply forall_weaken; [apply space_not_alpha | exact Hw2]).
  rewrite (filter_none _ (str_of_int i))
    by (eapply forall_weaken; [apply digit_not_alpha | apply str_of_int_digits, Hi]).
  rewrite !app_nil_r. reflexivity.
Qed.

Lemma label_shaped_length i w :
  label_shaped name i w -> (length name <= length w)%nat.
Proof.
  intros (n' & w1 & w2 & -> & Hn & _). rewrite length_app, (ci_match_length _ _ Hn). lia.
Qed.

Lemma label_shaped_digits i w :
  0 < i -> label_shaped name i w -> filter is_digit w = str_of_int i.
Proof.
  intros Hi (n' & w1 & w2 & -> & Hn & Hw1 & Hw2).
  rewrite !filter_app.
  rewrite (filter_none _ n')
    by (eapply forall_weaken; [apply alpha_not_digit | apply ci_match_alpha, Hn]).
  rewrite (filter_none _ w1) by (eapply forall_weaken; [apply space_not_digit | exact Hw1]).
  rewrite (filter_none _ w2) by (eapply forall_weaken; [apply space_not_digit | exact Hw2]).
  rewrite (filter_all _ (str_of_int i)) by (apply str_of_int_digits, Hi).
  rewrite app_nil_r. reflexivity.
Qed.

End Label.

(** ** Positions of a text *)

Lemma all_positions_nil (P : str -> Prop) rest : all_positions P [] rest.
Proof.
  intros a b E Hb. symmetry in E. apply app_eq_nil in E. destruct E. contradiction.
Qed.

Lemma all_positions_cons (P : str -> Prop) c pre rest :
  P (c :: pre ++ rest) -> all_positions P pre rest -> all_positions P (c :: pre) rest.
Proof.
  intros Hc Hp a b E Hb. destruct a as [|c' a]; simpl in E.
  - subst b. exact Hc.
  - inversion E; subst. apply (Hp a b); [reflexivity | exact Hb].
Qed.

Lemma all_positions_app (P : str -> Prop) p1 p2 rest :
  all_positions P p1 (p2 ++ rest) -> all_positions P p2 rest ->
  all_positions P (p1 ++ p2) rest.
Proof.
  intros H1 H2. induction p1 as [|c p1 IH]; [exact H2|].
  simpl. apply all_positions_cons.
  - rewrite <- app_assoc. apply (all_positions_head _ _ _ _ H1).
  - apply IH. apply (all_positions_tail _ _ _ _ H1).
Qed.

Lemma before_colon_some_app b w rest :
  before_colon b = Some w -> before_colon (b ++ rest) = Some w.
Proof.
  revert w. induction b as [|c b IH]; intros w H; [discriminate|].
  simpl in *. destruct (is_colon c); [exact H|].
  destruct (before_colon b) as [w'|]; [|discriminate].
  rewrite (IH w' eq_refl). exact H.
Qed.

Lemma before_colon_none_free b : before_colon b = None -> colon_free b.
Proof.
  induction b as [|c b IH]; intros H; [constructor|].
  simpl in H. destruct (is_colon c) eqn:E; [discriminate|].
  destruct (before_colon b); [discriminate|].
  constructor; [exact E | apply IH; reflexivity].
Qed.

Lemma inner_ok_tail (Good : str -> Prop) p y : inner_ok Good (p ++ y) -> inner_ok Good y.
Proof.
  intros H a b w E Hw. apply (H (p ++ a) b w); [|exact Hw].
  rewrite E, app_assoc. reflexivity.
Qed.

Lemma inner_ok_impl (Good Good' : str -> Prop) y :
  (forall w, Good w -> Good' w) -> inner_ok Good y -> inner_ok Good' y.
Proof. intros H Hy a b w E Hw. apply H. apply (Hy a b w E Hw). Qed.

Lemma colon_free_inner (Good : str -> Prop) y : colon_free y -> inner_ok Good y.
Proof.
  intros H a b w E Hw. subst y. apply colon_free_app in H. destruct H as [_ H].
  rewrite (before_colon_none _ H) in Hw. discriminate.
Qed.

(** At a position of [y] whose tail holds a colon, the text before that
    colon lies in [y]. *)
Lemma inner_ok_position (Good : str -> Prop) a b :
  inner_ok Good (a ++ b) -> pos_ok Good b.
Proof.
  intros H. unfold pos_ok. destruct (before_colon b) as [w|] eqn:E; [|exact I].
  apply (H a b w eq_refl E).
Qed.

(** Positions inside a field: the text up to the next colon lies in the
    field, or starts with what is left of the field. *)
Lemma field_positions (Good : str -> Prop) u rest :
  inner_ok Good u ->
  (forall b, b <> [] -> colon_free b -> pos_ok Good (b ++ rest)) ->
  all_positions (pos_ok Good) u rest.
Proof.
  intros Hu H a b E Hb.
  destruct (before_colon b) as [w|] eqn:Ew.
  - unfold pos_ok. rewrite (before_colon_some_app _ _ _ Ew). apply (Hu a b w E Ew).
  - apply H; [exact Hb | apply before_colon_none_free, Ew].
Qed.

(** Positions inside [<head>:]: the text up to the next colon is a tail of
    the head. *)
Lemma head_positions (Bad : str -> Prop) head rest :
  colon_free head ->
  (forall h1 h2, head = h1 ++ h2 -> Bad h2) ->
  all_positions (pos_ok Bad) (head ++ §":") rest.
Proof.
  intros Hh H a b E Hb.
  destruct (exists_last Hb) as (b' & x & ->).
  rewrite app_assoc in E. apply app_inj_tail in E. destruct E as [E <-].
  unfold pos_ok. rewrite <- app_assoc. simpl.
  rewrite before_colon_here; [apply (H a b'); exact E | | reflexivity].
  subst head. apply colon_free_app in Hh. tauto.
Qed.

Section Region.

Variable name : str.
Hypothesis name_alpha : Forall (fun c => is_alpha c = true) name.
Hypothesis name_nonempty : name <> [].

Lemma label_head_colon_free j : 0 < j -> colon_free (label_head name j).
Proof.
  intros Hj. unfold label_head. rewrite !colon_free_app. repeat split.
  - apply alpha_colon_free, name_alpha.
  - repeat constructor.
  - apply digits_colon_free, str_of_int_digits, Hj.
Qed.

Lemma render_items_cons j y ys :
  render_items name j (y :: ys) =
  (label_head name j ++ §":") ++ y ++ render_items name (j + 1) ys.
Proof. unfold label_head. simpl. rewrite <- !app_assoc. reflexivity. Qed.

Variable Bad : str -> Prop.
Variable rest : str.

Hypothesis bad_before_label :
  forall b j, 0 < j -> b <> [] -> colon_free b -> Bad (b ++ label_head name j).
Hypothesis bad_before_rest :
  forall b, b <> [] -> colon_free b -> pos_ok Bad (b ++ rest).

Lemma bad_before_items b j ys :
  0 < j -> b <> [] -> colon_free b ->
  pos_ok Bad (b ++ render_items name j ys ++ rest).
Proof.
  intros Hj Hb Hc. destruct ys as [|y ys]; [apply bad_before_rest; assumption|].
  rewrite render_items_cons. unfold pos_ok.
  replace (b ++ ((label_head name j ++ §":") ++ y ++ render_items name (j + 1) ys) ++ rest)
    with ((b ++ label_head name j) ++ ":"%char :: (y ++ render_items name (j + 1) ys) ++ rest)
    by (rewrite <- !app_assoc; reflexivity).
  rewrite before_colon_here; [apply bad_before_label; assumption | | reflexivity].
  apply colon_free_app. split; [exact Hc | apply label_head_colon_free, Hj].
Qed.

(** Every position of the items numbered [j ..] is bad, when the tails of
    their label heads are. *)
Lemma region_positions ys :
  forall j,
    0 < j ->
    Forall (inner_ok Bad) ys ->
    (forall j' h1 h2,
        j <= j' < j + len ys -> label_head name j' = h1 ++ h2 -> Bad h2) ->
    all_positions (pos_ok Bad) (render_items name j ys) rest.
Proof.
  induction ys as [|y ys IH]; intros j Hj Hys Hh.
  - apply all_positions_nil.
  - inversion Hys as [|? ? Hy Hys']; subst.
    assert (Hl : len (y :: ys) = len ys + 1) by (unfold len; simpl length; lia).
    pose proof (len_nonneg _ ys) as Hn.
    rewrite render_items_cons.
    apply all_positions_app; [|apply all_positions_app].
    + apply head_positions; [apply label_head_colon_free, Hj|].
      intros h1 h2 E. apply (Hh j h1 h2); [lia | exact E].
    + apply field_positions; [exact Hy|].
      intros b Hb Hc. apply bad_before_items; [lia | assumption | assumption].
    + apply IH; [lia | exact Hys'|].
      intros j' h1 h2 Hj' E. apply (Hh j' h1 h2); [lia | exact E].
Qed.

Lemma gap_region_positions gap ys j :
  0 < j ->
  colon_free gap ->
  Forall (inner_ok Bad) ys ->
  (forall j' h1 h2,
      j <= j' < j + len ys -> label_head name j' = h1 ++ h2 -> Bad h2) ->
  all_positions (pos_ok Bad) (gap ++ render_items name j ys) rest.
Proof.
  intros Hj Hg Hys Hh. apply all_positions_app.
  - apply field_positions; [apply colon_free_inner, Hg|].
    intros b Hb Hc. apply bad_before_items; assumption.
  - apply region_positions; assumption.
Qed.

End Region.

(** ** Fields whose colons are harmless *)

Lemma strip_ci_match name n' r : ci_match name n' -> strip_ci name (n' ++ r) = Some r.
Proof.
  intros H. induction H as [|a c l l' Hc Hl IH]; [destruct r; reflexivity|].
  simpl. rewrite Hc. exact IH.
Qed.

Lemma strip_ci_inv name :
  forall w r, strip_ci name w = Some r -> exists n', w = n' ++ r /\ ci_match name n'.
Proof.
  induction name as [|a name IH]; intros w r H.
  - exists []. destruct w; inversion H; subst; split; constructor.
  - destruct w as [|c w]; [discriminate|]. simpl in H.
    destruct (ci_eq a c) eqn:E; [|discriminate].
    destruct (IH w r H) as (n' & -> & Hn). exists (c :: n'). split; [reflexivity|].
    constructor; assumption.
Qed.

Lemma drop_while_stop (p : ascii -> bool) r :
  match r with [] => True | c :: _ => p c = false end -> drop_while p r = r.
Proof. destruct r as [|c r]; [reflexivity|]. simpl. intros ->. reflexivity. Qed.

Lemma drop_while_app (p : ascii -> bool) a r :
  Forall (fun c => p c = true) a -> drop_while p r = r -> drop_while p (a ++ r) = r.
Proof.
  intros H Hr. induction H as [|c a Hc _ IH]; [exact Hr|]. simpl. rewrite Hc. exact IH.
Qed.

Lemma forallb_blank w : blank w -> forallb is_space w = true.
Proof. intros H. apply forallb_forall. apply Forall_forall. exact H. Qed.

(** A text of the shape of a label reads as one. *)
Lemma label_shaped_like name i w :
  0 < i -> label_shaped name i w -> label_like name w = true.
Proof.
  intros Hi (n' & w1 & w2 & -> & Hn & Hw1 & Hw2).
  unfold label_like. rewrite (strip_ci_match _ _ _ Hn).
  pose proof (str_of_int_digits i Hi) as Hd.
  pose proof (str_of_int_nonempty i Hi) as Hne.
  assert (E2 : drop_while is_digit (str_of_int i ++ w2) = w2).
  { apply drop_while_app; [exact Hd|]. apply drop_while_stop.
    destruct w2 as [|c w2]; [exact I|]. inversion Hw2; subst.
    apply space_not_digit. assumption. }
  assert (E1 : drop_while is_space (w1 ++ str_of_int i ++ w2) = str_of_int i ++ w2).
  { apply drop_while_app; [exact Hw1|]. apply drop_while_stop.
    destruct (str_of_int i) as [|c d]; [contradiction|]. simpl.
    inversion Hd; subst. apply digit_not_space. assumption. }
  cbv zeta. rewrite E1, E2. rewrite (forallb_blank _ Hw2), andb_true_r.
  apply negb_true_iff, Nat.eqb_neq. rewrite length_app.
  destruct (str_of_int i); [contradiction | simpl; lia].
Qed.

Lemma ci_match_eqb m w : ci_match m w -> ci_eqb m w = true.
Proof.
  intros H. unfold ci_eqb. rewrite <- (app_nil_r w), (strip_ci_match _ _ _ H). reflexivity.
Qed.

Lemma ci_eqb_match m w : ci_eqb m w = true -> ci_match m w.
Proof.
  unfold ci_eqb. intros H. destruct (strip_ci m w) as [[|c r]|] eqn:E; try discriminate.
  destruct (strip_ci_inv _ _ _ E) as (n' & -> & Hn). rewrite app_nil_r. exact Hn.
Qed.

Lemma stops_not_label name markers i w :
  0 < i -> stops name markers w = false -> ~ label_shaped name i w.
Proof.
  intros Hi H Hs. unfold stops in H. apply orb_false_iff in H. destruct H as [H _].
  rewrite (label_shaped_like name i w Hi Hs) in H. discriminate.
Qed.

Lemma stops_not_marker name markers body w :
  In body markers -> stops name markers w = false -> ~ ci_match body w.
Proof.
  intros Hin H Hm. unfold stops in H. apply orb_false_iff in H. destruct H as [_ H].
  assert (T : existsb (fun m => ci_eqb m w) markers = true).
  { apply existsb_exists. exists body. split; [exact Hin | apply ci_match_eqb, Hm]. }
  congruence.
Qed.

(** What [harmless] checks, position by position. *)
Lemma harmless_inner name markers y :
  harmless name markers y = true ->
  inner_ok (fun w => stops name markers w = false) y.
Proof.
  induction y as [|c y IH]; intros H a b w E Hw.
  - symmetry in E. apply app_eq_nil in E. destruct E as [_ ->]. discriminate.
  - cbn [harmless] in H. apply andb_true_iff in H. destruct H as [H1 H2].
    destruct a as [|c' a]; simpl in E.
    + subst b. rewrite Hw in H1. apply negb_true_iff in H1. exact H1.
    + inversion E; subst. apply (IH H2 a b w eq_refl Hw).
Qed.

Lemma harmless_tail name markers p y :
  harmless name markers (p ++ y) = true -> harmless name markers y = true.
Proof.
  induction p as [|c p IH]; intros H; [exact H|].
  simpl app in H. cbn [harmless] in H. apply andb_true_iff in H. apply IH, H.
Qed.

(** ** Blanks and normalisation *)

Lemma blank_app a b : blank (a ++ b) <-> blank a /\ blank b.
Proof. unfold blank. apply Forall_app. Qed.

Lemma blank_rev w : blank w -> blank (rev w).
Proof. unfold blank. apply Forall_rev. Qed.

Lemma lstrip_split s : exists w, s = w ++ lstrip s /\ blank w /\ starts_solid (lstrip s).
Proof.
  induction s as [|c s IH]; simpl.
  - exists []. repeat split. constructor.
  - destruct (is_space c) eqn:E.
    + destruct IH as (w & Hs & Hw & Hr). exists (c :: w). repeat split.
      * simpl. f_equal. exact Hs.
      * constructor; assumption.
      * exact Hr.
    + exists []. repeat split; [constructor | exact E].
Qed.

Lemma rstrip_split s : exists w, s = rstrip s ++ w /\ blank w.
Proof.
  unfold rstrip. destruct (lstrip_split (rev s)) as (w & Hs & Hw & _).
  exists (rev w). split; [|apply blank_rev, Hw].
  rewrite <- rev_app_distr, <- Hs, rev_involutive. reflexivity.
Qed.

Lemma split_ws_blank cur w :
  blank w -> split_ws cur w = match cur with [] => [] | _ => [cur] end.
Proof.
  intros H. revert cur. induction H as [|c w Hc Hw IH]; intros cur; simpl.
  - reflexivity.
  - rewrite Hc. destruct cur; rewrite IH; reflexivity.
Qed.

Lemma split_ws_blank_end w : blank w -> forall s cur, split_ws cur (s ++ w) = split_ws cur s.
Proof.
  intros Hw s. induction s as [|c s IH]; intros cur; simpl.
  - apply split_ws_blank. exact Hw.
  - destruct (is_space c); [destruct cur|]; rewrite ?IH; reflexivity.
Qed.

Lemma split_blank_front w s : blank w -> split (w ++ s) = split s.
Proof.
  unfold split. intros H. induction H as [|c w Hc Hw IH]; simpl; [reflexivity|].
  rewrite Hc. exact IH.
Qed.

Lemma split_blank_end w s : blank w -> split (s ++ w) = split s.
Proof. intros H. unfold split. apply split_ws_blank_end. exact H. Qed.

Lemma split_strip s : split (strip s) = split s.
Proof.
  unfold strip.
  destruct (lstrip_split s) as (w1 & H1 & Hw1 & _).
  destruct (rstrip_split (lstrip s)) as (w2 & H2 & Hw2).
  rewrite H1 at 2. rewrite split_blank_front by exact Hw1.
  rewrite H2 at 2. rewrite split_blank_end by exact Hw2. reflexivity.
Qed.

Lemma normalize_split s : normalize s = join §" " (split s).
Proof. unfold normalize. rewrite split_strip. reflexivity. Qed.

Lemma normalize_blank_front w s : blank w -> normalize (w ++ s) = normalize s.
Proof. intros H. rewrite !normalize_split, split_blank_front by exact H. reflexivity. Qed.

Lemma normalize_blank_end w s : blank w -> normalize (s ++ w) = normalize s.
Proof. intros H. rewrite !normalize_split, split_blank_end by exact H. reflexivity. Qed.

Lemma normalize_lstrip s : normalize (lstrip s) = normalize s.
Proof.
  destruct (lstrip_split s) as (w & H & Hw & _).
  rewrite H at 2. rewrite normalize_blank_front by exact Hw. reflexivity.
Qed.

Lemma normalize_blank w : blank w -> normalize w = [].
Proof.
  intros H. rewrite <- (app_nil_r w), normalize_blank_front by exact H. reflexivity.
Qed.

(** A field with a non-empty normalised text has a first solid character. *)
Lemma field_first_char y :
  0 < len (normalize y) ->
  exists w c a, y = w ++ c :: a /\ blank w /\ is_space c = false /\
                normalize (c :: a) = normalize y.
Proof.
  intros H. destruct (lstrip_split y) as (w & Hy & Hw & Hs).
  destruct (lstrip y) as [|c a] eqn:E.
  - exfalso. rewrite app_nil_r in Hy. subst y.
    rewrite normalize_blank in H by exact Hw. change (len (@nil ascii)) with 0 in H. lia.
  - exists w, c, a. repeat split; try assumption.
    rewrite <- E. apply normalize_lstrip.
Qed.

(** ** The words of a text *)




(** Every text has its words. *)
Lemma first_word s :
  exists w s', s = w ++ s' /\ Forall (fun ch => is_space ch = false) w /\ starts_blank s'.
Proof.
  induction s as [|c s IH].
  - exists [], []. repeat split. constructor.
  - destruct (is_space c) eqn:E.
    + exists [], (c :: s). repeat split; [constructor | exact E].
    + destruct IH as (w & s' & -> & Hw & Hs). exists (c :: w), s'.
      repeat split; [constructor; assumption | exact Hs].
Qed.

Lemma words_of_total :
  forall n g, (length g <= n)%nat -> exists ws, words_of g ws.
Proof.
  induction n as [|n IH]; intros g Hn.
  - destruct g; [|simpl in Hn; lia]. exists []. apply words_none. constructor.
  - destruct (lstrip_split g) as (b & Hg & Hb & Hs).
    destruct (lstrip g) as [|c r] eqn:El.
    + exists []. rewrite Hg, app_nil_r. apply words_none, Hb.
    + destruct (first_word r) as (w & s' & -> & Hw & Hs').
      destruct (IH s') as (ws & Hws).
      { rewrite Hg in Hn. rewrite !length_app in Hn. simpl in Hn.
        rewrite length_app in Hn. lia. }
      exists ((c :: w) :: ws). rewrite Hg.
      change (c :: w ++ s') with ((c :: w) ++ s').
      apply words_next; try assumption.
      split; [discriminate | constructor; [exact Hs | exact Hw]].
Qed.

(** ** One item of a well-formed section *)

Lemma letters_not_after (name b t : str) :
  name <> [] -> Forall (fun c => is_alpha c = true) name -> b <> [] ->
  filter is_alpha t = name ->
  filter is_alpha (b ++ t) <> firstn (length name) (b ++ t).
Proof.
  intros Hn Ha Hb Ht E. rewrite filter_app, Ht in E.
  destruct name as [|n0 nm]; [contradiction|]. destruct b as [|c b]; [contradiction|].
  assert (L : filter is_alpha (c :: b) = []).
  { apply (f_equal (@length ascii)) in E. rewrite length_app in E.
    pose proof (firstn_le_length (length (n0 :: nm)) ((c :: b) ++ t)) as Hl.
    destruct (filter is_alpha (c :: b)); [reflexivity | simpl in *; lia]. }
  rewrite L in E. simpl in E. inversion E as [[E0 E1]]. subst c.
  inversion Ha as [|? ? Hn0 _]; subst. simpl in L. rewrite Hn0 in L. discriminate.
Qed.

Lemma letters_in_prefix (name t h1 h2 : str) :
  name <> [] -> Forall (fun c => is_alpha c = true) name ->
  name ++ t = h1 ++ h2 -> h1 <> [] ->
  (0 < length (filter is_alpha h1))%nat.
Proof.
  intros Hn Ha E Hh. destruct name as [|n0 nm]; [contradiction|].
  destruct h1 as [|c h1]; [contradiction|]. inversion E; subst.
  inversion Ha as [|? ? Hc _]; subst. simpl. rewrite Hc. simpl. lia.
Qed.

Section Items.

Variable name : str.
Variable marker : option str.
Hypothesis name_alpha : Forall (fun c => is_alpha c = true) name.
Hypothesis name_nonempty : name <> [].
Hypothesis marker_letters : marker_ok marker.

Lemma label_head_letters j : 0 < j -> filter is_alpha (label_head name j) = name.
Proof.
  intros Hj. unfold label_head. rewrite !filter_app.
  rewrite (filter_all _ name) by exact name_alpha.
  rewrite (filter_none _ (str_of_int j))
    by (eapply forall_weaken; [apply digit_not_alpha | apply str_of_int_digits, Hj]).
  simpl. apply app_nil_r.
Qed.

Lemma label_head_digits j : 0 < j -> filter is_digit (label_head name j) = str_of_int j.
Proof.
  intros Hj. unfold label_head. rewrite !filter_app.
  rewrite (filter_none _ name)
    by (eapply forall_weaken; [apply alpha_not_digit | exact name_alpha]).
  rewrite (filter_all _ (str_of_int j)) by (apply str_of_int_digits, Hj).
  reflexivity.
Qed.

Lemma label_head_not_letters j : 0 < j -> ~ Forall (fun c => is_alpha c = true) (label_head name j).
Proof.
  intros Hj H. unfold label_head in H. apply Forall_app in H. destruct H as [_ H].
  inversion H as [|? ? Hc _]. discriminate.
Qed.

(** Nothing label-shaped starts before a label head... *)
Lemma shaped_not_after i j b :
  0 < i -> 0 < j -> b <> [] -> ~ label_shaped name i (b ++ label_head name j).
Proof.
  intros Hi Hj Hb Hs.
  apply (letters_not_after name b (label_head name j)); try assumption.
  - apply label_head_letters, Hj.
  - apply (label_shaped_letters name name_alpha i _ Hi Hs).
Qed.

(** ... or inside one, or at the head of another label. *)
Lemma shaped_not_tail i j h1 h2 :
  0 < i -> 0 < j -> j <> i ->
  label_head name j = h1 ++ h2 -> ~ label_shaped name i h2.
Proof.
  intros Hi Hj Hne E Hs. destruct h1 as [|c h1].
  - simpl in E. subst h2.
    pose proof (label_shaped_digits name name_alpha i _ Hi Hs) as D.
    rewrite label_head_digits in D by exact Hj.
    apply str_of_int_inj in D; [contradiction | assumption | assumption].
  - pose proof (label_shaped_letters name name_alpha i _ Hi Hs) as L.
    pose proof (label_shaped_length name i _ Hs) as Ln.
    apply (f_equal (@length ascii)) in L. rewrite length_firstn in L.
    pose proof (label_head_letters j Hj) as T. rewrite E, filter_app in T.
    apply (f_equal (@length ascii)) in T. rewrite length_app in T.
    assert (P : (0 < length (filter is_alpha (c :: h1)))%nat).
    { apply (letters_in_prefix name (§" " ++ str_of_int j) (c :: h1) h2);
        [assumption | assumption | exact E | discriminate]. }
    lia.
Qed.

(** Where the text before the first colon is not label-shaped, the label
    pattern fails. *)
Lemma label_fails i s :
  0 < i ->
  pos_ok (fun w => ~ label_shaped name i w) s ->
  forall (R : Type) g (k : str -> option str -> option R),
    exec (label_re name i) s g k = None.
Proof.
  intros Hi Hp R g k. destruct (exec (label_re name i) s g k) as [x|] eqn:E; [|reflexivity].
  exfalso. apply (label_re_inv name name_alpha) in E; [|exact Hi].
  destruct E as (w & r & Hw & Hs & _). unfold pos_ok in Hp. rewrite Hw in Hp. auto.
Qed.

Lemma ci_match_app_inv l1 l2 l' :
  ci_match (l1 ++ l2) l' ->
  exists l1' l2', l' = l1' ++ l2' /\ ci_match l1 l1' /\ ci_match l2 l2'.
Proof.
  unfold ci_match. intros H. apply Forall2_app_inv_l in H.
  destruct H as (l1' & l2' & H1 & H2 & E). exists l1', l2'. auto.
Qed.

(** Where the text before the first colon does not read as the marker, the
    marker literal fails. *)
Lemma marker_fails body s :
  Forall (fun c => is_alpha c = true) body ->
  pos_ok (fun w => ~ ci_match body w) s ->
  forall (R : Type) g (k : str -> option str -> option R),
    exec (lit (body ++ §":")) s g k = None.
Proof.
  intros Hb Hp R g k.
  destruct (exec (lit (body ++ §":")) s g k) as [x|] eqn:E; [|reflexivity].
  exfalso. apply exec_lit_inv in E. destruct E as (l' & r & -> & Hm & _).
  apply ci_match_app_inv in Hm. destruct Hm as (b' & c' & -> & Hb' & Hc').
  destruct c' as [|c' rc]; [inversion Hc'|].
  apply ci_match_colon in Hc'. destruct Hc' as [Hc ->].
  assert (A : Forall (fun c => is_alpha c = true) b').
  { clear Hp. induction Hb' as [|a c l l' Hac Hl IH]; [constructor|].
    inversion Hb; subst. constructor; [|auto].
    rewrite (ci_eq_alpha _ _ Hac). assumption. }
  unfold pos_ok in Hp. rewrite <- app_assoc in Hp. simpl in Hp.
  rewrite before_colon_here in Hp; [auto | apply alpha_colon_free, A | exact Hc].
Qed.

Lemma or_else_unit (o : option unit) : or_else o (Some tt) = Some tt.
Proof. destruct o as [[]|]; reflexivity. Qed.

(** The lookahead fails at a position that is not the end and whose text
    before the first colon is neither the next label nor the marker. *)
Lemma stop_fails i s :
  0 < i ->
  pos_ok (not_a_stop name marker i) s ->
  at_eos s = false ->
  looks_not (stop_re name marker i) s.
Proof.
  intros Hi Hp He g. unfold stop_re. rewrite exec_Alt.
  rewrite (label_fails (i + 1) s); [|lia|].
  - simpl or_else. destruct marker as [m|].
    + destruct marker_letters as (body & -> & Hb).
      rewrite exec_Alt, (marker_fails body s Hb).
      * simpl. rewrite He. reflexivity.
      * unfold pos_ok, not_a_stop in *. destruct (before_colon s); [|exact I].
        intros Hm. apply (proj2 Hp). exists body. auto.
    + simpl. rewrite He. reflexivity.
  - unfold pos_ok, not_a_stop in *. destruct (before_colon s); tauto.
Qed.

(** The lookahead holds at the next label, and at the end. *)
Lemma stop_looks_label i r :
  0 < i -> looks (stop_re name marker i) (label_head name (i + 1) ++ §":" ++ r).
Proof.
  intros Hi g. unfold stop_re. rewrite exec_Alt.
  rewrite (label_re_fwd name unit (i + 1) r g _ tt); [reflexivity | lia | reflexivity].
Qed.

Lemma stop_looks_eos i b : at_eos b = true -> looks (stop_re name marker i) b.
Proof.
  intros He g. unfold stop_re. rewrite exec_Alt.
  destruct marker as [m|].
  - rewrite exec_Alt. simpl (exec Eos _ _ _). rewrite He.
    rewrite or_else_unit. apply or_else_unit.
  - simpl (exec Eos _ _ _). rewrite He. apply or_else_unit.
Qed.

(** The item pattern at the label of item [i]. *)
Lemma match_here_item i w c a b :
  0 < i -> blank w -> is_space c = false ->
  looks (stop_re name marker i) b ->
  all_positions (looks_not (stop_re name marker i)) a b ->
  match_here (section_pattern name marker i)
    (label_head name i ++ §":" ++ w ++ c :: a ++ b) =
  Some (mkMatch (Some (c :: a))).
Proof.
  intros Hi Hw Hc Hb Ha. unfold match_here, section_pattern, item_re.
  rewrite exec_Cat. apply (label_re_fwd name); [exact Hi|].
  rewrite exec_Cat. apply exec_ws_star_fwd; [exact Hw | exact Hc|].
  apply exec_capture; [exact Hb | exact Ha | reflexivity].
Qed.

Lemma match_here_fails i s :
  0 < i ->
  pos_ok (fun w => ~ label_shaped name i w) s ->
  match_here (section_pattern name marker i) s = None.
Proof.
  intros Hi Hp. unfold match_here, section_pattern, item_re.
  rewrite exec_Cat. apply label_fails; assumption.
Qed.

End Items.

Lemma re_search_skip r pre rest :
  all_positions (fun s => match_here r s = None) pre rest ->
  re_search r (pre ++ rest) = re_search r rest.
Proof.
  induction pre as [|c pre IH]; intros H; [reflexivity|].
  simpl. rewrite (all_positions_head _ _ _ _ H).
  apply IH. apply (all_positions_tail _ _ _ _ H).
Qed.

Lemma re_search_here r s m : match_here r s = Some m -> re_search r s = Some m.
Proof. intros H. destruct s; simpl; rewrite H; reflexivity. Qed.

Lemma all_positions_impl (P Q : str -> Prop) pre rest :
  (forall s, P s -> Q s) -> all_positions P pre rest -> all_positions Q pre rest.
Proof. intros H Hp a b E Hb. apply H. apply (Hp a b); assumption. Qed.

(** ** A whole well-formed section *)

Lemma render_items_step name j y ys :
  render_items name j (y :: ys) =
  (name ++ §" " ++ str_of_int j ++ §":") ++ y ++ render_items name (j + 1) ys.
Proof. cbn [render_items]. rewrite <- !app_assoc. reflexivity. Qed.

Lemma render_items_app name ys1 :
  forall j ys2,
    render_items name j (ys1 ++ ys2) =
    render_items name j ys1 ++ render_items name (j + len ys1) ys2.
Proof.
  induction ys1 as [|y ys1 IH]; intros j ys2.
  - simpl. change (len (@nil str)) with 0. rewrite Z.add_0_r. reflexivity.
  - change ((y :: ys1) ++ ys2) with (y :: ys1 ++ ys2).
    rewrite !render_items_step, IH, <- !app_assoc.
    replace (j + 1 + len ys1) with (j + len (y :: ys1))
      by (unfold len; simpl length; lia).
    reflexivity.
Qed.

(** The end of the last field: what [$] leaves out. *)
Lemma eos_split a' :
  exists a b,
    a' = a ++ b /\ at_eos b = true /\ blank b /\
    all_positions (fun s => at_eos s = false) a b.
Proof.
  induction a' as [|x t IH].
  - exists [], []. repeat split; [constructor | apply all_positions_nil].
  - destruct IH as (a & b & Ht & Hb & Hw & Ha). destruct t as [|x' t'].
    + destruct (Ascii.eqb x newline) eqn:E.
      * apply Ascii.eqb_eq in E. subst x.
        exists [], [newline]. repeat split; [repeat constructor | apply all_positions_nil].
      * exists [x], []. repeat split; [constructor|].
        apply all_positions_cons; [simpl; exact E | apply all_positions_nil].
    + exists (x :: a), b. repeat split; try assumption.
      * simpl. f_equal. exact Ht.
      * apply all_positions_cons; [|exact Ha].
        rewrite <- Ht. reflexivity.
Qed.

Lemma at_eos_long (a b : str) : a <> [] -> b <> [] -> at_eos (a ++ b) = false.
Proof.
  intros Ha Hb. destruct a as [|x a]; [contradiction|].
  destruct a as [|x' a]; simpl; [destruct b; [contradiction | reflexivity] | reflexivity].
Qed.

Lemma label_line_nonempty name j r : name <> [] -> label_head name j ++ §":" ++ r <> [].
Proof. intros Hn. unfold label_head. destruct name; [contradiction | discriminate]. Qed.

Section Sections.

Variable name : str.
Variable marker : option str.
Variable markers : list str.
Variable minimum : Z.
Hypothesis name_alpha : Forall (fun c => is_alpha c = true) name.
Hypothesis name_nonempty : name <> [].
Hypothesis marker_letters : marker_ok marker.
Hypothesis marker_listed : forall body, marker = Some (body ++ §":") -> In body markers.
Hypothesis minimum_nonneg : 0 <= minimum.

Lemma not_a_stop_after i b :
  0 < i -> b <> [] -> not_a_stop name marker i (b ++ label_head name (i + 1)).
Proof.
  intros Hi Hb. split.
  - apply shaped_not_after; [exact name_alpha | exact name_nonempty | lia | lia | exact Hb].
  - unfold marker_shaped. destruct marker as [m|]; [|tauto].
    intros (body & -> & Hm).
    destruct marker_letters as (body' & E & Ha).
    apply app_inj_tail in E. destruct E as [<- _].
    assert (A : Forall (fun c => is_alpha c = true) (b ++ label_head name (i + 1))).
    { clear - Hm Ha. induction Hm as [|a c l l' Hac Hl IH]; [constructor|].
      inversion Ha; subst. constructor; [|auto].
      rewrite (ci_eq_alpha _ _ Hac). assumption. }
    apply Forall_app in A. destruct A as [_ A].
    apply (label_head_not_letters name (i + 1)) in A; [exact A | lia].
Qed.

(** In a usable field no text before a colon is a label of the section or
    the marker. *)
Lemma field_not_label i y :
  0 < i -> harmless name markers y = true ->
  inner_ok (fun w => ~ label_shaped name i w) y.
Proof.
  intros Hi H. apply (inner_ok_impl (fun w => stops name markers w = false)).
  - intros w Hw. apply (stops_not_label name markers i w Hi Hw).
  - apply harmless_inner, H.
Qed.

Lemma field_not_stop i y :
  0 < i -> harmless name markers y = true ->
  inner_ok (not_a_stop name marker i) y.
Proof.
  intros Hi H. apply (inner_ok_impl (fun w => stops name markers w = false)).
  - intros w Hw. split.
    + apply (stops_not_label name markers (i + 1) w); [lia | exact Hw].
    + unfold marker_shaped. destruct marker as [m|]; [|tauto].
      intros (body & -> & Hm).
      apply (stops_not_marker name markers body w); [|exact Hw | exact Hm].
      apply marker_listed. reflexivity.
  - apply harmless_inner, H.
Qed.

(** The captured text of item [i], given what follows its field. *)
Lemma capture_of_field i y post :
  0 < i -> field_ok name markers minimum y ->
  (post = [] \/ exists r, post = label_head name (i + 1) ++ §":" ++ r) ->
  exists g,
    match_here (section_pattern name marker i) (label_head name i ++ §":" ++ y ++ post)
    = Some (mkMatch (Some g)) /\
    normalize g = normalize y.
Proof.
  intros Hi [Hy Hm] Hpost.
  pose proof (field_not_stop i y Hi Hy) as Hin.
  destruct (field_first_char y) as (w & c & a' & -> & Hw & Hc & Hn); [lia|].
  assert (Hin' : inner_ok (not_a_stop name marker i) a').
  { apply (inner_ok_tail _ (w ++ [c])). rewrite <- app_assoc. exact Hin. }
  destruct Hpost as [-> | (r & ->)].
  - destruct (eos_split a') as (a & b & -> & Hb & Hbw & Ha).
    exists (c :: a). split.
    + rewrite app_nil_r.
      apply match_here_item; try assumption.
      * apply stop_looks_eos; [exact marker_letters | exact Hb].
      * intros a1 a2 E Hne.
        apply stop_fails;
          [exact name_alpha | exact marker_letters | exact Hi | | apply (Ha a1 a2 E Hne)].
        apply (inner_ok_position _ a1). subst a. rewrite <- app_assoc in Hin'. exact Hin'.
    + rewrite <- Hn. change (c :: a ++ b) with ((c :: a) ++ b).
      symmetry. apply normalize_blank_end. exact Hbw.
  - exists (c :: a'). split; [|exact Hn].
    replace ((w ++ c :: a') ++ label_head name (i + 1) ++ §":" ++ r)
      with (w ++ c :: a' ++ label_head name (i + 1) ++ §":" ++ r)
      by (rewrite <- app_assoc; reflexivity).
    apply match_here_item; try assumption.
    + apply stop_looks_label; assumption.
    + intros a1 a2 E Hne.
      apply stop_fails;
        [exact name_alpha | exact marker_letters | exact Hi |
        | apply at_eos_long; [exact Hne | apply label_line_nonempty; exact name_nonempty]].
      refine (field_positions (not_a_stop name marker i) a'
                (label_head name (i + 1) ++ §":" ++ r) Hin' _ a1 a2 E Hne).
      intros b Hb Hcb. unfold pos_ok.
      replace (b ++ label_head name (i + 1) ++ §":" ++ r)
        with ((b ++ label_head name (i + 1)) ++ ":"%char :: r)
        by (rewrite <- app_assoc; reflexivity).
      rewrite before_colon_here; [apply not_a_stop_after; assumption | | reflexivity].
      apply colon_free_app. split; [exact Hcb|].
      apply (label_head_colon_free name name_alpha). lia.
Qed.

Lemma fields_not_label i ys :
  0 < i -> Forall (field_ok name markers minimum) ys ->
  Forall (inner_ok (fun w => ~ label_shaped name i w)) ys.
Proof.
  intros Hi. apply Forall_impl. intros y [H _]. apply field_not_label; assumption.
Qed.

(** Item [1 + len ys1] of a section is found, and only its own field is
    captured. *)
Lemma item_in_section gap ys1 y ys2 :
  colon_free gap ->
  Forall (field_ok name markers minimum) ys1 ->
  field_ok name markers minimum y ->
  item_found (section_pattern name marker (1 + len ys1))
             (gap ++ render_items name 1 (ys1 ++ y :: ys2)) minimum =
  Some (normalize y).
Proof.
  intros Hgap Hys1 Hy.
  pose proof (len_nonneg _ ys1) as Hl.
  set (i := 1 + len ys1) in *.
  assert (Hi : 0 < i) by (subst i; lia).
  set (post := render_items name (i + 1) ys2).
  assert (Hpost : post = [] \/ exists r, post = label_head name (i + 1) ++ §":" ++ r).
  { subst post. destruct ys2 as [|y2 ys2]; [left; reflexivity|].
    right. rewrite render_items_cons, <- app_assoc. eauto. }
  destruct (capture_of_field i y post Hi Hy Hpost) as (g & Hm & Hg).
  assert (E : gap ++ render_items name 1 (ys1 ++ y :: ys2) =
              (gap ++ render_items name 1 ys1) ++ label_head name i ++ §":" ++ y ++ post).
  { rewrite render_items_app. fold i. rewrite render_items_cons.
    rewrite <- !app_assoc. reflexivity. }
  unfold item_found. rewrite E, re_search_skip.
  - rewrite (re_search_here _ _ _ Hm). cbn [group1]. rewrite Hg.
    destruct Hy as [_ Hy]. apply Z.ltb_lt in Hy. rewrite Hy. reflexivity.
  - apply (all_positions_impl (pos_ok (fun w => ~ label_shaped name i w))).
    + intros s Hs. apply match_here_fails; assumption.
    + apply gap_region_positions; try assumption; try lia.
      * intros b j Hj Hb Hc.
        apply shaped_not_after; assumption.
      * intros b Hb Hc. unfold pos_ok.
        replace (b ++ label_head name i ++ §":" ++ y ++ post)
          with ((b ++ label_head name i) ++ ":"%char :: y ++ post)
          by (rewrite <- app_assoc; reflexivity).
        rewrite before_colon_here;
          [apply shaped_not_after; assumption | | reflexivity].
        apply colon_free_app. split; [exact Hc|].
        apply label_head_colon_free; assumption.
      * apply fields_not_label; assumption.
      * intros j' h1 h2 Hj' Eh.
        apply (shaped_not_tail name name_alpha name_nonempty i j' h1 h2);
          [exact Hi | lia | subst i; lia | exact Eh].
Qed.

Lemma section_items_from gap ys2 :
  forall ys1,
    colon_free gap ->
    Forall (field_ok name markers minimum) (ys1 ++ ys2) ->
    flat_map
      (fun i =>
         found_list
           (item_found (section_pattern name marker i)
                       (gap ++ render_items name 1 (ys1 ++ ys2)) minimum))
      (range (1 + len ys1) (len (ys1 ++ ys2) + 1)) =
    map normalize ys2.
Proof.
  induction ys2 as [|y ys2 IH]; intros ys1 Hgap Hys.
  - rewrite app_nil_r, range_empty by lia. reflexivity.
  - pose proof (len_nonneg _ ys2) as Hl2.
    assert (Hl : len (ys1 ++ y :: ys2) = len ys1 + 1 + len ys2)
      by (unfold len; rewrite length_app; simpl length; lia).
    rewrite range_cons by lia. cbn [flat_map map].
    apply Forall_app in Hys. destruct Hys as [Hys1 Hys2].
    inversion Hys2 as [|? ? Hy Hys2']; subst.
    rewrite item_in_section; [|exact Hgap | exact Hys1 | exact Hy].
    cbn [found_list app]. f_equal.
    specialize (IH (ys1 ++ [y]) Hgap).
    rewrite <- app_assoc in IH. cbn [app] in IH.
    replace (1 + len (ys1 ++ [y])) with (1 + len ys1 + 1) in IH
      by (unfold len; rewrite length_app; simpl length; lia).
    apply IH. apply Forall_app. split; [exact Hys1 | exact Hys2].
Qed.

(** A well-formed section yields the normalised text of each of its fields,
    in order. *)
Lemma section_items_grammar gap ys :
  colon_free gap ->
  Forall (field_ok name markers minimum) ys ->
  section_items (section_pattern name marker) (gap ++ render_items name 1 ys)
                minimum (len ys) =
  map normalize ys.
Proof.
  intros Hgap Hys. unfold section_items.
  apply (section_items_from gap ys []); assumption.
Qed.

End Sections.

(** ** Finding the markers of a well-formed reply *)

Lemma starts_with_inv sub : forall s, starts_with sub s = true -> exists r, s = sub ++ r.
Proof.
  induction sub as [|a sub IH]; intros s H.
  - exists s. reflexivity.
  - destruct s as [|b s]; [discriminate|]. simpl in H.
    apply andb_true_iff in H. destruct H as [Hab H].
    apply Ascii.eqb_eq in Hab. subst b.
    destruct (IH s H) as (r & ->). exists r. reflexivity.
Qed.

(** Upper-casing and lengths *)

Lemma upper_app a b : upper (a ++ b) = upper a ++ upper b.
Proof. unfold upper. apply flat_map_app. Qed.

Lemma upper_char_length c : (1 <= length (upper_char c))%nat.
Proof. unfold upper_char. destruct (Ascii.eqb c sharp_s); simpl; lia. Qed.

Lemma upper_length s : (length s <= length (upper s))%nat.
Proof.
  induction s as [|c s IH]; simpl; [lia|].
  rewrite length_app. pose proof (upper_char_length c). lia.
Qed.

(** A text keeps its length when upper-cased if and only if it has no sharp
    s, and it is then upper-cased character by character. *)
Lemma upper_same_length s :
  len (upper s) = len s -> upper s = map upper1 s.
Proof.
  unfold len. induction s as [|c s IH]; intros H; [reflexivity|].
  change (upper (c :: s)) with (upper_char c ++ upper s) in *.
  rewrite length_app in H. simpl length in H.
  pose proof (upper_length s) as L. unfold upper_char in *.
  destruct (Ascii.eqb c sharp_s); simpl in H |- *; [lia|].
  rewrite IH by lia. reflexivity.
Qed.

Lemma upper_no_sharp s :
  Forall (fun c => Ascii.eqb c sharp_s = false) s -> len (upper s) = len s.
Proof.
  unfold len. induction 1 as [|c s Hc _ IH]; [reflexivity|].
  change (upper (c :: s)) with (upper_char c ++ upper s).
  unfold upper_char. rewrite Hc. simpl. lia.
Qed.

Lemma same_length_app a b :
  len (upper (a ++ b)) = len (a ++ b) -> len (upper a) = len a /\ len (upper b) = len b.
Proof.
  rewrite upper_app, !len_app. unfold len.
  pose proof (upper_length a). pose proof (upper_length b). lia.
Qed.

Lemma before_colon_upper s :
  before_colon (map upper1 s) = option_map (map upper1) (before_colon s).
Proof.
  induction s as [|c s IH]; simpl; [reflexivity|].
  rewrite upper_colon, IH. destruct (is_colon c); [reflexivity|].
  destruct (before_colon s); reflexivity.
Qed.

Lemma upper_alpha c : is_alpha (upper1 c) = true -> is_alpha c = true.
Proof. intros H. classes. Qed.

Lemma find_nat_here s sub : starts_with sub s = true -> find_nat s sub = Some O.
Proof. intros H. destruct s; simpl; rewrite H; reflexivity. Qed.

Lemma find_nat_skip sub pre rest :
  all_positions (fun s => starts_with sub (map upper1 s) = false) pre rest ->
  find_nat (map upper1 (pre ++ rest)) sub =
  option_map (Nat.add (length pre)) (find_nat (map upper1 rest) sub).
Proof.
  induction pre as [|c pre IH]; intros H.
  - simpl. destruct (find_nat (map upper1 rest) sub); reflexivity.
  - pose proof (all_positions_head _ _ _ _ H) as Hc. cbv beta in Hc.
    change (map upper1 ((c :: pre) ++ rest)) with (upper1 c :: map upper1 (pre ++ rest)).
    change (map upper1 (c :: pre ++ rest)) with (upper1 c :: map upper1 (pre ++ rest)) in Hc.
    cbn [find_nat]. rewrite Hc, IH by (apply (all_positions_tail _ _ _ _ H)).
    destruct (find_nat (map upper1 rest) sub); reflexivity.
Qed.

Lemma find_at sub pre rest :
  all_positions (fun s => starts_with sub (map upper1 s) = false) pre rest ->
  starts_with sub (map upper1 rest) = true ->
  find (map upper1 (pre ++ rest)) sub = len pre.
Proof.
  intros Hp Hr. unfold find. rewrite find_nat_skip by exact Hp.
  rewrite (find_nat_here _ _ Hr). simpl. unfold len. f_equal. lia.
Qed.

(** A marker does not start where the text before the first colon does not
    read as the marker. *)
Lemma marker_absent body s :
  pos_ok (fun w => map upper1 w <> body) s ->
  Forall (fun c => is_alpha c = true) body ->
  starts_with (body ++ §":") (map upper1 s) = false.
Proof.
  intros Hp Hb. destruct (starts_with (body ++ §":") (map upper1 s)) eqn:E; [|reflexivity].
  exfalso. apply starts_with_inv in E. destruct E as (r & E).
  pose proof (before_colon_upper s) as U. rewrite E, <- app_assoc in U.
  simpl in U. rewrite before_colon_here in U;
    [|apply alpha_colon_free, Hb | reflexivity].
  unfold pos_ok in Hp. destruct (before_colon s) as [w|]; [|discriminate].
  simpl in U. inversion U as [Hw]. apply Hp. symmetry. exact Hw.
Qed.

Lemma upper_letters w body :
  Forall (fun c => is_alpha c = true) body -> map upper1 w = body ->
  Forall (fun c => is_alpha c = true) w.
Proof.
  intros Hb E. rewrite <- E in Hb. apply Forall_map in Hb.
  eapply forall_weaken; [|exact Hb]. intros c. apply upper_alpha.
Qed.

(** A capital letter is the capital of its two cases only. *)
Lemma upper1_ci a c :
  is_alpha a = true -> upper1 a = a -> upper1 c = a -> ci_eq a c = true.
Proof.
  intros Ha Hu Hc. apply (f_equal code) in Hu. apply (f_equal code) in Hc.
  apply ci_eq_code. classes.
Qed.

Lemma upper_ci_match body :
  Forall (fun a => is_alpha a = true /\ upper1 a = a) body ->
  forall w, map upper1 w = body -> ci_match body w.
Proof.
  induction 1 as [|a body [Ha Hu] _ IH]; intros w E.
  - destruct w; [constructor | discriminate].
  - destruct w as [|c w]; [discriminate|]. simpl in E. inversion E as [[Ec Ew]].
    constructor; [|rewrite Ew; apply IH; exact Ew].
    rewrite Ec. apply upper1_ci; [rewrite <- Ec | rewrite <- Ec | exact Ec].
    + rewrite Ec. exact Ha.
    + rewrite Ec. exact Hu.
Qed.

(** A usable field holds none of its markers. *)
Lemma harmless_no_marker name markers body y :
  In body markers ->
  Forall (fun a => is_alpha a = true /\ upper1 a = a) body ->
  harmless name markers y = true ->
  inner_ok (fun w => map upper1 w <> body) y.
Proof.
  intros Hin Hb H. apply (inner_ok_impl (fun w => stops name markers w = false)).
  - intros w Hw E. apply (stops_not_marker name markers body w Hin Hw).
    apply upper_ci_match; assumption.
  - apply harmless_inner, H.
Qed.

Section Markers.

Variable body : str.
Hypothesis body_alpha : Forall (fun c => is_alpha c = true) body.
Hypothesis body_nonempty : body <> [].

Variable name : str.
Hypothesis name_alpha : Forall (fun c => is_alpha c = true) name.
Hypothesis name_nonempty : name <> [].

Lemma label_tail_not_letters j h1 h2 :
  0 < j -> label_head name j = h1 ++ h2 ->
  ~ (Forall (fun c => is_alpha c = true) h2 /\ length h2 = length body).
Proof.
  intros Hj E [Ha Hl].
  assert (Hne : h2 <> []).
  { intros ->. destruct body; [contradiction | discriminate]. }
  destruct (exists_last Hne) as (h2' & x & ->).
  destruct (exists_last (str_of_int_nonempty j Hj)) as (d' & y & Ed).
  unfold label_head in E. rewrite Ed in E. rewrite !app_assoc in E.
  apply app_inj_tail in E. destruct E as [_ <-].
  apply Forall_app in Ha. destruct Ha as [_ Ha]. inversion Ha as [|? ? Hx _]; subst.
  pose proof (str_of_int_digits j Hj) as D. rewrite Ed in D.
  apply Forall_app in D. destruct D as [_ D]. inversion D as [|? ? Hy _]; subst.
  apply digit_not_alpha in Hy. congruence.
Qed.

(** No marker [body:] starts inside the items of a section, nor in the gap
    before them, when the fields do not hold it and the section is followed
    by a marker that is at least as long. *)
Lemma region_no_marker gap ys body' r' :
  colon_free gap ->
  Forall (inner_ok (fun w => map upper1 w <> body)) ys ->
  colon_free body' ->
  (length body <= length body')%nat ->
  all_positions (fun s => starts_with (body ++ §":") (map upper1 s) = false)
                (gap ++ render_items name 1 ys) (body' ++ §":" ++ r').
Proof.
  intros Hgap Hys Hb' Hl.
  apply (all_positions_impl (pos_ok (fun w => map upper1 w <> body))).
  - intros s Hs. apply marker_absent; assumption.
  - apply gap_region_positions; try assumption; try lia.
    + intros b j Hj Hb Hc E.
      pose proof (upper_letters _ _ body_alpha E) as Ha.
      apply Forall_app in Ha. destruct Ha as [_ Ha].
      apply (label_head_not_letters name j Hj). exact Ha.
    + intros b Hb Hc. unfold pos_ok.
      replace (b ++ body' ++ §":" ++ r') with ((b ++ body') ++ ":"%char :: r')
        by (rewrite <- app_assoc; reflexivity).
      rewrite before_colon_here;
        [|apply colon_free_app; split; assumption | reflexivity].
      intros E. apply (f_equal (@length ascii)) in E.
      rewrite length_map, length_app in E.
      destruct b; [contradiction | simpl in E; lia].
    + intros j' h1 h2 Hj' E E'. apply (label_tail_not_letters j' h1 h2); [lia | exact E|].
      split; [apply (upper_letters _ _ body_alpha E')|].
      rewrite <- E'. rewrite length_map. reflexivity.
Qed.

End Markers.

(** ** Slices of a text at known positions *)

Lemma slice_between (A : Type) (a m c : list A) lo hi :
  lo = len a -> hi = len a + len m ->
  slice (a ++ m ++ c) (Some lo) (Some hi) = m.
Proof.
  intros -> ->. unfold slice, clamp_index.
  pose proof (len_nonneg _ a). pose proof (len_nonneg _ m). pose proof (len_nonneg _ c).
  rewrite !len_app.
  destruct (len a <? 0) eqn:E1; [lia|]. destruct (len a + len m <? 0) eqn:E2; [lia|].
  rewrite !Z.min_l by lia.
  replace (Z.to_nat (len a + len m - len a)) with (length m) by (unfold len; lia).
  replace (Z.to_nat (len a)) with (length a) by (unfold len; lia).
  rewrite skipn_app, skipn_all, Nat.sub_diag. simpl.
  rewrite firstn_app, firstn_all, Nat.sub_diag. simpl. apply app_nil_r.
Qed.

Lemma slice_after (A : Type) (a m : list A) lo :
  lo = len a -> slice (a ++ m) (Some lo) None = m.
Proof.
  intros ->. unfold slice, clamp_index.
  pose proof (len_nonneg _ a). pose proof (len_nonneg _ m).
  rewrite !len_app.
  destruct (len a <? 0) eqn:E1; [lia|].
  rewrite Z.min_l by lia.
  replace (Z.to_nat (len a + len m - len a)) with (length m) by (unfold len; lia).
  replace (Z.to_nat (len a)) with (length a) by (unfold len; lia).
  rewrite skipn_app, skipn_all, Nat.sub_diag. simpl. apply firstn_all.
Qed.

(** ** The three markers of a well-formed reply *)

Ltac letters := repeat constructor.

Ltac literal_positions :=
  repeat (apply all_positions_cons; [reflexivity|]); apply all_positions_nil.

Section Reply.

Variables gap_t gap_d gap_b : str.
Variables ts ds bs : list str.
Hypothesis gap_t_ok : colon_free gap_t.
Hypothesis gap_d_ok : colon_free gap_d.
Hypothesis ts_ok : Forall (fun y => harmless §"Title" title_markers y = true) ts.
Hypothesis ds_ok : Forall (fun y => harmless §"Description" desc_markers y = true) ds.
Hypothesis same_length :
  len (upper (grammar_reply gap_t ts gap_d ds gap_b bs)) =
  len (grammar_reply gap_t ts gap_d ds gap_b bs).

Local Abbreviation RT := (gap_t ++ render_items §"Title" 1 ts).
Local Abbreviation RD := (gap_d ++ render_items §"Description" 1 ds).
Local Abbreviation RB := (gap_b ++ render_items §"Bullet" 1 bs).

Lemma grammar_reply_eq :
  grammar_reply gap_t ts gap_d ds gap_b bs =
  §"TITLES:" ++ RT ++ §"DESCRIPTIONS:" ++ RD ++ §"BULLETS:" ++ RB.
Proof. unfold grammar_reply. rewrite <- !app_assoc. reflexivity. Qed.

Lemma upper_reply :
  upper (grammar_reply gap_t ts gap_d ds gap_b bs) =
  map upper1 (§"TITLES:" ++ RT ++ §"DESCRIPTIONS:" ++ RD ++ §"BULLETS:" ++ RB).
Proof. rewrite (upper_same_length _ same_length), grammar_reply_eq. reflexivity. Qed.

Lemma no_marker_in_fields name markers body ys :
  In body markers ->
  Forall (fun a => is_alpha a = true /\ upper1 a = a) body ->
  Forall (fun y => harmless name markers y = true) ys ->
  Forall (inner_ok (fun w => map upper1 w <> body)) ys.
Proof.
  intros Hin Hb. apply Forall_impl. intros y. apply harmless_no_marker; assumption.
Qed.

Lemma find_titles :
  find (upper (grammar_reply gap_t ts gap_d ds gap_b bs)) §"TITLES:" = 0.
Proof.
  rewrite upper_reply.
  apply (find_at §"TITLES:" []); [apply all_positions_nil | reflexivity].
Qed.

Lemma find_descriptions :
  find (upper (grammar_reply gap_t ts gap_d ds gap_b bs)) §"DESCRIPTIONS:" =
  len (§"TITLES:" ++ RT).
Proof.
  rewrite upper_reply.
  replace (§"TITLES:" ++ RT ++ §"DESCRIPTIONS:" ++ RD ++ §"BULLETS:" ++ RB)
    with ((§"TITLES:" ++ RT) ++ §"DESCRIPTIONS:" ++ RD ++ §"BULLETS:" ++ RB)
    by (rewrite <- app_assoc; reflexivity).
  apply find_at; [|reflexivity].
  apply all_positions_app; [literal_positions|].
  apply (region_no_marker §"DESCRIPTIONS" ltac:(letters) ltac:(discriminate)
           §"Title" ltac:(letters) gap_t ts §"DESCRIPTIONS"
           (RD ++ §"BULLETS:" ++ RB));
    [assumption | | letters | simpl; lia].
  apply (no_marker_in_fields §"Title" title_markers);
    [left; reflexivity | repeat constructor | exact ts_ok].
Qed.

Lemma find_bullets :
  find (upper (grammar_reply gap_t ts gap_d ds gap_b bs)) §"BULLETS:" =
  len (§"TITLES:" ++ RT ++ §"DESCRIPTIONS:" ++ RD).
Proof.
  rewrite upper_reply.
  replace (§"TITLES:" ++ RT ++ §"DESCRIPTIONS:" ++ RD ++ §"BULLETS:" ++ RB)
    with ((§"TITLES:" ++ RT ++ §"DESCRIPTIONS:" ++ RD) ++ §"BULLETS:" ++ RB)
    by (rewrite <- !app_assoc; reflexivity).
  apply find_at; [|reflexivity].
  apply all_positions_app; [literal_positions|].
  apply all_positions_app; [|apply all_positions_app; [literal_positions|]].
  - rewrite <- app_assoc.
    apply (region_no_marker §"BULLETS" ltac:(letters) ltac:(discriminate)
             §"Title" ltac:(letters) gap_t ts §"DESCRIPTIONS"
             (RD ++ §"BULLETS:" ++ RB));
      [assumption | | letters | simpl; lia].
    apply (no_marker_in_fields §"Title" title_markers);
      [right; left; reflexivity | repeat constructor | exact ts_ok].
  - apply (region_no_marker §"BULLETS" ltac:(letters) ltac:(discriminate)
             §"Description" ltac:(letters) gap_d ds §"BULLETS" RB);
      [assumption | | letters | simpl; lia].
    apply (no_marker_in_fields §"Description" desc_markers);
      [left; reflexivity | repeat constructor | exact ds_ok].
Qed.

Lemma titles_section_reply :
  titles_section (grammar_reply gap_t ts gap_d ds gap_b bs) = RT.
Proof.
  unfold titles_section. rewrite find_titles, find_descriptions.
  pose proof (len_nonneg _ (§"TITLES:" ++ RT)) as H.
  destruct (len (§"TITLES:" ++ RT) =? -1) eqn:E; [lia|]. cbn [negb].
  rewrite grammar_reply_eq. apply slice_between; [reflexivity|].
  rewrite len_app. reflexivity.
Qed.

Lemma desc_section_reply :
  desc_section (grammar_reply gap_t ts gap_d ds gap_b bs) = RD.
Proof.
  unfold desc_section. rewrite find_descriptions, find_bullets.
  pose proof (len_nonneg _ (§"TITLES:" ++ RT)) as H1.
  pose proof (len_nonneg _ (§"TITLES:" ++ RT ++ §"DESCRIPTIONS:" ++ RD)) as H2.
  destruct (len (§"TITLES:" ++ RT) =? -1) eqn:E1; [lia|].
  destruct (len (§"TITLES:" ++ RT ++ §"DESCRIPTIONS:" ++ RD) =? -1) eqn:E2; [lia|].
  cbn [negb andb]. rewrite grammar_reply_eq.
  replace (§"TITLES:" ++ RT ++ §"DESCRIPTIONS:" ++ RD ++ §"BULLETS:" ++ RB)
    with ((§"TITLES:" ++ RT ++ §"DESCRIPTIONS:") ++ RD ++ §"BULLETS:" ++ RB)
    by (rewrite <- !app_assoc; reflexivity).
  apply slice_between.
  - rewrite !len_app. change (len §"DESCRIPTIONS:") with 13. lia.
  - rewrite !len_app. lia.
Qed.

Lemma bullets_section_reply :
  bullets_section (grammar_reply gap_t ts gap_d ds gap_b bs) = RB.
Proof.
  unfold bullets_section. rewrite find_bullets.
  pose proof (len_nonneg _ (§"TITLES:" ++ RT ++ §"DESCRIPTIONS:" ++ RD)) as H2.
  destruct (len (§"TITLES:" ++ RT ++ §"DESCRIPTIONS:" ++ RD) =? -1) eqn:E2; [lia|].
  cbn [negb]. rewrite grammar_reply_eq.
  replace (§"TITLES:" ++ RT ++ §"DESCRIPTIONS:" ++ RD ++ §"BULLETS:" ++ RB)
    with ((§"TITLES:" ++ RT ++ §"DESCRIPTIONS:" ++ RD ++ §"BULLETS:") ++ RB)
    by (rewrite <- !app_assoc; reflexivity).
  apply slice_after. rewrite !len_app. change (len §"BULLETS:") with 8. lia.
Qed.

End Reply.

(** ** Occurrences *)

Lemma starts_with_app sub r : starts_with sub (sub ++ r) = true.
Proof.
  induction sub as [|a sub IH]; [reflexivity|].
  simpl. rewrite Ascii.eqb_refl. exact IH.
Qed.

Lemma starts_with_app_r sub s r :
  starts_with sub s = true -> starts_with sub (s ++ r) = true.
Proof.
  intros H. apply starts_with_inv in H. destruct H as (r' & ->).
  rewrite <- app_assoc. apply starts_with_app.
Qed.

Lemma find_nat_cons s sub c :
  find_nat (c :: s) sub =
  if starts_with sub (c :: s) then Some O else option_map S (find_nat s sub).
Proof. reflexivity. Qed.

(** What [find] returns is an occurrence. *)
Lemma find_nat_some s sub :
  forall p, find_nat s sub = Some p ->
            (p <= length s)%nat /\ starts_with sub (skipn p s) = true.
Proof.
  induction s as [|c s IH]; intros p H.
  - simpl in H. destruct (starts_with sub []) eqn:E; [|discriminate].
    inversion H; subst. split; [simpl; lia | exact E].
  - rewrite find_nat_cons in H. destruct (starts_with sub (c :: s)) eqn:E.
    + inversion H; subst. split; [simpl; lia | exact E].
    + destruct (find_nat s sub) as [q|] eqn:F; [|discriminate].
      inversion H; subst. destruct (IH q eq_refl) as [L S']. split; [simpl; lia | exact S'].
Qed.

(** Where [find] returns nothing there is no occurrence. *)
Lemma find_nat_none s sub :
  find_nat s sub = None ->
  forall p, (p <= length s)%nat -> starts_with sub (skipn p s) = false.
Proof.
  induction s as [|c s IH]; intros H p Hp.
  - simpl in H. destruct (starts_with sub []) eqn:E; [discriminate|].
    destruct p; exact E.
  - rewrite find_nat_cons in H. destruct (starts_with sub (c :: s)) eqn:E; [discriminate|].
    destruct (find_nat s sub) eqn:F; [discriminate|].
    destruct p as [|p]; [exact E|]. simpl. apply IH; [reflexivity | simpl in Hp; lia].
Qed.

Lemma find_nat_none_tail c s sub :
  find_nat (c :: s) sub = None ->
  starts_with sub (c :: s) = false /\ find_nat s sub = None.
Proof.
  rewrite find_nat_cons. destruct (starts_with sub (c :: s)); [discriminate|].
  destruct (find_nat s sub); [discriminate | auto].
Qed.

Lemma find_none_iff s sub : find s sub = -1 <-> find_nat s sub = None.
Proof.
  unfold find. destruct (find_nat s sub); split; intros H; try reflexivity;
    try discriminate; lia.
Qed.

Lemma find_zero_iff s sub : find s sub = 0 <-> starts_with sub s = true.
Proof.
  unfold find. split; intros H.
  - destruct (find_nat s sub) as [p|] eqn:E; [|lia].
    assert (p = O) by lia. subst p.
    apply find_nat_some in E. destruct E as [_ E]. exact E.
  - rewrite (find_nat_here _ _ H). reflexivity.
Qed.

(** An occurrence inside a part of the text is an occurrence in the text. *)
Lemma find_nat_inside a m b sub :
  find_nat (a ++ m ++ b) sub = None -> find_nat m sub = None.
Proof.
  intros H. destruct (find_nat m sub) as [p|] eqn:E; [|reflexivity].
  exfalso. apply find_nat_some in E. destruct E as [Lp Sp].
  assert (Hl : (length a + p <= length (a ++ m ++ b))%nat)
    by (rewrite !length_app; lia).
  pose proof (find_nat_none _ _ H (length a + p)%nat Hl) as N.
  rewrite skipn_app in N.
  replace (length a + p - length a)%nat with p in N by lia.
  rewrite skipn_all2 in N by lia. simpl in N.
  rewrite skipn_app in N.
  rewrite (starts_with_app_r _ _ _ Sp) in N. discriminate N.
Qed.

(** [s[i:]] *)
Lemma slice_from (A : Type) (s : list A) (i : nat) :
  (i <= length s)%nat -> slice s (Some (Z.of_nat i)) None = skipn i s.
Proof.
  intros H. unfold slice, clamp_index, len.
  destruct (Z.of_nat i <? 0) eqn:E; [lia|].
  rewrite Z.min_l by lia. rewrite Nat2Z.id.
  apply firstn_all2. rewrite length_skipn. lia.
Qed.

(** ** Where the markers are in the text *)

Lemma slice_inside (A : Type) (l : list A) (n k : nat) :
  (n + k <= length l)%nat ->
  slice l (Some (Z.of_nat n)) (Some (Z.of_nat n + Z.of_nat k)) = firstn k (skipn n l).
Proof.
  intros H. unfold slice, clamp_index, len.
  destruct (Z.of_nat n <? 0) eqn:E1; [lia|].
  destruct (Z.of_nat n + Z.of_nat k <? 0) eqn:E2; [lia|].
  rewrite !Z.min_l by lia.
  replace (Z.to_nat (Z.of_nat n + Z.of_nat k - Z.of_nat n)) with k by lia.
  rewrite Nat2Z.id. reflexivity.
Qed.

(** The indices that the parser finds in the upper-cased text are the
    places of the markers in the text itself when upper-casing keeps the
    length of the text. *)
Lemma marker_in_place text m :
  len (upper text) = len text ->
  find (upper text) m <> -1 ->
  upper (slice text (Some (find (upper text) m)) (Some (find (upper text) m + len m))) = m.
Proof.
  intros Hl Hf. unfold find in *.
  destruct (find_nat (upper text) m) as [n|] eqn:E; [clear Hf | contradiction].
  destruct (find_nat_some _ _ _ E) as [_ S].
  destruct (starts_with_inv _ _ S) as (r & Hr).
  rewrite (upper_same_length _ Hl), skipn_map in Hr.
  assert (Hk : (n + length m <= length text)%nat).
  { apply (f_equal (@length ascii)) in Hr.
    rewrite length_map, length_skipn, length_app in Hr.
    destruct (Nat.le_gt_cases n (length text)) as [L|L]; [lia|].
    destruct m as [|c m]; simpl in *; [|lia].
    rewrite (upper_same_length _ Hl) in E.
    apply find_nat_some in E. rewrite length_map in E. lia. }
  unfold len at 1. rewrite slice_inside by exact Hk.
  assert (Hs : len (upper (firstn (length m) (skipn n text))) =
               len (firstn (length m) (skipn n text))).
  { rewrite <- (firstn_skipn n text) in Hl.
    apply same_length_app in Hl. destruct Hl as [_ Hl].
    rewrite <- (firstn_skipn (length m) (skipn n text)) in Hl.
    apply same_length_app in Hl. apply Hl. }
  rewrite (upper_same_length _ Hs), <- firstn_map, Hr.
  rewrite firstn_app, firstn_all, Nat.sub_diag. simpl. apply app_nil_r.
Qed.

(** ** The model on concrete texts

    The values below are those [re.search] and [parse_gemini_response] give
    on the same inputs. *)

Example search_backtracks_into_blanks :
  re_search trailing_pattern §"a  " = Some (mkMatch (Some §" ")).
Proof. vm_compute. reflexivity. Qed.

Example search_needs_a_character : re_search trailing_pattern §"a" = None.
Proof. vm_compute. reflexivity. Qed.

Example search_stops_before_last_newline :
  re_search trailing_pattern (§"a x" ++ nl ++ nl) = Some (mkMatch (Some (§"x" ++ nl))).
Proof. vm_compute. reflexivity. Qed.

Example search_captures_a_newline :
  re_search trailing_pattern (§"a " ++ nl) = Some (mkMatch (Some nl)).
Proof. vm_compute. reflexivity. Qed.

Example label_ten_is_not_label_one :
  re_search (title_pattern 1) (nl ++ §"Title 10: Great Wireless Mouse" ++ nl) = None.
Proof. vm_compute. reflexivity. Qed.

Example scenario_A_parsed :
  parse_gemini_response scenario_A 1 1 1 =
  ([§"Great Wireless Mouse for Everyday Use"],
   [§"This ergonomic mouse offers long battery life and precision tracking."],
   [§"Long battery life"]).
Proof. vm_compute. reflexivity. Qed.

Example scenario_B_generated :
  generate_via_gemini (Replies scenario_B) (mk_request 2 1 1) =
  Ok {| success := true;
        titles := [§"A short title text here"; §"Generated Title 2"];
        descriptions := [§"Generated Description 1"];
        bullets := [§"Generated Bullet Point 1"] |}.
Proof. vm_compute. reflexivity. Qed.

Example blanks_are_collapsed :
  parse_gemini_response
    (§"TITLES:" ++ nl ++ §"Title 1:   Great    Wireless" ++ nl ++ §"  Mouse  " ++ nl)
    1 0 0 =
  ([§"Great Wireless Mouse"], [], []).
Proof. vm_compute. reflexivity. Qed.

Example negative_count_truncates :
  slice [§"a"; §"b"; §"c"] None (Some (-1)) = [§"a"; §"b"].
Proof. vm_compute. reflexivity. Qed.

(** Characters outside ASCII. *)

Example sharp_s_is_written_twice :
  upper (§"Gro" ++ [sharp_s] ++ §"e Maus") = §"GROSSE MAUS".
Proof. vm_compute. reflexivity. Qed.

(** A sharp s before a marker: the index found in the upper-cased text is
    one too far in the text, the label is cut and no title is found. *)
Example sharp_s_shifts_the_slices :
  find (upper ([sharp_s] ++ §"TITLES:Title 1: abcdefghijk")) §"TITLES:" = 2 /\
  titles_section ([sharp_s] ++ §"TITLES:Title 1: abcdefghijk") = §"itle 1: abcdefghijk" /\
  parse_gemini_response ([sharp_s] ++ §"TITLES:Title 1: abcdefghijk") 1 1 1 = ([], [], []) /\
  parse_gemini_response §"TITLES:Title 1: abcdefghijk" 1 1 1 = ([§"abcdefghijk"], [], []).
Proof. refine (conj _ (conj _ (conj _ _))); vm_compute; reflexivity. Qed.

Example no_break_space_is_blank :
  parse_gemini_response (§"TITLES:" ++ nl ++ §"Title 1: abcdefghij" ++ [nbsp] ++ nl) 1 0 0
    = ([], [], []) /\
  parse_gemini_response
    (§"TITLES:" ++ nl ++ §"Title 1: abcdefghij" ++ [nbsp] ++ §"k" ++ nl) 1 0 0
    = ([§"abcdefghij k"], [], []).
Proof. split; vm_compute; reflexivity. Qed.

(** ** The parser: markers, sections and bounds *)





(** C8. A text in which [TITLES:] does not occur, in any letter case, yields
    three empty lists, whatever else it contains. *)
Theorem no_titles_marker_no_items text tc dc bc :
  find (upper text) §"TITLES:" = -1 ->
  parse_gemini_response text tc dc bc = ([], [], []).
Proof.
  intros H. apply parse_without_titles. exact H.
Qed.

Lemma no_titles_marker_no_items_witness :
  find (upper reply_without_titles) §"TITLES:" = -1 /\
  parse_gemini_response reply_without_titles 1 1 1 = ([], [], []).
Proof.
  split; [reflexivity|].
  apply (no_titles_marker_no_items reply_without_titles 1 1 1). reflexivity.
Defined.

(** C9. The parser returns at most [count] items per section (none when the
    count is not positive), so that truncating the padded lists to the
    requested counts removes nothing. *)
Theorem parsed_counts_bounded text tc dc bc :
  let '(t, d, b) := parse_gemini_response text tc dc bc in
  (len t <= Z.max 0 tc /\ len d <= Z.max 0 dc /\ len b <= Z.max 0 bc) /\
  slice (t ++ placeholders §"Generated Title " (len t) tc) None (Some tc) =
    t ++ placeholders §"Generated Title " (len t) tc /\
  slice (d ++ placeholders §"Generated Description " (len d) dc) None (Some dc) =
    d ++ placeholders §"Generated Description " (len d) dc /\
  slice (b ++ placeholders §"Generated Bullet Point " (len b) bc) None (Some bc) =
    b ++ placeholders §"Generated Bullet Point " (len b) bc.
Proof.
  rewrite parse_gemini_response_eq.
  pose proof (parsed_lengths text tc dc bc) as H.
  destruct (parsed text tc dc bc) as [[t d] b]. destruct H as (Ht & Hd & Hb).
  split; [auto|].
  assert (G : forall prefix (l : list str) c,
             len l <= Z.max 0 c ->
             slice (l ++ placeholders prefix (len l) c) None (Some c) =
             l ++ placeholders prefix (len l) c).
  { intros prefix l c Hl. pose proof (len_nonneg _ l) as Hn.
    destruct (Z.le_gt_cases 0 c) as [Hc|Hc].
    - apply slice_prefix_all. rewrite padded_length. lia.
    - assert (El : l = []) by (apply len_nil_iff; lia). subst l.
      unfold placeholders. rewrite range_empty by (change (len []) with 0; lia).
      simpl. unfold slice. rewrite skipn_nil, firstn_nil. reflexivity. }
  repeat split; apply G; assumption.
Qed.






(** C7, as the code has it.  Each section depends on its own marker only:
    without [DESCRIPTIONS:] the descriptions are empty, the titles slice runs
    to the end of the text, and the bullets are still read from the slice
    after [BULLETS:]; without [BULLETS:] the bullets are empty and the
    descriptions slice runs to the end of the text.  The markers are
    searched in the upper-cased text and the slices are taken in the text at
    the indices found: these are the places of the markers in the text
    whenever upper-casing keeps its length. *)
Theorem missing_marker_sections text tc dc bc :
  let ts := find (upper text) §"TITLES:" in
  let ds := find (upper text) §"DESCRIPTIONS:" in
  let bs := find (upper text) §"BULLETS:" in
  ts <> -1 ->
  (ds = -1 ->
   parse_gemini_response text tc dc bc =
   (section_items title_pattern (slice text (Some (ts + 7)) None) 10 tc,
    [],
    section_items bullet_pattern
      (if bs =? -1 then [] else slice text (Some (bs + 8)) None) 10 bc)) /\
  (bs = -1 ->
   parse_gemini_response text tc dc bc =
   (section_items title_pattern
      (slice text (Some (ts + 7)) (if ds =? -1 then None else Some ds)) 10 tc,
    section_items desc_pattern
      (if ds =? -1 then [] else slice text (Some (ds + 13)) None) 20 dc,
    [])) /\
  (len (upper text) = len text ->
   upper (slice text (Some ts) (Some (ts + 7))) = §"TITLES:" /\
   (ds <> -1 -> upper (slice text (Some ds) (Some (ds + 13))) = §"DESCRIPTIONS:") /\
   (bs <> -1 -> upper (slice text (Some bs) (Some (bs + 8))) = §"BULLETS:")).
Proof.
  intros ts ds bs Hts.
  rewrite parse_gemini_response_eq. unfold parsed. fold ts.
  destruct (ts =? -1) eqn:E; [apply Z.eqb_eq in E; contradiction|].
  unfold titles_section, desc_section, bullets_section. fold ts ds bs.
  split; [|split]; [intros H; rewrite H; cbn [Z.eqb negb andb] ..|].
  - rewrite (section_items_nil _ _ _ desc_pattern_item).
    destruct (bs =? -1); reflexivity.
  - rewrite (section_items_nil _ _ _ bullet_pattern_item).
    destruct (ds =? -1); reflexivity.
  - intros Hl. split; [|split].
    + apply (marker_in_place text §"TITLES:" Hl Hts).
    + intros Hds. apply (marker_in_place text §"DESCRIPTIONS:" Hl Hds).
    + intros Hbs. apply (marker_in_place text §"BULLETS:" Hl Hbs).
Qed.

Lemma missing_marker_sections_witness :
  parse_gemini_response reply_without_descriptions 1 1 1 =
    ([§"Great Wireless Mouse BULLETS: Bullet 1: Long battery life"], [],
     [§"Long battery life"]) /\
  parse_gemini_response reply_without_bullets 1 1 1 =
    ([§"Great Wireless Mouse"],
     [§"This ergonomic mouse offers long battery life."], []) /\
  upper (slice reply_without_bullets (Some 0) (Some 7)) = §"TITLES:".
Proof.
  split; [|split].
  - pose proof (missing_marker_sections reply_without_descriptions 1 1 1) as H.
    cbv zeta in H. destruct H as [H _]; [vm_compute; discriminate|].
    rewrite H by (vm_compute; reflexivity). vm_compute. reflexivity.
  - pose proof (missing_marker_sections reply_without_bullets 1 1 1) as H.
    cbv zeta in H. destruct H as (_ & H & _); [vm_compute; discriminate|].
    rewrite H by (vm_compute; reflexivity). vm_compute. reflexivity.
  - pose proof (missing_marker_sections reply_without_bullets 1 1 1) as H.
    cbv zeta in H. destruct H as (_ & _ & H); [vm_compute; discriminate|].
    exact (proj1 (H ltac:(vm_compute; reflexivity))).
Defined.

(** C7 as stated fails: this reply has [TITLES:] and [BULLETS:] but no
    [DESCRIPTIONS:], and its bullet is parsed. *)
Lemma missing_descriptions_keeps_bullets :
  find (upper reply_without_descriptions) §"TITLES:" <> -1 /\
  find (upper reply_without_descriptions) §"DESCRIPTIONS:" = -1 /\
  find (upper reply_without_descriptions) §"BULLETS:" <> -1 /\
  bullets_section reply_without_descriptions <> [] /\
  parse_gemini_response reply_without_descriptions 1 1 1 =
    ([§"Great Wireless Mouse BULLETS: Bullet 1: Long battery life"], [],
     [§"Long battery life"]).
Proof.
  refine (conj _ (conj _ (conj _ (conj _ _)))); vm_compute; congruence.
Qed.

(** ** The result envelope *)

Lemma padded_lengths text request :
  let '(t, d, b) := padded text request in
  len t = Z.max 0 (title_count request) /\
  len d = Z.max 0 (desc_count request) /\
  len b = Z.max 0 (bullet_count request).
Proof.
  unfold padded. rewrite parse_gemini_response_eq.
  pose proof (parsed_lengths text (title_count request) (desc_count request)
                (bullet_count request)) as H.
  destruct (parsed text _ _ _) as [[t d] b]. destruct H as (Ht & Hd & Hb).
  rewrite !padded_length.
  pose proof (len_nonneg _ t). pose proof (len_nonneg _ d). pose proof (len_nonneg _ b).
  lia.
Qed.

Lemma slice_padded (l : list str) count :
  len l = Z.max 0 count -> slice l None (Some count) = l.
Proof.
  intros H. destruct (Z.le_gt_cases 0 count) as [Hc|Hc].
  - apply slice_prefix_all. lia.
  - assert (E : l = []) by (apply len_nil_iff; lia). subst l.
    unfold slice. rewrite skipn_nil, firstn_nil. reflexivity.
Qed.

Lemma positive_len (A : Type) (l : list A) : (0 <? len l) = true <-> l <> [].
Proof.
  rewrite Z.ltb_lt. pose proof (len_nonneg A l). pose proof (len_nil_iff A l) as E.
  split; intros H'.
  - intros ->. change (len []) with 0 in H'. lia.
  - destruct (Z.eq_dec (len l) 0) as [E0|E0]; [apply E in E0; contradiction | lia].
Qed.

(** The dictionary returned for a non-empty reply. *)
Lemma generate_via_gemini_reply c text request :
  generate_via_gemini (Replies (c :: text)) request =
  let '(t, d, b) := padded (c :: text) request in
  Ok {| success := (0 <? len t) || (0 <? len d) || (0 <? len b);
        titles := t; descriptions := d; bullets := b |}.
Proof.
  unfold generate_via_gemini. rewrite generation_steps_reply. cbn [snd].
  pose proof (padded_lengths (c :: text) request) as H.
  destruct (padded (c :: text) request) as [[t d] b]. destruct H as (Ht & Hd & Hb).
  rewrite !slice_padded by assumption. reflexivity.
Qed.

Lemma generate_via_gemini_empty request :
  generate_via_gemini (Replies []) request = Ok failure_result.
Proof.
  unfold generate_via_gemini. rewrite generation_steps_empty.
  unfold no_lists. rewrite !slice_nil. reflexivity.
Qed.

Lemma generate_via_gemini_fails e request :
  generate_via_gemini (StepFails e) request = Ok failure_result.
Proof.
  unfold generate_via_gemini. rewrite generation_steps_fails.
  unfold no_lists. rewrite !slice_nil. reflexivity.
Qed.

Lemma success_of_padded text request :
  let '(t, d, b) := padded text request in
  (0 <? len t) || (0 <? len d) || (0 <? len b) = true <->
  (0 < title_count request \/ 0 < desc_count request \/ 0 < bullet_count request).
Proof.
  pose proof (padded_lengths text request) as H.
  destruct (padded text request) as [[t d] b]. destruct H as (Ht & Hd & Hb).
  rewrite !orb_true_iff, !Z.ltb_lt. lia.
Qed.

(** The flag of a returned dictionary. *)
Lemma success_characterised request ext result :
  generate_via_gemini ext request = Ok result ->
  (success result = true <->
   titles result <> [] \/ descriptions result <> [] \/ bullets result <> []) /\
  (success result = true <->
   (exists c text, ext = Replies (c :: text)) /\
   (0 < title_count request \/ 0 < desc_count request \/ 0 < bullet_count request)).
Proof.
  intros H. destruct ext as [e|e|[|c text]].
  - discriminate.
  - rewrite generate_via_gemini_fails in H. inversion H; subst result. simpl.
    split; split; try discriminate.
    + intros [F|[F|F]]; contradiction.
    + intros [(c & text & F) _]. discriminate.
  - rewrite generate_via_gemini_empty in H. inversion H; subst result. simpl.
    split; split; try discriminate.
    + intros [F|[F|F]]; contradiction.
    + intros [(c & text & F) _]. discriminate.
  - rewrite generate_via_gemini_reply in H.
    pose proof (success_of_padded (c :: text) request) as Hs.
    destruct (padded (c :: text) request) as [[t d] b].
    inversion H; subst result. cbn [success titles descriptions bullets].
    split.
    + rewrite !orb_true_iff, !positive_len. tauto.
    + rewrite Hs. split; [intros Hc; split; [eauto | exact Hc] | tauto].
Qed.

(** C1, as the code has it.  The flag is computed after the padding loops:
    it is true exactly when one of the returned lists is non-empty, that is
    when the reply text was not empty, no browser step raised and at least
    one requested count is positive - whether or not anything was parsed.
    On an empty reply the [try] block raises before parsing, nothing is
    padded, the three lists stay empty and the flag is false; the parser
    itself returns three empty lists on the empty text.  On a non-empty
    reply without [TITLES:] and positive counts the parser returns three
    empty lists, all three are padded to full placeholder lists and the flag
    is true. *)
Theorem success_flag request :
  (forall ext result,
      generate_via_gemini ext request = Ok result ->
      (success result = true <->
       titles result <> [] \/ descriptions result <> [] \/ bullets result <> []) /\
      (success result = true <->
       (exists c text, ext = Replies (c :: text)) /\
       (0 < title_count request \/ 0 < desc_count request \/ 0 < bullet_count request))) /\
  (parse_gemini_response [] (title_count request) (desc_count request)
     (bullet_count request) = ([], [], []) /\
   generate_via_gemini (Replies []) request = Ok failure_result) /\
  (forall c text,
      find (upper (c :: text)) §"TITLES:" = -1 ->
      0 < title_count request -> 0 < desc_count request -> 0 < bullet_count request ->
      parse_gemini_response (c :: text) (title_count request) (desc_count request)
        (bullet_count request) = ([], [], []) /\
      generate_via_gemini (Replies (c :: text)) request =
      Ok {| success := true;
            titles := placeholders §"Generated Title " 0 (title_count request);
            descriptions :=
              placeholders §"Generated Description " 0 (desc_count request);
            bullets := placeholders §"Generated Bullet Point " 0 (bullet_count request) |}).
Proof.
  split; [|split].
  - intros ext result H. apply (success_characterised request ext result H).
  - split; [apply parse_without_titles; reflexivity|].
    apply generate_via_gemini_empty.
  - intros c text Hf Ht Hd Hb.
    pose proof (parse_without_titles (c :: text) (title_count request)
                  (desc_count request) (bullet_count request) Hf) as Hp.
    split; [exact Hp|].
    rewrite generate_via_gemini_reply. unfold padded. rewrite Hp.
    unfold no_lists. cbn [app]. change (len (@nil str)) with 0.
    replace (0 <? len (placeholders §"Generated Title " 0 (title_count request)))
      with true; [reflexivity|].
    symmetry. apply Z.ltb_lt. rewrite placeholders_length. lia.
Qed.

Lemma success_flag_witness :
  parse_gemini_response reply_without_markers 1 1 1 = ([], [], []) /\
  generate_via_gemini (Replies reply_without_markers) (mk_request 1 1 1) =
  Ok {| success := true;
        titles := [§"Generated Title 1"];
        descriptions := [§"Generated Description 1"];
        bullets := [§"Generated Bullet Point 1"] |}.
Proof.
  exact (proj2 (proj2 (success_flag (mk_request 1 1 1)))
               "S"%char §"orry, I cannot help with that."
               eq_refl eq_refl eq_refl eq_refl).
Defined.

(** C1 as stated fails: nothing is parsed from this reply, and the flag is
    true. *)
Lemma success_without_parsed_items :
  parse_gemini_response reply_without_markers 1 1 1 = ([], [], []) /\
  exists result,
    generate_via_gemini (Replies reply_without_markers) (mk_request 1 1 1) = Ok result /\
    success result = true.
Proof.
  split; [vm_compute; reflexivity|].
  eexists. split; [vm_compute; reflexivity | reflexivity].
Qed.

(** C2, as the code has it.  When the [try] block completes, each returned
    list has exactly [count] items (none for a count that is not positive):
    the parsed items followed by placeholders.  When a browser step raises,
    or the reply is empty, the three returned lists are empty.  On any
    starting list, a padding loop followed by the slice yields exactly
    [count] items, the earliest ones. *)
Theorem assembled_lengths request :
  (forall c text,
      let '(t, d, b) :=
        parse_gemini_response (c :: text) (title_count request) (desc_count request)
          (bullet_count request) in
      exists result,
        generate_via_gemini (Replies (c :: text)) request = Ok result /\
        (titles result =
           t ++ placeholders §"Generated Title " (len t) (title_count request) /\
         descriptions result =
           d ++ placeholders §"Generated Description " (len d) (desc_count request) /\
         bullets result =
           b ++ placeholders §"Generated Bullet Point " (len b) (bullet_count request)) /\
        len (titles result) = Z.max 0 (title_count request) /\
        len (descriptions result) = Z.max 0 (desc_count request) /\
        len (bullets result) = Z.max 0 (bullet_count request)) /\
  (forall e, generate_via_gemini (StepFails e) request = Ok failure_result) /\
  generate_via_gemini (Replies []) request = Ok failure_result /\
  (forall k prefix count st,
      0 <= count ->
      let l := get_list k (snd (pad k prefix count st)) in
      l = get_list k st ++ placeholders prefix (len (get_list k st)) count /\
      slice l None (Some count) = firstn (Z.to_nat count) l /\
      len (slice l None (Some count)) = count).
Proof.
  split; [|split; [|split]].
  - intros c text.
    pose proof (generate_via_gemini_reply c text request) as H.
    pose proof (padded_lengths (c :: text) request) as L.
    unfold padded in *.
    destruct (parse_gemini_response (c :: text) _ _ _) as [[t d] b].
    eexists. split; [exact H|]. cbn [titles descriptions bullets].
    split; [auto | exact L].
  - intros e. apply generate_via_gemini_fails.
  - apply generate_via_gemini_empty.
  - intros k prefix count st Hc. rewrite pad_run. cbn [snd]. rewrite get_set_list.
    cbv zeta. split; [reflexivity|]. split; [apply slice_prefix_firstn; exact Hc|].
    apply slice_prefix_length; [exact Hc|]. rewrite padded_length. lia.
Qed.

Lemma assembled_lengths_witness :
  let l := get_list Titles
             (snd (pad Titles §"Generated Title " 2
                     ([§"first"; §"second"; §"third"], [], []))) in
  slice l None (Some 2) = [§"first"; §"second"] /\ len (slice l None (Some 2)) = 2.
Proof.
  cbv zeta.
  destruct (proj2 (proj2 (proj2 (assembled_lengths (mk_request 2 0 0))))
              Titles §"Generated Title " 2 ([§"first"; §"second"; §"third"], [], []))
    as (_ & H1 & H2); [lia|].
  split; [rewrite H1; vm_compute; reflexivity | exact H2].
Defined.

(** C2 as stated fails: a browser step raises, five titles were requested,
    none is returned. *)
Lemma exception_skips_padding :
  exists result,
    generate_via_gemini (StepFails §"Timeout") (mk_request 5 5 8) = Ok result /\
    len (titles result) <> title_count (mk_request 5 5 8) /\
    len (descriptions result) <> desc_count (mk_request 5 5 8) /\
    len (bullets result) <> bullet_count (mk_request 5 5 8).
Proof.
  eexists. split; [vm_compute; reflexivity|].
  refine (conj _ (conj _ _)); vm_compute; discriminate.
Qed.

(** C3, as the code has it.  The endpoint hands on what
    [generate_via_gemini] returns: the body is that result, with status 200
    when its flag is true and status 500 when it is false, and the flag is
    true exactly when a returned list is non-empty.  An exception that leaves
    [generate_via_gemini] gives status 500 and the only body with an [error]
    string.  So the status is 200 exactly for a non-empty reply with a
    positive count, and every other answer has status 500, the flag false
    and three empty lists. *)
Theorem generate_content_status ext request :
  let r := generate_content ext request in
  (forall result,
      generate_via_gemini ext request = Ok result ->
      r = JSONResponse result (if success result then 200 else 500) /\
      (success result = true <->
       titles result <> [] \/ descriptions result <> [] \/ bullets result <> [])) /\
  (forall e,
      generate_via_gemini ext request = Raise e ->
      r = {| status_code := 500; body_success := false; body_error := Some e;
             body_titles := []; body_descriptions := []; body_bullets := [] |}) /\
  (status_code r = 200 <->
   (exists c text, ext = Replies (c :: text)) /\
   (0 < title_count request \/ 0 < desc_count request \/ 0 < bullet_count request)) /\
  (status_code r <> 200 ->
   status_code r = 500 /\ body_success r = false /\
   body_titles r = [] /\ body_descriptions r = [] /\ body_bullets r = [] /\
   body_error r = match ext with Escapes e => Some e | _ => None end).
Proof.
  cbv zeta. split; [|split; [|split]].
  - intros result H. unfold generate_content. rewrite H.
    split; [destruct (success result); reflexivity|].
    apply (success_characterised request ext result H).
  - intros e H. unfold generate_content. rewrite H. reflexivity.
  - unfold generate_content.
    destruct (generate_via_gemini ext request) as [result|e] eqn:E.
    + destruct (success_characterised request _ _ E) as [_ H2].
      rewrite <- H2. destruct (success result); simpl; split; intros F;
        try reflexivity; try discriminate.
    + simpl. split; [discriminate|]. intros [(c & text & ->) _].
      rewrite generate_via_gemini_reply in E.
      destruct (padded (c :: text) request) as [[t d] b]. discriminate.
  - unfold generate_content.
    destruct (generate_via_gemini ext request) as [result|e] eqn:E.
    + destruct (success_characterised request _ _ E) as [H1 _].
      destruct (success result) eqn:Es; simpl; [intros F; contradiction|]. intros _.
      assert (N : ~ (titles result <> [] \/ descriptions result <> [] \/
                     bullets result <> [])) by (rewrite <- H1; discriminate).
      assert (Et : titles result = [])
        by (destruct (titles result); [reflexivity | exfalso; apply N; left; discriminate]).
      assert (Ed : descriptions result = [])
        by (destruct (descriptions result);
            [reflexivity | exfalso; apply N; right; left; discriminate]).
      assert (Eb : bullets result = [])
        by (destruct (bullets result);
            [reflexivity | exfalso; apply N; right; right; discriminate]).
      rewrite Es, Et, Ed, Eb. repeat split.
      destruct ext; [discriminate | reflexivity | reflexivity].
    + simpl. intros _. repeat split.
      destruct ext as [e'|e'|text].
      * simpl in E. inversion E. reflexivity.
      * rewrite generate_via_gemini_fails in E. discriminate.
      * destruct text as [|c text];
          [rewrite generate_via_gemini_empty in E; discriminate|].
        rewrite generate_via_gemini_reply in E.
        destruct (padded (c :: text) request) as [[t d] b]. discriminate.
Qed.

Lemma generate_content_status_witness :
  generate_content (Replies scenario_A) (mk_request 1 1 1) =
  {| status_code := 200; body_success := true; body_error := None;
     body_titles := [§"Great Wireless Mouse for Everyday Use"];
     body_descriptions :=
       [§"This ergonomic mouse offers long battery life and precision tracking."];
     body_bullets := [§"Long battery life"] |}.
Proof.
  destruct (generate_content_status (Replies scenario_A) (mk_request 1 1 1)) as (H & _).
  destruct (H {| success := true;
                 titles := [§"Great Wireless Mouse for Everyday Use"];
                 descriptions :=
                   [§"This ergonomic mouse offers long battery life and precision tracking."];
                 bullets := [§"Long battery life"] |}
              ltac:(vm_compute; reflexivity)) as [E _].
  rewrite E. reflexivity.
Defined.

(** C3 as stated fails: on an empty reply the endpoint answers 500 with a
    body that has no [error] entry. *)
Lemma failure_body_without_error :
  generate_content (Replies []) (mk_request 5 5 8) =
  {| status_code := 500; body_success := false; body_error := None;
     body_titles := []; body_descriptions := []; body_bullets := [] |}.
Proof. vm_compute. reflexivity. Qed.

(** ** Round trip on the output grammar *)

(** C5, as the code has it.  A reply made of the three markers in order and
    of items labelled [Title i:], [Description i:], [Bullet i:], numbered
    from 1, is parsed without loss when no colon inside a field ends a label
    of its section or a marker that comes later, the normalised text of every
    field is longer than the minimum of its section, and upper-casing keeps
    the length of the reply: with counts equal to the numbers of items, the
    parser returns the normalised text of every field, in label order. *)
Theorem grammar_round_trip gap_t ts gap_d ds gap_b bs :
  colon_free gap_t -> colon_free gap_d -> colon_free gap_b ->
  Forall (field_ok §"Title" title_markers 10) ts ->
  Forall (field_ok §"Description" desc_markers 20) ds ->
  Forall (field_ok §"Bullet" bullet_markers 10) bs ->
  len (upper (grammar_reply gap_t ts gap_d ds gap_b bs)) =
  len (grammar_reply gap_t ts gap_d ds gap_b bs) ->
  parse_gemini_response (grammar_reply gap_t ts gap_d ds gap_b bs)
                        (len ts) (len ds) (len bs) =
  (map normalize ts, map normalize ds, map normalize bs).
Proof.
  intros Hgt Hgd Hgb Hts Hds Hbs Hlen.
  assert (Ct : Forall (fun y => harmless §"Title" title_markers y = true) ts)
    by (eapply Forall_impl; [|exact Hts]; intros y [H _]; exact H).
  assert (Cd : Forall (fun y => harmless §"Description" desc_markers y = true) ds)
    by (eapply Forall_impl; [|exact Hds]; intros y [H _]; exact H).
  rewrite parse_gemini_response_eq. unfold parsed.
  rewrite find_titles; try assumption. cbn [Z.eqb].
  rewrite titles_section_reply, desc_section_reply, bullets_section_reply;
    try assumption.
  change title_pattern with (section_pattern §"Title" (Some §"DESCRIPTIONS:")).
  change desc_pattern with (section_pattern §"Description" (Some §"BULLETS:")).
  change bullet_pattern with (section_pattern §"Bullet" None).
  assert (Md : marker_ok (Some §"DESCRIPTIONS:"))
    by (exists §"DESCRIPTIONS"; split; [reflexivity | letters]).
  assert (Mb : marker_ok (Some §"BULLETS:"))
    by (exists §"BULLETS"; split; [reflexivity | letters]).
  rewrite (section_items_grammar §"Title" (Some §"DESCRIPTIONS:") title_markers 10);
    [|letters | discriminate | exact Md | | lia | exact Hgt | exact Hts].
  - rewrite (section_items_grammar §"Description" (Some §"BULLETS:") desc_markers 20);
      [|letters | discriminate | exact Mb | | lia | exact Hgd | exact Hds].
    + rewrite (section_items_grammar §"Bullet" None bullet_markers 10);
        [|letters | discriminate | exact I | | lia | exact Hgb | exact Hbs].
      * reflexivity.
      * intros body E. discriminate E.
    + intros body E. inversion E as [E'].
      change (§"BULLETS" ++ §":" = body ++ §":") in E'.
      apply app_inj_tail in E'. destruct E' as [<- _]. left. reflexivity.
  - intros body E. inversion E as [E'].
    change (§"DESCRIPTIONS" ++ §":" = body ++ §":") in E'.
    apply app_inj_tail in E'. destruct E' as [<- _]. left. reflexivity.
Qed.

Lemma grammar_round_trip_witness :
  parse_gemini_response
    (grammar_reply nl colon_titles nl colon_descriptions nl colon_bullets) 2 1 2 =
  ([§"Great Wireless Mouse: the everyday choice";
    §"Quiet Ergonomic Mouse, 16:9 ready"],
   [§"Note: this ergonomic mouse offers long battery life."],
   [§"Battery: up to 12 months"; §"Works on any desk surface"]).
Proof.
  assert (Hnl : colon_free nl) by (repeat constructor).
  assert (Ht : Forall (field_ok §"Title" title_markers 10) colon_titles)
    by (repeat (constructor; [split; vm_compute; reflexivity|]); constructor).
  assert (Hd : Forall (field_ok §"Description" desc_markers 20) colon_descriptions)
    by (repeat (constructor; [split; vm_compute; reflexivity|]); constructor).
  assert (Hb : Forall (field_ok §"Bullet" bullet_markers 10) colon_bullets)
    by (repeat (constructor; [split; vm_compute; reflexivity|]); constructor).
  exact (grammar_round_trip nl colon_titles nl colon_descriptions nl colon_bullets
           Hnl Hnl Hnl Ht Hd Hb ltac:(vm_compute; reflexivity)).
Defined.

(** C5 as stated fails.  The three replies follow the grammar, one item per
    line, each text longer than its minimum.  In the first the title is lost
    because its text holds the word of the next marker before a colon; in
    the second the text of the first title holds the next label, and what
    comes back is one title made of the end of the first and of the second;
    in the third the title holds a sharp s, the upper-cased text is longer
    than the reply, and the title and the description come back with the
    first letter of the marker that follows them. *)
Lemma marker_text_in_title :
  (reply_marker_in_text =
     §"TITLES:" ++ nl ++ §"Title 1: Compact descriptions: a style guide" ++ nl
     ++ §"DESCRIPTIONS:" ++ nl
     ++ §"Description 1: This ergonomic mouse offers long battery life." ++ nl
     ++ §"BULLETS:" ++ nl ++ §"Bullet 1: Long battery life" ++ nl /\
   10 < len §"Compact descriptions: a style guide" /\
   parse_gemini_response reply_marker_in_text 1 1 1 =
     ([], [§"This ergonomic mouse offers long battery life."], [§"Long battery life"])) /\
  (reply_label_in_text =
     §"TITLES:" ++ nl ++ §"Title 1: See Title 2: for details" ++ nl
     ++ §"Title 2: Another great mouse" ++ nl
     ++ §"DESCRIPTIONS:" ++ nl
     ++ §"Description 1: This ergonomic mouse offers long battery life." ++ nl
     ++ §"BULLETS:" ++ nl ++ §"Bullet 1: Long battery life" ++ nl /\
   10 < len §"See Title 2: for details" /\ 10 < len §"Another great mouse" /\
   parse_gemini_response reply_label_in_text 2 1 1 =
     ([§"for details Title 2: Another great mouse"],
      [§"This ergonomic mouse offers long battery life."], [§"Long battery life"])) /\
  (reply_sharp_s =
     §"TITLES:" ++ nl ++ §"Title 1: Gro" ++ [sharp_s] ++ §"e Maus kabellos" ++ nl
     ++ §"DESCRIPTIONS:" ++ nl
     ++ §"Description 1: This ergonomic mouse offers long battery life." ++ nl
     ++ §"BULLETS:" ++ nl ++ §"Bullet 1: Long battery life" ++ nl /\
   10 < len (§"Gro" ++ [sharp_s] ++ §"e Maus kabellos") /\
   len (upper reply_sharp_s) = len reply_sharp_s + 1 /\
   parse_gemini_response reply_sharp_s 1 1 1 =
     ([§"Gro" ++ [sharp_s] ++ §"e Maus kabellos D"],
      [§"This ergonomic mouse offers long battery life. B"], [§"Long battery life"])).
Proof.
  split; [|split].
  - refine (conj _ (conj _ _)); vm_compute; reflexivity.
  - refine (conj _ (conj _ (conj _ _))); vm_compute; reflexivity.
  - refine (conj _ (conj _ (conj _ _))); vm_compute; reflexivity.
Qed.

(** ** What a parsed item looks like *)

Lemma split_ws_words s :
  forall cur,
    Forall (fun ch => is_space ch = false) cur ->
    Forall word (split_ws cur s).
Proof.
  induction s as [|c s IH]; intros cur Hcur; simpl.
  - destruct cur; [constructor|].
    constructor; [|constructor]. split; [discriminate | exact Hcur].
  - destruct (is_space c) eqn:E.
    + destruct cur as [|x cur]; [apply IH; constructor|].
      constructor; [split; [discriminate | exact Hcur] | apply IH; constructor].
    + apply IH. apply Forall_app. split; [exact Hcur|].
      constructor; [exact E | constructor].
Qed.

Lemma normalize_words g : Forall word (split (strip g)).
Proof. apply split_ws_words. constructor. Qed.

Lemma item_found_shape pattern section minimum c :
  0 <= minimum ->
  item_found pattern section minimum = Some c ->
  minimum < len c /\ spaced_words c.
Proof.
  intros Hm H. unfold item_found in H.
  destruct (re_search pattern section) as [m|]; [|discriminate].
  destruct (group1 m) as [g|]; [|discriminate].
  destruct (minimum <? len (normalize g)) eqn:E; [|discriminate].
  inversion H; subst c. apply Z.ltb_lt in E. split; [exact E|].
  exists (split (strip g)). split; [|split; [apply normalize_words | reflexivity]].
  intros Hnil. unfold normalize in E. rewrite Hnil in E. simpl in E.
  change (len (@nil ascii)) with 0 in E. lia.
Qed.

Lemma section_items_shape pattern section minimum count :
  0 <= minimum ->
  Forall (fun c => minimum < len c /\ spaced_words c)
         (section_items pattern section minimum count).
Proof.
  intros Hm. unfold section_items.
  induction (range 1 (count + 1)) as [|i xs IH]; simpl; [constructor|].
  apply Forall_app. split; [|exact IH].
  destruct (item_found (pattern i) section minimum) as [c|] eqn:E; simpl;
    [|constructor].
  constructor; [|constructor]. apply (item_found_shape _ _ _ _ Hm E).
Qed.

(** ** Asking for more items *)

Lemma range_split lo mid hi :
  lo <= mid -> mid <= hi -> range lo hi = range lo mid ++ range mid hi.
Proof.
  intros H1 H2. remember (Z.to_nat (mid - lo)) as n eqn:En.
  revert lo H1 En. induction n as [|n IH]; intros lo H1 En.
  - assert (lo = mid) by lia. subst lo. rewrite (range_empty mid mid) by lia. reflexivity.
  - rewrite (range_cons lo hi), (range_cons lo mid) by lia.
    rewrite (IH (lo + 1)) by lia. reflexivity.
Qed.

Lemma section_items_more pattern section minimum count count' :
  count <= count' ->
  exists extra,
    section_items pattern section minimum count' =
    section_items pattern section minimum count ++ extra.
Proof.
  intros H. unfold section_items.
  destruct (Z.le_gt_cases 0 count) as [Hc|Hc].
  - rewrite (range_split 1 (count + 1) (count' + 1)) by lia.
    rewrite flat_map_app. eauto.
  - rewrite (range_empty 1 (count + 1)) by lia. simpl. eauto.
Qed.

(** ** Runs of one character and the patterns [c{n,}] *)

Lemma sub_from_skip r repl :
  forall s k,
    (k <= length s)%nat ->
    sub_from r repl k s = sub_from r repl 0 (skipn k s).
Proof.
  induction s as [|c t IH]; intros k Hk.
  - assert (k = O) by (simpl in Hk; lia). subst k. reflexivity.
  - destruct k as [|k]; [reflexivity|]. simpl. apply IH. simpl in Hk. lia.
Qed.

Section Runs.

Variable c0 : ascii.

Lemma run_split s : s = repeat c0 (run_len c0 s) ++ skipn (run_len c0 s) s.
Proof.
  induction s as [|x t IH]; [reflexivity|]. simpl.
  destruct (Ascii.eqb c0 x) eqn:E; [|reflexivity].
  apply Ascii.eqb_eq in E. subst x. simpl. f_equal. exact IH.
Qed.

Lemma run_rest s : run_rest_ok c0 (skipn (run_len c0 s) s).
Proof.
  induction s as [|x t IH]; [exact I|]. simpl.
  destruct (Ascii.eqb c0 x) eqn:E; [exact IH | exact E].
Qed.

Lemma run_len_le s : (run_len c0 s <= length s)%nat.
Proof.
  induction s as [|x t IH]; simpl; [lia|]. destruct (Ascii.eqb c0 x); simpl; lia.
Qed.

Lemma run_len_repeat m r : run_rest_ok c0 r -> run_len c0 (repeat c0 m ++ r) = m.
Proof.
  intros Hr. induction m as [|m IH]; simpl.
  - destruct r as [|y r]; [reflexivity|]. simpl in *. rewrite Hr. reflexivity.
  - rewrite Ascii.eqb_refl, IH. reflexivity.
Qed.

(** [c*] is greedy: it first tries with the whole run consumed. *)
Lemma star_loop_run (R : Type) (k : str -> option str -> option R) r g x :
  run_rest_ok c0 r -> k r g = Some x ->
  forall m fuel,
    (m <= fuel)%nat ->
    star_loop (exec (Chr (Ascii.eqb c0))) k fuel (repeat c0 m ++ r) g = Some x.
Proof.
  intros Hr Hk m. induction m as [|m IH]; intros fuel Hf.
  - simpl. destruct fuel as [|fuel]; simpl; [exact Hk|].
    destruct r as [|y r]; simpl; [exact Hk|].
    simpl in Hr. rewrite Hr. simpl. exact Hk.
  - destruct fuel as [|fuel]; [lia|].
    simpl. rewrite Ascii.eqb_refl.
    replace (length (repeat c0 m ++ r) <? S (length (repeat c0 m ++ r)))%nat with true
      by (symmetry; apply Nat.ltb_lt; lia).
    rewrite IH by lia. reflexivity.
Qed.

(** [c{n,}] matches the whole run at the head of the text when that run has
    [n] characters or more, and nothing otherwise. *)
Lemma exec_at_least (A : Type) (f : str -> A) n :
  forall s g,
    exec (at_least n c0) s g (fun s' _ => Some (f s')) =
    if (n <=? run_len c0 s)%nat then Some (f (skipn (run_len c0 s) s)) else None.
Proof.
  induction n as [|n IH]; intros s g.
  - cbn [at_least]. rewrite exec_Star. simpl (0 <=? _)%nat.
    rewrite (run_split s) at 1 2.
    apply star_loop_run; [apply run_rest | reflexivity|].
    rewrite <- (run_split s). apply run_len_le.
  - cbn [at_least]. rewrite exec_Cat, exec_Chr.
    destruct s as [|x t]; [reflexivity|]. simpl run_len.
    destruct (Ascii.eqb c0 x) eqn:E; [|reflexivity].
    rewrite IH. reflexivity.
Qed.

Lemma match_end_run n s :
  match_end (at_least n c0) s =
  if (n <=? run_len c0 s)%nat then Some (run_len c0 s) else None.
Proof.
  unfold match_end.
  rewrite (exec_at_least nat (fun s' => (length s - length s')%nat)).
  destruct (n <=? run_len c0 s)%nat; [|reflexivity].
  f_equal. rewrite length_skipn. pose proof (run_len_le s). lia.
Qed.

Lemma re_sub_run_nil n repl : re_sub (at_least (S n) c0) repl [] = [].
Proof. unfold re_sub. cbn [sub_from]. rewrite match_end_run. reflexivity. Qed.

(** One step of [re.sub(r'c{n,}', repl, s)]: a run of [n] or more is
    replaced as a whole; any other character is copied. *)
Lemma re_sub_run_step n repl x t :
  re_sub (at_least (S n) c0) repl (x :: t) =
  if (S n <=? run_len c0 (x :: t))%nat
  then repl ++ re_sub (at_least (S n) c0) repl (skipn (run_len c0 (x :: t)) (x :: t))
  else x :: re_sub (at_least (S n) c0) repl t.
Proof.
  unfold re_sub. cbn [sub_from]. rewrite match_end_run.
  destruct (S n <=? run_len c0 (x :: t))%nat eqn:E; [|reflexivity].
  apply Nat.leb_le in E. pose proof (run_len_le (x :: t)) as L.
  destruct (run_len c0 (x :: t)) as [|m] eqn:Er; [lia|].
  rewrite sub_from_skip by (simpl in L; lia). reflexivity.
Qed.

Lemma starts_with_run n s :
  starts_with (repeat c0 n) s = true <-> (n <= run_len c0 s)%nat.
Proof.
  revert s. induction n as [|n IH]; intros s.
  - simpl. split; [lia | reflexivity].
  - destruct s as [|x t]; simpl; [split; [discriminate | lia]|].
    rewrite andb_true_iff, IH. destruct (Ascii.eqb c0 x); split; intros H;
      try lia; try (destruct H; discriminate); try (split; [reflexivity | lia]).
Qed.

End Runs.

(** ** Texts without long runs *)

Section RunsOk.

Variable c : ascii.
Variable n : nat.

Lemma runs_ok_mono s :
  forall cur cur',
    (cur' <= cur)%nat -> runs_ok c n cur s = true -> runs_ok c n cur' s = true.
Proof.
  induction s as [|x t IH]; intros cur cur' Hc H; [reflexivity|].
  simpl in *. destruct (Ascii.eqb c x); [|exact H].
  apply andb_true_iff in H. destruct H as [H1 H2]. apply andb_true_iff. split.
  - apply Nat.ltb_lt in H1. apply Nat.ltb_lt. lia.
  - apply (IH (S cur)); [lia | exact H2].
Qed.

Lemma runs_ok_suffix a b :
  forall cur, runs_ok c n cur (a ++ b) = true -> runs_ok c n 0 b = true.
Proof.
  induction a as [|x a IH]; intros cur H.
  - apply (runs_ok_mono b cur 0); [lia | exact H].
  - simpl in H. destruct (Ascii.eqb c x).
    + apply andb_true_iff in H. destruct H as [_ H]. apply (IH _ H).
    + apply (IH _ H).
Qed.

Lemma runs_ok_prefix a b :
  forall cur, runs_ok c n cur (a ++ b) = true -> runs_ok c n cur a = true.
Proof.
  induction a as [|x a IH]; intros cur H; [reflexivity|].
  simpl in *. destruct (Ascii.eqb c x).
  - apply andb_true_iff in H. destruct H as [H1 H2].
    apply andb_true_iff. split; [exact H1 | apply IH; exact H2].
  - apply IH. exact H.
Qed.

Lemma runs_ok_run_len s :
  forall cur,
    runs_ok c n cur s = true -> run_len c s = O \/ (cur + run_len c s < n)%nat.
Proof.
  induction s as [|x t IH]; intros cur H; [left; reflexivity|].
  simpl in *. destruct (Ascii.eqb c x); [|left; reflexivity].
  apply andb_true_iff in H. destruct H as [H1 H2]. apply Nat.ltb_lt in H1.
  right. destruct (IH _ H2) as [E|E]; lia.
Qed.

(** Without a run of [n], the text [c * n] does not occur. *)
Lemma runs_ok_find s :
  (1 <= n)%nat -> runs_ok c n 0 s = true -> find_nat s (repeat c n) = None.
Proof.
  intros Hn. induction s as [|x t IH]; intros H.
  - destruct n; [lia | reflexivity].
  - rewrite find_nat_cons.
    destruct (starts_with (repeat c n) (x :: t)) eqn:E.
    + apply starts_with_run in E. destruct (runs_ok_run_len _ _ H); lia.
    + rewrite IH; [reflexivity|]. apply (runs_ok_suffix [x] t 0). exact H.
Qed.

Lemma runs_ok_skip w y :
  Forall (fun x => Ascii.eqb c x = false) w -> w <> [] ->
  forall cur, runs_ok c n cur (w ++ y) = runs_ok c n 0 y.
Proof.
  intros Hw. induction Hw as [|x w Hx Hw IH]; intros Hne cur; [contradiction|].
  simpl. rewrite Hx. destruct w as [|x' w]; [reflexivity|].
  apply IH. discriminate.
Qed.

Lemma runs_ok_repeat_front m y :
  (forall cur, runs_ok c n cur y = true) ->
  forall cur, (cur + m < n)%nat -> runs_ok c n cur (repeat c m ++ y) = true.
Proof.
  intros Hy. induction m as [|m IH]; intros cur Hc; [apply Hy|].
  simpl. rewrite Ascii.eqb_refl. apply andb_true_iff. split.
  - apply Nat.ltb_lt. lia.
  - apply IH. lia.
Qed.

End RunsOk.

(** [re.sub(r'c{n,}', c * (n - 1), s)] leaves no run of [n]. *)
Lemma re_sub_run_bounds c n :
  forall m s cur,
    (length s <= m)%nat ->
    run_len c s = O \/ (cur + Nat.min (run_len c s) n <= n)%nat ->
    runs_ok c (S n) cur (re_sub (at_least (S n) c) (repeat c n) s) = true.
Proof.
  induction m as [|m IH]; intros s cur Hm Hc.
  - destruct s; [|simpl in Hm; lia]. rewrite re_sub_run_nil. reflexivity.
  - destruct s as [|x t]; [rewrite re_sub_run_nil; reflexivity|].
    rewrite re_sub_run_step.
    destruct (S n <=? run_len c (x :: t))%nat eqn:E.
    + apply Nat.leb_le in E.
      apply runs_ok_repeat_front.
      * intros cur'. apply IH.
        -- rewrite length_skipn. simpl in Hm. simpl length. lia.
        -- left. pose proof (run_rest c (x :: t)) as R.
           destruct (skipn (run_len c (x :: t)) (x :: t)) as [|y r]; [reflexivity|].
           simpl in *. rewrite R. reflexivity.
      * destruct Hc as [Hc|Hc]; lia.
    + apply Nat.leb_gt in E. simpl in E, Hc |- *.
      destruct (Ascii.eqb c x) eqn:Ex.
      * apply andb_true_iff. split.
        -- apply Nat.ltb_lt. destruct Hc as [Hc|Hc]; lia.
        -- apply IH; [simpl in Hm; lia|]. right. destruct Hc as [Hc|Hc]; lia.
      * apply IH; [simpl in Hm; lia|]. right. lia.
Qed.

(** [re.sub(r'd{k,}', d, s)] for another character [d] neither lengthens nor
    joins the runs of [c]. *)
Lemma re_sub_run_keeps c n d k :
  Ascii.eqb c d = false ->
  forall m s cur,
    (length s <= m)%nat ->
    runs_ok c n cur s = true ->
    runs_ok c n cur (re_sub (at_least (S k) d) [d] s) = true.
Proof.
  intros Hd. induction m as [|m IH]; intros s cur Hm H.
  - destruct s; [|simpl in Hm; lia]. rewrite re_sub_run_nil. reflexivity.
  - destruct s as [|x t]; [rewrite re_sub_run_nil; reflexivity|].
    rewrite re_sub_run_step.
    destruct (S k <=? run_len d (x :: t))%nat eqn:E.
    + apply Nat.leb_le in E.
      assert (Hl : (length (skipn (run_len d (x :: t)) (x :: t)) <= m)%nat).
      { rewrite length_skipn. simpl length. simpl in Hm. lia. }
      assert (Hr : runs_ok c n 0 (skipn (run_len d (x :: t)) (x :: t)) = true).
      { rewrite (run_split d (x :: t)) in H. apply (runs_ok_suffix c n _ _ cur H). }
      revert Hl Hr. generalize (skipn (run_len d (x :: t)) (x :: t)).
      intros rest Hl Hr. simpl. rewrite Hd. apply IH; assumption.
    + simpl in H |- *. destruct (Ascii.eqb c x).
      * apply andb_true_iff in H. destruct H as [H1 H2].
        apply andb_true_iff. split; [exact H1|].
        apply IH; [simpl in Hm; lia | exact H2].
      * apply IH; [simpl in Hm; lia | exact H].
Qed.

(** ** Subsequences: what deleting characters leaves *)

Lemma subseq_refl s : subseq s s.
Proof. induction s; constructor; assumption. Qed.

Lemma subseq_nil_l s : subseq [] s.
Proof. induction s; constructor; assumption. Qed.

Lemma subseq_trans b c : subseq b c -> forall a, subseq a b -> subseq a c.
Proof.
  induction 1 as [|x b c Hbc IH|x b c Hbc IH]; intros a Hab.
  - exact Hab.
  - inversion Hab; subst.
    + apply subseq_keep. apply IH. assumption.
    + apply subseq_drop. apply IH. assumption.
  - apply subseq_drop. apply IH. exact Hab.
Qed.

Lemma subseq_app a b a' b' : subseq a b -> subseq a' b' -> subseq (a ++ a') (b ++ b').
Proof.
  intros H H'. induction H; simpl; [exact H' | |]; constructor; assumption.
Qed.

Lemma subseq_length a b : subseq a b -> (length a <= length b)%nat.
Proof. induction 1; simpl; lia. Qed.

Lemma subseq_infix a m b : subseq m (a ++ m ++ b).
Proof.
  induction a as [|x a IH]; simpl; [|apply subseq_drop, IH].
  induction m as [|y m IH]; simpl; [apply subseq_nil_l | apply subseq_keep, IH].
Qed.

Lemma subseq_repeat (c : ascii) k n : (k <= n)%nat -> subseq (repeat c k) (repeat c n).
Proof.
  revert k. induction n as [|n IH]; intros k H.
  - assert (k = O) by lia. subst k. constructor.
  - destruct k as [|k]; [apply subseq_nil_l|]. simpl. apply subseq_keep, IH. lia.
Qed.

(** [s.replace(old, '')] deletes only. *)
Lemma subseq_replace old s : forall skip, subseq (replace_from old [] skip s) s.
Proof.
  induction s as [|c t IH]; intros skip; [constructor|].
  simpl. destruct skip as [|k].
  - destruct (starts_with old (c :: t)).
    + simpl. apply subseq_drop, IH.
    + apply subseq_keep, IH.
  - apply subseq_drop, IH.
Qed.

(** Replacing the runs of [n + 1] and more by a run of at most [n + 1]
    deletes only. *)
Lemma subseq_re_sub c n k :
  (k <= S n)%nat ->
  forall m s, (length s <= m)%nat ->
              subseq (re_sub (at_least (S n) c) (repeat c k) s) s.
Proof.
  intros Hk. induction m as [|m IH]; intros s Hm.
  - destruct s; [|simpl in Hm; lia]. rewrite re_sub_run_nil. constructor.
  - destruct s as [|x t]; [rewrite re_sub_run_nil; constructor|].
    rewrite re_sub_run_step.
    destruct (S n <=? run_len c (x :: t))%nat eqn:E.
    + apply Nat.leb_le in E.
      assert (Hl : (length (skipn (run_len c (x :: t)) (x :: t)) <= m)%nat).
      { rewrite length_skipn. simpl length. simpl in Hm. lia. }
      rewrite (run_split c (x :: t)) at 3.
      apply subseq_app; [apply subseq_repeat; lia | apply IH, Hl].
    + apply subseq_keep, IH. simpl in Hm. lia.
Qed.

Lemma subseq_skipn k s : subseq (skipn k s) s.
Proof.
  rewrite <- (firstn_skipn k s) at 2.
  rewrite <- (app_nil_r (skipn k s)) at 2.
  apply subseq_infix.
Qed.

Lemma subseq_firstn k s : subseq (firstn k s) s.
Proof.
  rewrite <- (firstn_skipn k s) at 2.
  apply (subseq_infix [] (firstn k s) (skipn k s)).
Qed.

(** A slice deletes only. *)
Lemma subseq_slice s lo hi : subseq (slice s lo hi) s.
Proof.
  unfold slice. eapply subseq_trans; [apply subseq_skipn | apply subseq_firstn].
Qed.

(** ** [strip] *)

Lemma lstrip_app_solid w c r :
  is_space c = false -> lstrip (w ++ c :: r) = lstrip w ++ c :: r.
Proof.
  intros Hc. induction w as [|x w IH]; simpl.
  - rewrite Hc. reflexivity.
  - destruct (is_space x); [exact IH | reflexivity].
Qed.

Lemma lstrip_id s : starts_solid s -> lstrip s = s.
Proof. destruct s as [|c s]; [reflexivity|]. simpl. intros ->. reflexivity. Qed.

Lemma lstrip_blank w : blank w -> lstrip w = [].
Proof.
  induction 1 as [|c w Hc Hw IH]; [reflexivity|]. simpl. rewrite Hc. exact IH.
Qed.

Lemma rstrip_id s : starts_solid (rev s) -> rstrip s = s.
Proof. intros H. unfold rstrip. rewrite lstrip_id by exact H. apply rev_involutive. Qed.

(** Up to the last solid character nothing is stripped on the right. *)
Lemma rstrip_app_solid a c r :
  is_space c = false -> rstrip (a ++ c :: r) = a ++ c :: rstrip r.
Proof.
  intros Hc. unfold rstrip.
  rewrite rev_app_distr. simpl rev. rewrite <- app_assoc. simpl app.
  rewrite lstrip_app_solid by exact Hc.
  rewrite rev_app_distr. simpl rev. rewrite rev_involutive, <- app_assoc.
  reflexivity.
Qed.

Lemma rstrip_blank w : blank w -> rstrip w = [].
Proof.
  intros H. unfold rstrip. rewrite lstrip_blank by (apply blank_rev, H). reflexivity.
Qed.

Lemma strip_blank w : blank w -> strip w = [].
Proof. intros H. unfold strip. rewrite lstrip_blank by exact H. reflexivity. Qed.

Lemma strip_id s : starts_solid s -> starts_solid (rev s) -> strip s = s.
Proof.
  intros H1 H2. unfold strip. rewrite lstrip_id by exact H1. apply rstrip_id, H2.
Qed.

(** What [strip] returns is the text between two blank margins. *)
Lemma strip_split s : exists w w', s = w ++ strip s ++ w' /\ blank w /\ blank w'.
Proof.
  destruct (lstrip_split s) as (w & Hs & Hw & _).
  destruct (rstrip_split (lstrip s)) as (w' & Hs' & Hw').
  exists w, w'. unfold strip. rewrite <- Hs'. auto.
Qed.

(** It has no blank at either end. *)
Lemma strip_solid s : starts_solid (strip s) /\ starts_solid (rev (strip s)).
Proof.
  split.
  - destruct (lstrip_split s) as (w & _ & _ & Hr). unfold strip.
    destruct (lstrip s) as [|c r]; [exact I|].
    simpl in Hr. change (c :: r) with ([] ++ c :: r).
    rewrite (rstrip_app_solid [] c r Hr). exact Hr.
  - unfold strip, rstrip. rewrite rev_involutive.
    destruct (lstrip_split (rev (lstrip s))) as (w & _ & _ & Hr). exact Hr.
Qed.

(** A text that starts with a literal without blanks still does once
    stripped. *)
Lemma strip_keeps_prefix sub c r :
  Forall (fun x => is_space x = false) (sub ++ [c]) ->
  exists r', strip ((sub ++ [c]) ++ r) = (sub ++ [c]) ++ r'.
Proof.
  intros H. unfold strip.
  assert (Hc : is_space c = false).
  { apply Forall_app in H. destruct H as [_ H]. inversion H; assumption. }
  rewrite lstrip_id.
  - rewrite <- app_assoc. simpl app. rewrite (rstrip_app_solid sub c r Hc).
    exists (rstrip r). rewrite <- app_assoc. reflexivity.
  - destruct sub as [|x sub]; simpl; [exact Hc|]. inversion H; assumption.
Qed.

(** ** [clean_response_text] *)

Lemma clean_scrubbed text :
  clean_response_text text =
  strip (if contains (scrubbed text) §"TITLES:"
         then slice (scrubbed text) (Some (find (scrubbed text) §"TITLES:")) None
         else scrubbed text).
Proof. reflexivity. Qed.

Lemma contains_cases s sub :
  (contains s sub = true /\
   exists p, find_nat s sub = Some p /\ find s sub = Z.of_nat p) \/
  (contains s sub = false /\ find_nat s sub = None).
Proof.
  unfold contains, find. destruct (find_nat s sub) as [p|].
  - left. split; [|exists p; auto].
    apply negb_true_iff, Z.eqb_neq. lia.
  - right. split; reflexivity.
Qed.

Lemma contains_true_iff s sub : contains s sub = true <-> find_nat s sub <> None.
Proof.
  destruct (contains_cases s sub) as [[H (p & Hp & _)]|[H Hp]]; rewrite H, Hp;
    split; intros F; try reflexivity; try discriminate; congruence.
Qed.

(** The text cut at its first [TITLES:], when it has one. *)
Lemma titles_cut u :
  (contains u §"TITLES:" = true /\
   exists p r, (p <= length u)%nat /\ skipn p u = §"TITLES:" ++ r /\
               slice u (Some (find u §"TITLES:")) None = §"TITLES:" ++ r) \/
  (contains u §"TITLES:" = false /\ find_nat u §"TITLES:" = None).
Proof.
  destruct (contains_cases u §"TITLES:") as [[H (p & Hp & Hf)]|H]; [left | right; exact H].
  split; [exact H|].
  destruct (find_nat_some _ _ _ Hp) as [Lp Sp].
  destruct (starts_with_inv _ _ Sp) as (r & Hr).
  exists p, r. split; [exact Lp|]. split; [exact Hr|].
  rewrite Hf, slice_from by exact Lp. exact Hr.
Qed.

(** The cleaned text is a part of the scrubbed one. *)
Lemma clean_infix text :
  exists a b, scrubbed text = a ++ clean_response_text text ++ b.
Proof.
  rewrite clean_scrubbed.
  destruct (titles_cut (scrubbed text)) as [[H (p & r & Lp & Hr & Hs)]|[H _]]; rewrite H.
  - rewrite Hs, <- Hr.
    destruct (strip_split (skipn p (scrubbed text))) as (w & w' & Hw & _ & _).
    exists (firstn p (scrubbed text) ++ w), w'.
    rewrite <- app_assoc, <- Hw. symmetry. apply firstn_skipn.
  - destruct (strip_split (scrubbed text)) as (w & w' & Hw & _ & _).
    exists w, w'. exact Hw.
Qed.

Lemma subseq_fold_replace phrases :
  forall s, subseq (fold_left (fun text phrase => replace text phrase []) phrases s) s.
Proof.
  induction phrases as [|ph phrases IH]; intros s; [apply subseq_refl|].
  simpl. eapply subseq_trans; [apply subseq_replace | apply IH].
Qed.

Lemma subseq_strip s : subseq (strip s) s.
Proof.
  destruct (strip_split s) as (w & w' & Hs & _ & _).
  rewrite Hs at 2. apply subseq_infix.
Qed.

Lemma scrubbed_subseq text : subseq (scrubbed text) text.
Proof.
  unfold scrubbed.
  eapply subseq_trans; [apply subseq_strip|].
  eapply subseq_trans; [apply subseq_fold_replace|].
  eapply subseq_trans.
  - apply (subseq_re_sub newline 2 2 (Nat.le_succ_diag_r 2) _ _ (Nat.le_refl _)).
  - apply (subseq_re_sub space 1 1 (Nat.le_succ_diag_r 1) _ _ (Nat.le_refl _)).
Qed.

Lemma clean_subseq text : subseq (clean_response_text text) text.
Proof.
  destruct (clean_infix text) as (a & b & H).
  eapply subseq_trans; [apply scrubbed_subseq|].
  rewrite H. apply subseq_infix.
Qed.

(** The scrubbed text has no three newlines and no two spaces in a row. *)
Lemma scrubbed_runs text :
  runs_ok newline 3 0 (scrubbed text) = true /\
  runs_ok space 2 0 (scrubbed text) = true.
Proof.
  unfold scrubbed. split.
  - apply (re_sub_run_keeps newline 3 space 1 eq_refl _ _ 0 (Nat.le_refl _)).
    apply (re_sub_run_bounds newline 2 _ _ 0 (Nat.le_refl _)). right. lia.
  - apply (re_sub_run_bounds space 1 _ _ 0 (Nat.le_refl _)). right. lia.
Qed.

Lemma runs_ok_infix c n a m b :
  runs_ok c n 0 (a ++ m ++ b) = true -> runs_ok c n 0 m = true.
Proof.
  intros H. apply runs_ok_suffix in H. apply runs_ok_prefix in H. exact H.
Qed.

Lemma clean_runs text :
  runs_ok newline 3 0 (clean_response_text text) = true /\
  runs_ok space 2 0 (clean_response_text text) = true.
Proof.
  destruct (clean_infix text) as (a & b & H).
  destruct (scrubbed_runs text) as [Hn Hs]. rewrite H in Hn, Hs.
  split; eapply runs_ok_infix; eassumption.
Qed.

Lemma titles_solid : Forall (fun x => is_space x = false) (§"TITLES" ++ [":"%char]).
Proof. repeat constructor. Qed.

(** Either the cleaned text starts with [TITLES:], or the scrubbed text had
    no [TITLES:] and neither has the cleaned one. *)
Lemma clean_marker text :
  (contains (scrubbed text) §"TITLES:" = true /\
   starts_with §"TITLES:" (clean_response_text text) = true) \/
  (contains (scrubbed text) §"TITLES:" = false /\
   find_nat (clean_response_text text) §"TITLES:" = None).
Proof.
  rewrite clean_scrubbed.
  destruct (titles_cut (scrubbed text)) as [[H (p & r & Lp & Hr & Hs)]|[H Hn]]; rewrite H.
  - left. split; [reflexivity|]. rewrite Hs.
    destruct (strip_keeps_prefix §"TITLES" ":"%char r titles_solid) as (r' & Hr').
    change (§"TITLES" ++ [":"%char]) with §"TITLES:" in Hr'.
    rewrite Hr'. apply starts_with_app.
  - right. split; [reflexivity|].
    destruct (strip_split (scrubbed text)) as (w & w' & Hw & _ & _).
    rewrite Hw in Hn. apply find_nat_inside in Hn. exact Hn.
Qed.

(** ** Texts that the cleaning leaves alone *)

Lemma replace_id old new s : find_nat s old = None -> replace s old new = s.
Proof.
  unfold replace. induction s as [|c t IH]; intros H; [reflexivity|].
  apply find_nat_none_tail in H. destruct H as [H1 H2].
  simpl replace_from. rewrite H1, IH by exact H2. reflexivity.
Qed.

Lemma fold_replace_id phrases s :
  Forall (fun ph => find s ph = -1) phrases ->
  fold_left (fun text phrase => replace text phrase []) phrases s = s.
Proof.
  induction 1 as [|ph phrases Hp _ IH]; [reflexivity|].
  simpl. rewrite replace_id by (apply find_none_iff, Hp). exact IH.
Qed.

Lemma re_sub_id c n repl s :
  find_nat s (repeat c (S n)) = None -> re_sub (at_least (S n) c) repl s = s.
Proof.
  induction s as [|x t IH]; intros H; [apply re_sub_run_nil|].
  apply find_nat_none_tail in H. destruct H as [H1 H2].
  rewrite re_sub_run_step.
  destruct (S n <=? run_len c (x :: t))%nat eqn:E.
  - apply Nat.leb_le, starts_with_run in E. congruence.
  - rewrite IH by exact H2. reflexivity.
Qed.

(** ** [TITLES:] survives the cleaning *)

Lemma contains_infix a sub b : contains (a ++ sub ++ b) sub = true.
Proof.
  apply contains_true_iff. intros H.
  assert (Hl : (length a <= length (a ++ sub ++ b))%nat) by (rewrite length_app; lia).
  pose proof (find_nat_none _ _ H (length a) Hl) as N.
  rewrite skipn_app, skipn_all, Nat.sub_diag in N. simpl in N.
  rewrite starts_with_app in N. discriminate.
Qed.

Lemma contains_split s sub :
  contains s sub = true -> exists a b, s = a ++ sub ++ b.
Proof.
  intros H. destruct (contains_cases s sub) as [[_ (p & Hp & _)]|[F _]]; [|congruence].
  destruct (find_nat_some _ _ _ Hp) as [_ Sp].
  destruct (starts_with_inv _ _ Sp) as (r & Hr).
  exists (firstn p s), r. rewrite <- Hr. symmetry. apply firstn_skipn.
Qed.

Lemma strip_keeps_marker a b :
  exists a' b', strip (a ++ §"TITLES:" ++ b) = a' ++ §"TITLES:" ++ b'.
Proof.
  unfold strip.
  change (§"TITLES:" ++ b) with ("T"%char :: §"ITLES:" ++ b).
  rewrite lstrip_app_solid by reflexivity.
  change (lstrip a ++ "T"%char :: §"ITLES:" ++ b)
    with (lstrip a ++ §"TITLES" ++ ":"%char :: b).
  rewrite app_assoc, rstrip_app_solid by reflexivity.
  exists (lstrip a), (rstrip b). rewrite <- app_assoc. reflexivity.
Qed.

(** An occurrence of [old] cannot run into a character that [old] lacks. *)
Lemma starts_with_short old y :
  ~ In y old ->
  forall a r, starts_with old (a ++ y :: r) = true -> (length old <= length a)%nat.
Proof.
  intros Hy. induction old as [|c old IH]; intros a r H; [simpl; lia|].
  destruct a as [|x a]; simpl in H.
  - apply andb_true_iff in H. destruct H as [H _].
    apply Ascii.eqb_eq in H. subst y. exfalso. apply Hy. left. reflexivity.
  - apply andb_true_iff in H. destruct H as [_ H].
    simpl. apply le_n_S. apply (IH (fun F => Hy (or_intror F)) a r H).
Qed.

Lemma replace_from_cons old new x t :
  replace_from old new 0 (x :: t) =
  if starts_with old (x :: t)
  then new ++ replace_from old new (length old - 1)%nat t
  else x :: replace_from old new 0 t.
Proof. reflexivity. Qed.

Lemma replace_keeps_marker old b :
  ~ In "T"%char old ->
  (forall r, replace_from old [] 0 (§"TITLES:" ++ r)
             = §"TITLES:" ++ replace_from old [] 0 r) ->
  forall a skip,
    (skip <= length a)%nat ->
    exists a', replace_from old [] skip (a ++ §"TITLES:" ++ b)
               = a' ++ §"TITLES:" ++ replace_from old [] 0 b.
Proof.
  intros HT Hcopy. induction a as [|x a IH]; intros skip Hs.
  - assert (skip = O) by (simpl in Hs; lia). subst skip.
    exists []. apply Hcopy.
  - rewrite <- app_comm_cons. destruct skip as [|k].
    + rewrite replace_from_cons.
      destruct (starts_with old (x :: a ++ §"TITLES:" ++ b)) eqn:E.
      * destruct old as [|c old]; [exfalso|].
        -- simpl length in *. specialize (Hcopy []). discriminate Hcopy.
        -- simpl in E. apply andb_true_iff in E. destruct E as [_ E].
           change (§"TITLES:" ++ b) with ("T"%char :: §"ITLES:" ++ b) in E.
           apply starts_with_short in E; [|exact (fun F => HT (or_intror F))].
           destruct (IH (length (c :: old) - 1)%nat) as (a' & Ha'); [simpl; lia|].
           exists a'. exact Ha'.
      * destruct (IH O) as (a' & Ha'); [lia|].
        exists (x :: a'). rewrite Ha'. reflexivity.
    + apply IH. simpl in Hs. lia.
Qed.

Lemma phrase_keeps_marker old :
  In old cleanup_phrases ->
  forall a b, exists a' b', replace (a ++ §"TITLES:" ++ b) old [] = a' ++ §"TITLES:" ++ b'.
Proof.
  intros Hin a b. unfold replace.
  assert (H : ~ In "T"%char old /\
              forall r, replace_from old [] 0 (§"TITLES:" ++ r)
                        = §"TITLES:" ++ replace_from old [] 0 r).
  { simpl in Hin.
    repeat (destruct Hin as [<-|Hin];
            [split; [intros F; simpl in F; intuition discriminate | intros r; reflexivity]|]).
    contradiction. }
  destruct H as [HT Hcopy].
  destruct (replace_keeps_marker old b HT Hcopy a O (Nat.le_0_l _)) as (a' & Ha').
  eauto.
Qed.

Lemma phrases_keep_marker phrases :
  incl phrases cleanup_phrases ->
  forall a b, exists a' b',
    fold_left (fun text phrase => replace text phrase []) phrases (a ++ §"TITLES:" ++ b)
    = a' ++ §"TITLES:" ++ b'.
Proof.
  induction phrases as [|ph phrases IH]; intros Hi a b; [cbn [fold_left]; eauto|].
  cbn [fold_left].
  destruct (phrase_keeps_marker ph (Hi ph (or_introl eq_refl)) a b) as (a1 & b1 & ->).
  apply IH. intros x Hx. apply Hi. right. exact Hx.
Qed.

Lemma run_len_app_stop d y a r :
  Ascii.eqb d y = false -> run_len d (a ++ y :: r) = run_len d a.
Proof.
  intros Hy. induction a as [|x a IH]; simpl; [rewrite Hy; reflexivity|].
  rewrite IH. reflexivity.
Qed.

(** Characters other than [d] are copied by [re.sub(r'd{n,}', ...)]. *)
Lemma re_sub_copy d n repl w r :
  Forall (fun x => Ascii.eqb d x = false) w ->
  re_sub (at_least (S n) d) repl (w ++ r) = w ++ re_sub (at_least (S n) d) repl r.
Proof.
  induction 1 as [|x w Hx _ IH]; [reflexivity|].
  rewrite <- app_comm_cons, re_sub_run_step. cbn [run_len]. rewrite Hx.
  cbn [Nat.leb]. rewrite IH. reflexivity.
Qed.

Lemma re_sub_keeps_marker d n repl b :
  Forall (fun x => Ascii.eqb d x = false) §"TITLES:" ->
  forall m a,
    (length a <= m)%nat ->
    exists a', re_sub (at_least (S n) d) repl (a ++ §"TITLES:" ++ b)
               = a' ++ §"TITLES:" ++ re_sub (at_least (S n) d) repl b.
Proof.
  intros Hd. induction m as [|m IH]; intros a Hm.
  - destruct a; [|simpl in Hm; lia]. exists []. rewrite !app_nil_l.
    apply re_sub_copy, Hd.
  - destruct a as [|x a]; [exists []; rewrite !app_nil_l; apply re_sub_copy, Hd|].
    rewrite <- app_comm_cons, re_sub_run_step.
    change (x :: a ++ §"TITLES:" ++ b) with ((x :: a) ++ "T"%char :: §"ITLES:" ++ b).
    rewrite run_len_app_stop by (inversion Hd; assumption).
    destruct (S n <=? run_len d (x :: a))%nat eqn:E.
    + apply Nat.leb_le in E. pose proof (run_len_le d (x :: a)) as L.
      rewrite skipn_app.
      replace (run_len d (x :: a) - length (x :: a))%nat with O by lia.
      change (skipn 0 ("T"%char :: §"ITLES:" ++ b)) with (§"TITLES:" ++ b).
      destruct (IH (skipn (run_len d (x :: a)) (x :: a))) as (a' & Ha').
      { rewrite length_skipn. simpl length in *. lia. }
      exists (repl ++ a'). rewrite Ha', <- app_assoc. reflexivity.
    + destruct (IH a) as (a' & Ha'); [simpl in Hm; lia|].
      exists (x :: a').
      change (a ++ "T"%char :: §"ITLES:" ++ b) with (a ++ §"TITLES:" ++ b).
      rewrite Ha'. reflexivity.
Qed.

Lemma scrubbed_keeps_marker text :
  contains text §"TITLES:" = true -> contains (scrubbed text) §"TITLES:" = true.
Proof.
  intros H. destruct (contains_split _ _ H) as (a & b & ->).
  unfold scrubbed, newline_run, space_run.
  destruct (strip_keeps_marker a b) as (a1 & b1 & ->).
  destruct (phrases_keep_marker cleanup_phrases (incl_refl _) a1 b1) as (a2 & b2 & ->).
  destruct (re_sub_keeps_marker newline 2 (nl ++ nl) b2 ltac:(repeat constructor)
              _ a2 (Nat.le_refl _)) as (a3 & ->).
  destruct (re_sub_keeps_marker space 1 [space]
              (re_sub (at_least 3 newline) (nl ++ nl) b2) ltac:(repeat constructor)
              _ a3 (Nat.le_refl _)) as (a4 & ->).
  apply contains_infix.
Qed.

Lemma upper_keeps_marker s :
  starts_with §"TITLES:" s = true -> starts_with §"TITLES:" (upper s) = true.
Proof.
  intros H. destruct (starts_with_inv _ _ H) as (r & ->).
  rewrite upper_app. change (upper §"TITLES:") with §"TITLES:".
  apply starts_with_app.
Qed.

Lemma clean_keeps_marker text :
  contains text §"TITLES:" = true ->
  starts_with §"TITLES:" (clean_response_text text) = true.
Proof.
  intros H. apply scrubbed_keeps_marker in H.
  destruct (clean_marker text) as [[_ S]|[F _]]; [exact S | congruence].
Qed.

(** ** [extract_gemini_response] *)

Lemma clean_blank w : blank w -> clean_response_text w = [].
Proof.
  intros H. rewrite clean_scrubbed. unfold scrubbed.
  rewrite (strip_blank w H). reflexivity.
Qed.

Lemma long_enough_len text : long_enough text = true <-> 50 < len text.
Proof.
  destruct text as [|c t]; simpl.
  - split; [discriminate | unfold len; simpl; lia].
  - apply Z.ltb_lt.
Qed.

Lemma extract_cases p :
  extract_gemini_response p = [] \/
  exists text, extract_gemini_response p = clean_response_text text.
Proof.
  destruct p as [|[re|] [lr|] body]; simpl; [left; reflexivity | | | |].
  all: repeat match goal with
         | |- context [long_enough ?t] => destruct (long_enough t)
         end; simpl; eauto.
  all: unfold from_page; destruct (page_text body); [left; reflexivity|];
       destruct (_ || _); eauto.
Qed.

(** ** The cleaning on sample texts *)

Example noisy_reply_cleaned :
  clean_response_text noisy_reply =
  §"TITLES:" ++ nl ++ nl ++ §"Title 1: Great Wireless Mouse for Everyday Use" ++ nl
  ++ §", so it".
Proof. vm_compute. reflexivity. Qed.

(** Removing a phrase can bring the two halves of another one together, and
    the phrases are removed before the spaces are collapsed: the cleaned text
    may still contain a phrase. *)
Example phrases_can_reappear :
  clean_response_text §"doudouble-checkble-check Show  drafts" = §"double-check Show drafts".
Proof. vm_compute. reflexivity. Qed.

Example marker_can_appear :
  clean_response_text §"intro TITShow draftsLES: x" = §"TITLES: x".
Proof. vm_compute. reflexivity. Qed.

Example space_runs_replaced :
  re_sub space_run §"-" §"a  b   c d  " = §"a-b-c d-".
Proof. vm_compute. reflexivity. Qed.

(** ** More on the parser and the result envelope *)

Lemma parsed_shape text tc dc bc :
  let '(t, d, b) := parse_gemini_response text tc dc bc in
  Forall (fun c => 10 < len c /\ spaced_words c) t /\
  Forall (fun c => 20 < len c /\ spaced_words c) d /\
  Forall (fun c => 10 < len c /\ spaced_words c) b.
Proof.
  rewrite parse_gemini_response_eq. unfold parsed.
  destruct (find (upper text) §"TITLES:" =? -1).
  - repeat split; constructor.
  - repeat split; apply section_items_shape; lia.
Qed.

(** X1. Every item the parser returns is longer than the minimum of its
    section: more than 10 characters for a title or a bullet, more than 20
    for a description. *)
Theorem parsed_items_exceed_minimum text tc dc bc :
  let '(t, d, b) := parse_gemini_response text tc dc bc in
  Forall (fun c => 10 < len c) t /\
  Forall (fun c => 20 < len c) d /\
  Forall (fun c => 10 < len c) b.
Proof.
  pose proof (parsed_shape text tc dc bc) as H.
  destruct (parse_gemini_response text tc dc bc) as [[t d] b].
  destruct H as (Ht & Hd & Hb).
  repeat split; eapply Forall_impl; try eassumption; intros c [Hc _]; exact Hc.
Qed.

(** X2. Every item the parser returns is a single line of words: one or
    more non-empty words without any blank character (no newline, no tab),
    separated by exactly one space, with no blank at either end. *)
Theorem parsed_items_are_spaced_words text tc dc bc :
  let '(t, d, b) := parse_gemini_response text tc dc bc in
  Forall spaced_words t /\ Forall spaced_words d /\ Forall spaced_words b.
Proof.
  pose proof (parsed_shape text tc dc bc) as H.
  destruct (parse_gemini_response text tc dc bc) as [[t d] b].
  destruct H as (Ht & Hd & Hb).
  repeat split; eapply Forall_impl; try eassumption; intros c [_ Hc]; exact Hc.
Qed.

(** X3. Asking for more items never changes the items already found: with
    larger counts each returned list extends the list returned for the
    smaller counts. *)
Theorem larger_counts_extend text tc dc bc tc' dc' bc' :
  tc <= tc' -> dc <= dc' -> bc <= bc' ->
  let '(t, d, b) := parse_gemini_response text tc dc bc in
  exists more_t more_d more_b,
    parse_gemini_response text tc' dc' bc' = (t ++ more_t, d ++ more_d, b ++ more_b).
Proof.
  intros Ht Hd Hb. rewrite !parse_gemini_response_eq. unfold parsed.
  destruct (find (upper text) §"TITLES:" =? -1).
  - exists [], [], []. reflexivity.
  - destruct (section_items_more title_pattern (titles_section text) 10 tc tc' Ht)
      as (mt & Et).
    destruct (section_items_more desc_pattern (desc_section text) 20 dc dc' Hd)
      as (md & Ed).
    destruct (section_items_more bullet_pattern (bullets_section text) 10 bc bc' Hb)
      as (mb & Eb).
    exists mt, md, mb. rewrite Et, Ed, Eb. reflexivity.
Qed.

Lemma larger_counts_extend_witness :
  parse_gemini_response scenario_A 0 1 0 =
    ([], [§"This ergonomic mouse offers long battery life and precision tracking."], []) /\
  exists more_t more_d more_b,
    parse_gemini_response scenario_A 3 1 2 =
    ([] ++ more_t,
     [§"This ergonomic mouse offers long battery life and precision tracking."] ++ more_d,
     [] ++ more_b).
Proof.
  split; [vm_compute; reflexivity|].
  exact (larger_counts_extend scenario_A 0 1 0 3 1 2
           ltac:(lia) ltac:(lia) ltac:(lia)).
Defined.

(** X4. A request without a positive count is always answered with status
    500, [success = false] and three empty lists, whatever the reply was. *)
Theorem no_positive_count_fails ext request :
  title_count request <= 0 -> desc_count request <= 0 -> bullet_count request <= 0 ->
  let r := generate_content ext request in
  status_code r = 500 /\ body_success r = false /\
  body_titles r = [] /\ body_descriptions r = [] /\ body_bullets r = [].
Proof.
  intros Ht Hd Hb. cbv zeta. unfold generate_content.
  destruct ext as [e|e|[|c text]].
  - simpl. tauto.
  - rewrite generate_via_gemini_fails. simpl. tauto.
  - rewrite generate_via_gemini_empty. simpl. tauto.
  - rewrite generate_via_gemini_reply.
    pose proof (padded_lengths (c :: text) request) as L.
    destruct (padded (c :: text) request) as [[t d] b]. destruct L as (Lt & Ld & Lb).
    assert (t = []) by (apply len_nil_iff; lia).
    assert (d = []) by (apply len_nil_iff; lia).
    assert (b = []) by (apply len_nil_iff; lia).
    subst. simpl. tauto.
Qed.

Lemma no_positive_count_fails_witness :
  status_code (generate_content (Replies scenario_A) (mk_request 0 0 0)) = 500.
Proof.
  exact (proj1 (no_positive_count_fails (Replies scenario_A) (mk_request 0 0 0)
                  ltac:(simpl; lia) ltac:(simpl; lia) ltac:(simpl; lia))).
Defined.

Lemma nth_placeholder prefix (l : list str) count k :
  len l <= Z.of_nat k < count ->
  nth_error (l ++ placeholders prefix (len l) count) k =
  Some (prefix ++ str_of_int (Z.of_nat k + 1)).
Proof.
  intros H. unfold len in H. rewrite nth_error_app2 by lia.
  unfold placeholders, range. rewrite map_map.
  rewrite nth_error_map, nth_error_seq.
  replace (k - length l <? Z.to_nat (count + 1 - (len l + 1)))%nat with true
    by (symmetry; apply Nat.ltb_lt; unfold len; lia).
  simpl. do 3 f_equal. unfold len. lia.
Qed.

(** X5. Placeholders carry their position: when the [try] block completes,
    every returned entry past the parsed items, at 0-based index [k], is
    ["Generated Title k+1"] (["Generated Description k+1"],
    ["Generated Bullet Point k+1"]): the numbering continues after the
    parsed items and does not restart at 1. *)
Theorem placeholders_are_numbered_by_position c text request (k : nat) :
  let '(t, d, b) :=
    parse_gemini_response (c :: text) (title_count request) (desc_count request)
      (bullet_count request) in
  exists result,
    generate_via_gemini (Replies (c :: text)) request = Ok result /\
    (len t <= Z.of_nat k < title_count request ->
     nth_error (titles result) k =
     Some (§"Generated Title " ++ str_of_int (Z.of_nat k + 1))) /\
    (len d <= Z.of_nat k < desc_count request ->
     nth_error (descriptions result) k =
     Some (§"Generated Description " ++ str_of_int (Z.of_nat k + 1))) /\
    (len b <= Z.of_nat k < bullet_count request ->
     nth_error (bullets result) k =
     Some (§"Generated Bullet Point " ++ str_of_int (Z.of_nat k + 1))).
Proof.
  pose proof (generate_via_gemini_reply c text request) as H. unfold padded in H.
  destruct (parse_gemini_response (c :: text) _ _ _) as [[t d] b].
  eexists. split; [exact H|]. cbn [titles descriptions bullets].
  repeat split; intros Hk; apply nth_placeholder; exact Hk.
Qed.

Lemma placeholders_are_numbered_by_position_witness :
  exists result,
    generate_via_gemini (Replies scenario_B) (mk_request 3 1 1) = Ok result /\
    nth_error (titles result) 2 = Some §"Generated Title 3".
Proof.
  destruct (placeholders_are_numbered_by_position "T"%char
              (tl scenario_B) (mk_request 3 1 1) 2) as (result & H & Ht & _).
  exists result. split; [exact H|]. apply Ht. vm_compute. split; congruence.
Defined.

(** ** The cleaning and the extraction of the reply *)

(** X6. The cleaned text is trimmed and collapsed: it has no blank
    character at either end, no three newlines in a row and no two spaces in
    a row. *)
Theorem cleaned_text_is_trimmed_and_collapsed text :
  let cleaned := clean_response_text text in
  starts_solid cleaned /\ starts_solid (rev cleaned) /\
  find cleaned (nl ++ nl ++ nl) = -1 /\ find cleaned §"  " = -1.
Proof.
  cbv zeta. destruct (clean_runs text) as [Hn Hs].
  split; [|split; [|split]].
  - rewrite clean_scrubbed. apply strip_solid.
  - rewrite clean_scrubbed. apply strip_solid.
  - apply find_none_iff. apply (runs_ok_find newline 3); [lia | exact Hn].
  - apply find_none_iff. apply (runs_ok_find space 2); [lia | exact Hs].
Qed.

(** X7. In the cleaned text [TITLES:] is at the very start or nowhere:
    [find] returns 0 or -1. *)
Theorem cleaned_text_marker_first_or_absent text :
  find (clean_response_text text) §"TITLES:" = 0 \/
  find (clean_response_text text) §"TITLES:" = -1.
Proof.
  destruct (clean_marker text) as [[_ H]|[_ H]].
  - left. apply find_zero_iff, H.
  - right. apply find_none_iff, H.
Qed.

(** X8. Cleaning only deletes: the cleaned text is the given text with some
    characters left out, in the same order, so it is never longer. *)
Theorem cleaning_only_deletes text :
  subseq (clean_response_text text) text /\
  len (clean_response_text text) <= len text.
Proof.
  pose proof (clean_subseq text) as H. split; [exact H|].
  apply subseq_length in H. unfold len. lia.
Qed.

(** X9. A text that is already clean is returned unchanged: no blank at
    either end, none of the six interface phrases, no three newlines and no
    two spaces in a row, and [TITLES:] at the start or nowhere. *)
Theorem clean_text_is_unchanged text :
  starts_solid text -> starts_solid (rev text) ->
  Forall (fun phrase => find text phrase = -1) cleanup_phrases ->
  find text (nl ++ nl ++ nl) = -1 -> find text §"  " = -1 ->
  find text §"TITLES:" = 0 \/ find text §"TITLES:" = -1 ->
  clean_response_text text = text.
Proof.
  intros H1 H2 Hp Hn Hs Ht.
  assert (E : scrubbed text = text).
  { unfold scrubbed, newline_run, space_run.
    rewrite (strip_id text H1 H2), (fold_replace_id _ _ Hp).
    rewrite (re_sub_id newline 2) by (apply find_none_iff, Hn).
    apply (re_sub_id space 1). apply find_none_iff, Hs. }
  rewrite clean_scrubbed, E. unfold contains.
  destruct Ht as [Ht|Ht]; rewrite Ht; simpl negb; cbv iota.
  - replace (slice text (Some 0) None) with text
      by (symmetry; apply (slice_from _ text 0 (Nat.le_0_l _))).
    apply strip_id; assumption.
  - apply strip_id; assumption.
Qed.

Lemma clean_text_is_unchanged_witness : clean_response_text scenario_A = scenario_A.
Proof.
  apply (clean_text_is_unchanged scenario_A).
  - reflexivity.
  - reflexivity.
  - repeat (constructor; [vm_compute; reflexivity|]). constructor.
  - vm_compute; reflexivity.
  - vm_compute; reflexivity.
  - left. vm_compute; reflexivity.
Defined.

(** X10. A text that contains [TITLES:] is cut to start there: the cleaned
    text starts with [TITLES:], whatever came before it on the page, and the
    parser's search for the marker in the upper-cased text succeeds at
    index 0. *)
Theorem marker_survives_cleaning text :
  find text §"TITLES:" <> -1 ->
  find (clean_response_text text) §"TITLES:" = 0 /\
  find (upper (clean_response_text text)) §"TITLES:" = 0.
Proof.
  intros H.
  assert (C : contains text §"TITLES:" = true).
  { unfold contains. apply negb_true_iff, Z.eqb_neq, H. }
  apply clean_keeps_marker in C.
  split; apply find_zero_iff; [exact C | apply upper_keeps_marker, C].
Qed.

Lemma marker_survives_cleaning_witness :
  find (clean_response_text noisy_reply) §"TITLES:" = 0 /\
  find (upper (clean_response_text noisy_reply)) §"TITLES:" = 0.
Proof.
  apply (marker_survives_cleaning noisy_reply). vm_compute. discriminate.
Defined.

(** X11. Whatever the page holds, the text that the extraction returns has
    no blank at either end, no three newlines and no two spaces in a row,
    and has [TITLES:] at its start or nowhere. *)
Theorem extracted_text_is_normal p :
  let text := extract_gemini_response p in
  starts_solid text /\ starts_solid (rev text) /\
  find text (nl ++ nl ++ nl) = -1 /\ find text §"  " = -1 /\
  (find text §"TITLES:" = 0 \/ find text §"TITLES:" = -1).
Proof.
  cbv zeta. destruct (extract_cases p) as [->|(t & ->)].
  - repeat split; try reflexivity. right. reflexivity.
  - destruct (clean_runs t) as [Hn Hs].
    split; [|split; [|split; [|split]]].
    + rewrite clean_scrubbed. apply strip_solid.
    + rewrite clean_scrubbed. apply strip_solid.
    + apply find_none_iff. apply (runs_ok_find newline 3); [lia | exact Hn].
    + apply find_none_iff. apply (runs_ok_find space 2); [lia | exact Hs].
    + destruct (clean_marker t) as [[_ H]|[_ H]].
      * left. apply find_zero_iff, H.
      * right. apply find_none_iff, H.
Qed.

(** X12. The length test is made before the cleaning: a reply element whose
    text is more than 50 blank characters is accepted and cleaned to the
    empty text, the last reply element and the page text are not looked at,
    and the request is answered with status 500, [success = false], no
    [error] and three empty lists. *)
Theorem blank_candidate_hides_the_page w last_response body request :
  blank w -> 50 < len w ->
  extract_gemini_response (Page (Some w) last_response body) = [] /\
  generate_content
    (Replies (extract_gemini_response (Page (Some w) last_response body))) request
  = JSONResponse failure_result 500.
Proof.
  intros Hb Hl.
  assert (E : extract_gemini_response (Page (Some w) last_response body) = []).
  { simpl. rewrite (proj2 (long_enough_len w) Hl). apply clean_blank, Hb. }
  split; [exact E|]. rewrite E. unfold generate_content.
  rewrite generate_via_gemini_empty. reflexivity.
Qed.

Lemma blank_candidate_hides_the_page_witness :
  extract_gemini_response (Page (Some (repeat space 51)) None scenario_A) = [] /\
  generate_content
    (Replies (extract_gemini_response (Page (Some (repeat space 51)) None scenario_A)))
    (mk_request 1 1 1)
  = JSONResponse failure_result 500.
Proof.
  apply (blank_candidate_hides_the_page (repeat space 51) None scenario_A (mk_request 1 1 1)).
  - repeat constructor.
  - vm_compute. reflexivity.
Defined.

(** X13. The last resort: when neither reply element offers more than 50
    characters and the page text contains [TITLES:], the extraction returns
    a text that starts with [TITLES:]. *)
Theorem page_fallback_finds_marker response_elem last_response body :
  (forall text, response_elem = Some text -> len text <= 50) ->
  (forall text, last_response = Some text -> len text <= 50) ->
  find body §"TITLES:" <> -1 ->
  find (extract_gemini_response (Page response_elem last_response body)) §"TITLES:" = 0.
Proof.
  intros H1 H2 Hb.
  assert (A : forall cand, (forall text, cand = Some text -> len text <= 50) ->
                           accepted cand = None).
  { intros [t|] H; [|reflexivity]. simpl.
    destruct (long_enough t) eqn:E; [|reflexivity].
    apply long_enough_len in E. specialize (H t eq_refl). lia. }
  cbn [extract_gemini_response]. rewrite (A _ H1), (A _ H2).
  assert (C : contains body §"TITLES:" = true).
  { unfold contains. apply negb_true_iff, Z.eqb_neq, Hb. }
  unfold from_page, page_text.
  destruct (titles_cut body) as [[_ (p & r & _ & _ & Hs)]|[F _]]; [|congruence].
  fold (contains body §"TITLES:"). rewrite C, Hs.
  pose proof (contains_infix [] §"TITLES:" r) as Cr. rewrite app_nil_l in Cr.
  change (§"TITLES:" ++ r) with ("T"%char :: §"ITLES:" ++ r) at 1.
  cbv iota. rewrite Cr. cbn [orb].
  apply find_zero_iff, clean_keeps_marker, Cr.
Qed.

Lemma page_fallback_finds_marker_witness :
  find (extract_gemini_response
          (Page (Some §"Thinking") None (§"Ask Gemini" ++ nl ++ scenario_A)))
       §"TITLES:" = 0.
Proof.
  apply (page_fallback_finds_marker (Some §"Thinking") None
           (§"Ask Gemini" ++ nl ++ scenario_A)).
  - intros text H. injection H as <-. vm_compute. discriminate.
  - intros text H. discriminate H.
  - vm_compute. discriminate.
Defined.
